(** * gmail-to-crm: a shallow embedding of the extension's logic

    The development follows the layout of the extension's sources:

    - [JsString]: the string primitives the sources call ([trim],
      [toLowerCase], truthiness of a string);
    - [Regex]: a backtracking matcher for the regular-expression literals of
      the sources, in the continuation style of the ECMAScript specification;
    - [GmailApi]: [parseEmailAddress], [parseEmailAddresses] and
      [extractEmailFromDOM] of [lib/gmail-api.ts];
    - [Content]: [extractEmailFromRow] and the request built by
      [handleLogToCrm] in [content/gmail-integration.tsx];
    - [Js], [Http], [Api]: values, the [fetch] interface, and the CRM client
      of [lib/api.ts] ([apiRequest], [isEmailLogged], [healthCheck]);
    - [Auth]: [updateAuthState] and [authenticateBizDash] of [lib/auth.ts];
    - [ServiceWorker]: [getSettings] and [updateSettings] of
      [background/service-worker.ts];
    - [GmailClient]: the requests of [lib/gmail-api.ts] ([gmailRequest],
      [getMessage], [getThread]);
    - [ApiCalls]: the calls of [lib/api.ts] on top of [apiRequest];
    - [AuthFlows]: the Google flows, [initializeAuth] and
      [authenticateFull] of [lib/auth.ts];
    - [Coordinator]: [handleMessage] and the message listener of
      [background/service-worker.ts];
    - [MenuAction]: [handleLogToCrm] of [content/gmail-integration.tsx];
    - [Shapes], [Samples], [MoreShapes] and [MoreSamples]: the predicates
      and the sample inputs that the statements use.

    Strings that are scanned character by character are lists of code units
    restricted to U+0000..U+00FF ([list ascii]); property names, URLs and
    messages that are only concatenated are [string]s.  The definitions come
    first, the theorems follow. *)

From Stdlib Require Import ZArith Ascii String List Bool Lia.
From Stdlib Require DecimalString DecimalPos DecimalZ.
From stdpp Require Import base option list gmap strings.

Set Default Proof Using "Type".
Local Open Scope list_scope.

(** ** Strings *)

Module JsString.

(** A JavaScript string whose code units are all below U+0100. *)
Abbreviation jsstring := (list ascii).

(** String literals of the sources. *)
Definition str (s : string) : jsstring := list_ascii_of_string s.

Definition code (a : ascii) : N := N_of_ascii a.

(** WhiteSpace and LineTerminator code points below U+0100: TAB, LF, VT,
    FF, CR, SP and NBSP.  This is the set removed by [String.prototype.trim]
    and matched by the class escape [\s]. *)
Definition isWhiteSpace (a : ascii) : bool :=
  match code a with
  | 9 | 10 | 11 | 12 | 13 | 32 | 160 => true
  | _ => false
  end%N.

Fixpoint trimStart (s : jsstring) : jsstring :=
  match s with
  | a :: s' => if isWhiteSpace a then trimStart s' else s
  | [] => []
  end.

Definition trimEnd (s : jsstring) : jsstring := rev (trimStart (rev s)).

(** [String.prototype.trim] *)
Definition trim (s : jsstring) : jsstring := trimEnd (trimStart s).

(** Lower-case mapping of one code unit below U+0100: A-Z, and the
    Latin-1 capitals U+00C0..U+00DE except the multiplication sign U+00D7,
    move up by 32; every other code unit is its own lower case. *)
Definition lowerChar (a : ascii) : ascii :=
  let n := code a in
  if ((65 <=? n) && (n <=? 90)
      || (192 <=? n) && (n <=? 222) && negb (n =? 215))%N
  then ascii_of_N (n + 32)
  else a.

(** [String.prototype.toLowerCase] *)
Definition toLowerCase (s : jsstring) : jsstring := map lowerChar s.

(** ToBoolean of a string: the empty string is the only falsy one. *)
Definition truthy (s : jsstring) : bool :=
  match s with [] => false | _ :: _ => true end.

(** [s || undefined] for a string [s]. *)
Definition orUndefined (s : jsstring) : option jsstring :=
  if truthy s then Some s else None.

Definition eqc (a b : ascii) : bool := Ascii.eqb a b.

End JsString.

(** ** Values, exceptions and results *)

Module Js.

(** A thrown value: the error class and its message. *)
Inductive exn : Type :=
| Error (message : string)
| TypeError (message : string)
| SyntaxError (message : string)
| URIError (message : string).

(** The outcome of a computation that may throw; an awaited promise that
    rejects is a [Throw]. *)
Inductive result (A : Type) : Type :=
| Ok (a : A)
| Throw (e : exn).
Arguments Ok {A} a.
Arguments Throw {A} e.

Definition bind {A B} (x : result A) (f : A -> result B) : result B :=
  match x with
  | Ok a => f a
  | Throw e => Throw e
  end.

(** [try { x } catch (e) { h e }] *)
Definition try {A} (x : result A) (h : exn -> result A) : result A :=
  match x with
  | Ok a => Ok a
  | Throw e => h e
  end.

(** Values as they come out of [JSON.parse] or of storage. *)
#[warnings="-register-all"]
Inductive value : Type :=
| JUndefined
| JNull
| JBool (b : bool)
| JNum (z : Z)
| JStr (s : string)
| JArr (items : list value)
| JObj (fields : gmap string value).

(** [v.key] for a property name that no built-in prototype defines:
    reading it from [null] or [undefined] throws a TypeError, an object
    answers with its own property or [undefined], and every other value
    answers [undefined]. *)
Definition getProp (v : value) (key : string) : result value :=
  match v with
  | JUndefined | JNull =>
      Throw (TypeError ("Cannot read properties of null or undefined, reading "
                        +:+ key))
  | JObj fields => Ok (default JUndefined (fields !! key))
  | JBool _ | JNum _ | JStr _ | JArr _ => Ok JUndefined
  end.

(** Decimal rendering of an integer, as in a template literal. *)
Definition showZ (z : Z) : string :=
  DecimalString.NilZero.string_of_int (Z.to_int z).

End Js.

Declare Scope js_scope.
Delimit Scope js_scope with js.
Notation "'let*' x := e 'in' k" := (Js.bind e (fun x => k))
  (at level 10, x name, e at level 200, k at level 200) : js_scope.

(** ** Regular expressions *)

Module Regex.
Import JsString.

(** The fragment of the pattern language that the sources use.  Every
    quantified atom of the sources' patterns is a single character or a
    character class, so [Star] and [Plus] carry a class; [Opt] is the
    greedy [?] applied to an arbitrary sub-pattern. *)
Inductive regex : Type :=
| Chr (p : ascii -> bool)        (* one character of a class *)
| Seq (r1 r2 : regex)            (* r1 r2 *)
| Opt (r : regex)                (* r? *)
| Star (p : ascii -> bool)       (* [p]* *)
| Plus (p : ascii -> bool)       (* [p]+ *)
| Group (i : nat) (r : regex)    (* the i-th capturing group *)
| Bol                            (* ^ *)
| Eol.                           (* $ *)

(** Captures: group number to captured substring, undefined when the
    group did not take part in the match. *)
Definition captures := nat -> option jsstring.

Definition noCaptures : captures := fun _ => None.

Definition setCapture (i : nat) (v : jsstring) (c : captures) : captures :=
  fun j => if Nat.eqb i j then Some v else c j.

(** A match state is the rest of the input together with the captures.
    A continuation receives the state after a sub-pattern and answers
    with the final state or with failure. *)
Definition mresult := option (captures * jsstring).
Definition cont := jsstring -> captures -> mresult.

(** Greedy iteration of a class: take one more character while possible,
    and fall back to the continuation at the current position when the
    longer attempt fails. *)
Fixpoint starC (p : ascii -> bool) (k : cont) (s : jsstring) (c : captures)
  : mresult :=
  match s with
  | a :: s' =>
      if p a then
        match starC p k s' c with
        | Some r => Some r
        | None => k s c
        end
      else k s c
  | [] => k [] c
  end.

(** [m inp r k s c]: match [r] at the suffix [s] of the input [inp]. *)
Fixpoint m (inp : jsstring) (r : regex) (k : cont) (s : jsstring)
  (c : captures) : mresult :=
  match r with
  | Chr p =>
      match s with
      | a :: s' => if p a then k s' c else None
      | [] => None
      end
  | Seq r1 r2 => m inp r1 (m inp r2 k) s c
  | Opt r' =>
      (* one iteration that must consume input, else none at all *)
      match m inp r'
              (fun s' c' => if length s' =? length s then None else k s' c')
              s c with
      | Some res => Some res
      | None => k s c
      end
  | Star p => starC p k s c
  | Plus p =>
      match s with
      | a :: s' => if p a then starC p k s' c else None
      | [] => None
      end
  | Group i r' =>
      m inp r'
        (fun s' c' =>
           k s' (setCapture i (take (length s - length s') s) c'))
        s c
  | Bol => if length s =? length inp then k s c else None
  | Eol => match s with [] => k s c | _ :: _ => None end
  end.

(** The result of [RegExp.prototype.exec] for a pattern without flags:
    the text before the match, the captures, and the text after it. *)
Record MatchResult := {
  before : jsstring;
  groups : captures;
  after : jsstring
}.

Definition accept : cont := fun s c => Some (c, s).

(** Try every start position from the left. *)
Fixpoint execFrom (inp : jsstring) (r : regex) (pre s : jsstring)
  : option MatchResult :=
  match m inp r accept s noCaptures with
  | Some (c, rest) => Some {| before := pre; groups := c; after := rest |}
  | None =>
      match s with
      | [] => None
      | a :: s' => execFrom inp r (pre ++ [a]) s'
      end
  end.

Definition exec (r : regex) (inp : jsstring) : option MatchResult :=
  execFrom inp r [] inp.

(** [inp.replace(r, '')] for a pattern without the global flag. *)
Definition removeFirst (r : regex) (inp : jsstring) : jsstring :=
  match exec r inp with
  | Some mr => before mr ++ after mr
  | None => inp
  end.

(** Character classes *)
Definition only (a : ascii) : ascii -> bool := eqc a.
Definition except (a : ascii) : ascii -> bool := fun b => negb (eqc a b).

End Regex.

(** ** lib/gmail-api.ts: address parsing *)

Module GmailApi.
Import JsString Regex.

(** [interface EmailAddress { email: string; name?: string }]; an absent
    [name] and a [name] that is [undefined] both read as [None]. *)
Record EmailAddress := {
  email : jsstring;
  name : option jsstring
}.

Definition dquote : ascii := "034"%char.
Definition comma : ascii := ","%char.
Definition atSign : ascii := "@"%char.
Definition lt : ascii := "<"%char.
Definition gt : ascii := ">"%char.

(** The pattern of [parseEmailAddress], piece by piece: the anchor ^; an
    optional non-capturing group [nameGroup] made of an optional double
    quote, capture 1 (a greedy run of characters other than the double
    quote), an optional double quote and one white-space character; an
    optional <; capture 2 [emailGroup] (one or more characters other
    than >, an @, one or more characters other than >); an optional >;
    the anchor $. *)
Definition nameGroup : regex :=
  Seq (Opt (Chr (only dquote)))
    (Seq (Group 1 (Star (except dquote)))
       (Seq (Opt (Chr (only dquote))) (Chr isWhiteSpace))).

Definition emailGroup : regex :=
  Group 2 (Seq (Plus (except gt))
             (Seq (Chr (only atSign)) (Plus (except gt)))).

(** The optional > and the anchor $. *)
Definition closing : regex := Seq (Opt (Chr (only gt))) Eol.

Definition emailAndClosing : regex := Seq emailGroup closing.

(** What follows the optional name group. *)
Definition afterName : regex := Seq (Opt (Chr (only lt))) emailAndClosing.

Definition addressPattern : regex :=
  Seq Bol (Seq (Opt nameGroup) afterName).

(** [match[1]?.trim() || undefined] *)
Definition matchedName (g : captures) : option jsstring :=
  match g 1 with
  | Some n => orUndefined (trim n)
  | None => None
  end.

(** [match[2].trim().toLowerCase()]; group 2 is not optional in the
    pattern, so it is defined whenever the pattern matches. *)
Definition matchedEmail (g : captures) : jsstring :=
  toLowerCase (trim (default [] (g 2))).

Definition parseEmailAddress (raw : jsstring) : EmailAddress :=
  match exec addressPattern raw with
  | Some mr => {| name := matchedName (groups mr);
                  email := matchedEmail (groups mr) |}
  | None => {| name := None; email := toLowerCase (trim raw) |}
  end.

(** The loop of [parseEmailAddresses]: [addresses], [current] and
    [inQuotes] are its three variables. *)
Record SplitState := {
  addresses : list jsstring;
  current : jsstring;
  inQuotes : bool
}.

Definition initialSplit : SplitState :=
  {| addresses := []; current := []; inQuotes := false |}.

(** [if (current.trim()) addresses.push(current.trim())] *)
Definition pushCurrent (addrs : list jsstring) (cur : jsstring)
  : list jsstring :=
  if truthy (trim cur) then addrs ++ [trim cur] else addrs.

(** One iteration of [for (const char of raw)]. *)
Definition splitStep (st : SplitState) (char : ascii) : SplitState :=
  let inQ := if eqc char dquote then negb (inQuotes st) else inQuotes st in
  if eqc char comma && negb inQ then
    {| addresses := pushCurrent (addresses st) (current st);
       current := [];
       inQuotes := inQ |}
  else
    {| addresses := addresses st;
       current := current st ++ [char];
       inQuotes := inQ |}.

Definition splitLoop (st : SplitState) (raw : jsstring) : SplitState :=
  fold_left splitStep raw st.

(** The array [addresses] when the loop and the final push are done. *)
Definition splitAddresses (raw : jsstring) : list jsstring :=
  let st := splitLoop initialSplit raw in
  pushCurrent (addresses st) (current st).

Definition parseEmailAddresses (raw : jsstring) : list EmailAddress :=
  if negb (truthy raw) then []
  else map parseEmailAddress (splitAddresses raw).

(** *** DOM-based extraction *)

(** [interface GmailEmail]; [date] is the time value of the [Date]. *)
Record GmailEmail := {
  messageId : jsstring;
  threadId : jsstring;
  subject : jsstring;
  from : EmailAddress;
  to : list EmailAddress;
  cc : list EmailAddress;
  bcc : list EmailAddress;
  date : Z;
  snippet : jsstring;
  labels : list jsstring
}.

(** The page as the extractors see it: nodes are handles, and every DOM
    call the sources make is a field.  A call may throw, which is what
    the [try]/[catch] around each extractor is for.  Selectors are passed
    on as text; the double quotes inside the sources' attribute selectors
    are left out of the literals below. *)
Definition Element := nat.

Record Document := {
  querySelector : string -> Js.result (option Element);
  querySelectorIn : Element -> string -> Js.result (option Element);
  closest : Element -> string -> Js.result (option Element);
  getAttribute : Element -> string -> Js.result (option jsstring);
  textContent : Element -> Js.result (option jsstring);
  title : jsstring
}.

(** The clock and the random source. *)
Record Clock := {
  now : Z;                 (* Date.now(), the time value of new Date() *)
  randomText : jsstring;   (* the rendering of Math.random() *)
  parseDate : jsstring -> option Z  (* new Date(text), None when invalid *)
}.

(** [a || b] on possibly missing strings: [a] when it is a non-empty
    string, otherwise [b]. *)
Definition orElse (a : option jsstring) (b : jsstring) : jsstring :=
  match a with
  | Some s => if truthy s then s else b
  | None => b
  end.

(** [a || b] where [b] is itself a DOM read: it is evaluated only when
    [a] is missing or empty. *)
Definition orElseRead (a : option jsstring)
  (b : Js.result (option jsstring)) : Js.result (option jsstring) :=
  match a with
  | Some s => if truthy s then Js.Ok (Some s) else b
  | None => b
  end.

Fixpoint startsWith (sep s : jsstring) : bool :=
  match sep, s with
  | [], _ => true
  | a :: sep', b :: s' => eqc a b && startsWith sep' s'
  | _ :: _, [] => false
  end.

(** [s.split(sep)[0]] for a non-empty separator. *)
Fixpoint beforeFirst (sep s : jsstring) : jsstring :=
  match s with
  | [] => []
  | a :: s' => if startsWith sep s then [] else a :: beforeFirst sep s'
  end.

Definition showTime (z : Z) : jsstring := str (Js.showZ z).

Section Extract.
Variable doc : Document.
Variable clock : Clock.
Local Open Scope js_scope.

(** [el?.getAttribute(name)] *)
Definition attrOf (el : option Element) (attr : string)
  : Js.result (option jsstring) :=
  match el with
  | Some e => getAttribute doc e attr
  | None => Js.Ok None
  end.

(** [el?.textContent] *)
Definition textOf (el : option Element) : Js.result (option jsstring) :=
  match el with
  | Some e => textContent doc e
  | None => Js.Ok None
  end.

(** [a || b] on elements, where [b] is only evaluated when needed. *)
Definition orQuery (a : option Element)
  (b : Js.result (option Element)) : Js.result (option Element) :=
  match a with
  | Some e => Js.Ok (Some e)
  | None => b
  end.

(** The body of the [try] block of [extractEmailFromDOM].  The two
    snapshots of the function differ only in where the sender element is
    looked up and in the trimming of its text; this is the later one.  One
    reading of the clock serves the whole call. *)
Definition extractEmailFromDOM_body : Js.result (option GmailEmail) :=
  let* emailContainer := querySelector doc "[data-message-id]" in
  match emailContainer with
  | None => Js.Ok None
  | Some container =>
      let* idAttr := getAttribute doc container "data-message-id" in
      let messageId := orElse idAttr (str "dom-" ++ showTime (now clock)) in
      let* subjectEl1 := querySelector doc "h2[data-thread-perm-id]" in
      let* subjectEl :=
        orQuery subjectEl1 (querySelector doc "[data-legacy-thread-id]") in
      let* subjectText := textOf subjectEl in
      let subject :=
        orElse subjectText (beforeFirst (str " - ") (title doc)) in
      let* fromEl1 := querySelector doc ".gD[email]" in
      let* fromEl2 :=
        orQuery fromEl1 (querySelectorIn doc container "[email]") in
      let* fromEl :=
        orQuery fromEl2
          (let* gs := closest doc container ".gs" in
           match gs with
           | Some g => querySelectorIn doc g "[email]"
           | None => Js.Ok None
           end) in
      let* emailAttr := attrOf fromEl "email" in
      let fromEmail := orElse emailAttr [] in
      let* nameAttr := attrOf fromEl "name" in
      let* nameOrText :=
        orElseRead nameAttr
          (let* fromText := textOf fromEl in
           Js.Ok (option_map trim fromText)) in
      let fromName := orElse nameOrText [] in
      let* bodyEl :=
        querySelectorIn doc container "[data-message-id] > div" in
      let* bodyText := textOf bodyEl in
      let snippet := orElse (option_map (take 200) bodyText) [] in
      Js.Ok (Some {|
        messageId := messageId;
        threadId := messageId;
        subject := subject;
        from := {| email := fromEmail; name := Some fromName |};
        to := [];
        cc := [];
        bcc := [];
        date := now clock;
        snippet := snippet;
        labels := []
      |})
  end.

(** [extractEmailFromDOM]: whatever the body throws is caught and
    turned into [null]. *)
Definition extractEmailFromDOM : option GmailEmail :=
  match extractEmailFromDOM_body with
  | Js.Ok r => r
  | Js.Throw _ => None
  end.

End Extract.

End GmailApi.

(** ** content/gmail-integration.tsx *)

Module Content.
Import JsString Regex GmailApi.

(** [interface EmailLogRequest]; [emailDate] is the time value that
    [toISOString] renders. *)
Record EmailLogRequest := {
  gmailMessageId : jsstring;
  gmailThreadId : jsstring;
  reqSubject : jsstring;
  fromEmail : jsstring;
  fromName : option jsstring;
  toEmails : list jsstring;
  ccEmails : list jsstring;
  emailDate : Z;
  reqSnippet : jsstring
}.

Definition isIdChar (a : ascii) : bool :=
  let n := code a in
  ((65 <=? n) && (n <=? 90) || (97 <=? n) && (n <=? 122)
   || (48 <=? n) && (n <=? 57) || (n =? 95) || (n =? 45))%N.

(** The pattern of the thread link: a #, one or more characters other
    than /, a /, and capture 1 = one or more of A-Z a-z 0-9 _ and -. *)
Definition threadIdPattern : regex :=
  Seq (Chr (only "#"%char))
    (Seq (Plus (except "/"%char))
       (Seq (Chr (only "/"%char)) (Group 1 (Plus isIdChar)))).

(** The pattern stripped from the snippet: ^, white space, one dash,
    white space.  Of the three dashes of the class only the hyphen-minus
    is below U+0100. *)
Definition leadingDashPattern : regex :=
  Seq Bol
    (Seq (Star isWhiteSpace)
       (Seq (Chr (only "-"%char)) (Star isWhiteSpace))).

Section Row.
Variable doc : Document.
Variable clock : Clock.
Local Open Scope js_scope.

(** [parseGmailDate] *)
Definition parseGmailDate (dateText : jsstring) : Z :=
  if negb (truthy dateText) then now clock
  else match parseDate clock dateText with
       | Some t => t
       | None => now clock
       end.

(** [threadIdMatch?.[1] || `row-${Date.now()}-${Math.random()}`] *)
Definition threadIdOf (href : jsstring) : jsstring :=
  orElse
    (match exec threadIdPattern href with
     | Some mr => groups mr 1
     | None => None
     end)
    (str "row-" ++ showTime (now clock) ++ str "-" ++ randomText clock).

(** The body of the [try] block of [extractEmailFromRow]. *)
Definition extractEmailFromRow_body (row : Element)
  : Js.result (option GmailEmail) :=
  let* threadLink :=
    querySelectorIn doc row
      "a[href*=#inbox/], a[href*=#sent/], a[href*=#all/], a[href*=#search/]" in
  let* hrefAttr := attrOf doc threadLink "href" in
  let href := orElse hrefAttr [] in
  let threadId := threadIdOf href in
  let* senderEl := querySelectorIn doc row "[email]" in
  let* emailAttr := attrOf doc senderEl "email" in
  let fromEmail := orElse emailAttr [] in
  let* nameAttr := attrOf doc senderEl "name" in
  let* nameOrText :=
    orElseRead nameAttr
      (let* senderText := textOf doc senderEl in
       Js.Ok (option_map trim senderText)) in
  let fromName := orElse nameOrText [] in
  let* subjectEl :=
    querySelectorIn doc row
      ".bog, .bqe, [data-thread-subject], .y6 span:first-child" in
  let* subjectText := textOf doc subjectEl in
  let subject := orElse (option_map trim subjectText) (str "(No Subject)") in
  let* snippetEl := querySelectorIn doc row ".y2, .Zt" in
  let* snippetText := textOf doc snippetEl in
  let snippet0 := orElse (option_map trim snippetText) [] in
  let snippet := removeFirst leadingDashPattern snippet0 in
  let* dateEl :=
    querySelectorIn doc row ".xW span[title], .xW span, td.xW" in
  let* titleAttr := attrOf doc dateEl "title" in
  let* titleOrText := orElseRead titleAttr (textOf doc dateEl) in
  let dateText := orElse titleOrText [] in
  let date := parseGmailDate dateText in
  Js.Ok (Some {|
    messageId := threadId;
    threadId := threadId;
    subject := subject;
    from := {| email := fromEmail; name := orUndefined fromName |};
    to := [];
    cc := [];
    bcc := [];
    date := date;
    snippet := snippet;
    labels := []
  |}).

Definition extractEmailFromRow (row : Element) : option GmailEmail :=
  match extractEmailFromRow_body row with
  | Js.Ok r => r
  | Js.Throw _ => None
  end.

End Row.

(** The request that [handleLogToCrm] and the button's [handleLogEmail]
    build from an extracted record before sending [LOG_EMAIL]. *)
Definition logRequestOf (mail : GmailEmail) : EmailLogRequest :=
  {| gmailMessageId := messageId mail;
     gmailThreadId := threadId mail;
     reqSubject := subject mail;
     fromEmail := email (from mail);
     fromName := name (from mail);
     toEmails := map email (to mail);
     ccEmails := map email (cc mail);
     emailDate := date mail;
     reqSnippet := snippet mail |}.

End Content.

(** ** The fetch interface *)

Module Http.
Import Js.

(** What the sources read from a [Response]: the status, and the body
    as text or as parsed JSON (either read may reject). *)
Record Response := {
  status : Z;
  text : result string;
  json : result value
}.

(** [response.ok]: the status is in the range 200-299. *)
Definition ok (r : Response) : bool :=
  (200 <=? status r)%Z && (status r <=? 299)%Z.

(** [RequestInit], with the header object as a map. *)
Record RequestInit := {
  method : option string;
  headers : gmap string string;
  body : option string
}.

Definition noOptions : RequestInit :=
  {| method := None; headers := ∅; body := None |}.

(** [fetch(url, init)]: a response, or a rejection when the transport
    fails. *)
Definition Fetch := string -> RequestInit -> result Response.

End Http.

(** ** lib/api.ts: the CRM client *)

Module Api.
Import Js Http.
Local Open Scope js_scope.

(** The module variables [apiBaseUrl] and [authToken]. *)
Record Config := {
  apiBaseUrl : string;
  authToken : option string
}.

Definition initialConfig : Config :=
  {| apiBaseUrl := "http://localhost:8000"; authToken := None |}.

(** ToBoolean of a string *)
Definition nonEmpty (s : string) : bool :=
  match s with EmptyString => false | String _ _ => true end.

(** [token || null] *)
Definition orNull (token : option string) : option string :=
  match token with
  | Some t => if nonEmpty t then Some t else None
  | None => None
  end.

(** [configureApi] *)
Definition configureApi (baseUrl : string) (token : option string)
  : Config :=
  {| apiBaseUrl := baseUrl; authToken := orNull token |}.

(** [authToken ? { Authorization: `Bearer ${authToken}` } : {}] *)
Definition authorization (cfg : Config) : gmap string string :=
  match orNull (authToken cfg) with
  | Some t => {[ "Authorization" := "Bearer " +:+ t ]}
  | None => ∅
  end.

Section Client.
Variable fetch : Fetch.
(** [encodeURIComponent] throws a URIError on ill-formed input. *)
Variable encodeURIComponent : string -> result string.
Variable cfg : Config.

(** The [init] object that [apiRequest] hands to [fetch]: the header
    object is a spread in which later entries win. *)
Definition requestInit (options : RequestInit) : RequestInit :=
  {| method := method options;
     headers :=
       headers options ∪ authorization cfg
         ∪ {[ "Content-Type" := "application/json" ]};
     body := body options |}.

(** [apiRequest] *)
Definition apiRequest (endpoint : string) (options : RequestInit)
  : result value :=
  let url := apiBaseUrl cfg +:+ endpoint in
  let* response := fetch url (requestInit options) in
  if negb (ok response) then
    let errorText :=
      match text response with
      | Ok t => t
      | Throw _ => "Unknown error"
      end in
    Throw (Error ("BizDash API error " +:+ showZ (status response)
                  +:+ ": " +:+ errorText))
  else json response.

Definition checkEndpoint (encodedId : string) : string :=
  "/api/v1/crm/emails/check?gmail_message_id=" +:+ encodedId.

(** The URL that [isEmailLogged] requests. *)
Definition checkUrl (encodedId : string) : string :=
  apiBaseUrl cfg +:+ checkEndpoint encodedId.

(** The body of [isEmailLogged], over the function it calls to make the
    request. *)
Definition isEmailLoggedVia
  (request : string -> RequestInit -> result value)
  (gmailMessageId : string) : result value :=
  try
    (let* encodedId := encodeURIComponent gmailMessageId in
     let* res := request (checkEndpoint encodedId) noOptions in
     getProp res "exists")
    (fun _ => Ok (JBool false)).

(** [isEmailLogged] *)
Definition isEmailLogged (gmailMessageId : string) : result value :=
  isEmailLoggedVia apiRequest gmailMessageId.

Definition healthRequest : RequestInit :=
  {| method := Some "GET"; headers := authorization cfg; body := None |}.

(** [healthCheck] *)
Definition healthCheck : result bool :=
  try
    (let* response := fetch (apiBaseUrl cfg +:+ "/health") healthRequest in
     Ok (ok response))
    (fun _ => Ok false).

End Client.

(** The earlier snapshot of the module keeps [isEmailLogged] word for word
    over an [apiRequest] that returns canned data without any request, and
    has a [healthCheck] that makes no request either. *)
Definition healthCheckPlaceholder : result bool :=
  try (Ok true) (fun _ => Ok false).

End Api.

(** ** lib/auth.ts *)

Module Auth.
Import Js Http.
Local Open Scope js_scope.

Record GoogleAuthToken := {
  accessToken : string;
  expiresAt : Z;
  scope : string
}.

Record BizDashAuth := {
  apiUrl : string;
  apiKey : option string;
  tenantId : string;
  isAuthenticated : bool;
  userEmail : option string
}.

(** [interface AuthState]; [null] is [None]. *)
Record AuthState := {
  google : option GoogleAuthToken;
  bizdash : option BizDashAuth;
  isFullyAuthenticated : bool
}.

(** [Partial<AuthState>]: for each key, absent ([None]), or present with
    [null] ([Some None]) or with a value. *)
Record AuthUpdates := {
  setGoogle : option (option GoogleAuthToken);
  setBizdash : option (option BizDashAuth);
  setIsFullyAuthenticated : option bool
}.

Definition initialAuthState : AuthState :=
  {| google := None; bizdash := None; isFullyAuthenticated := false |}.

(** A key of the spread [...updates] over the current value. *)
Definition spread {A} (update : option A) (cur : A) : A :=
  match update with
  | Some v => v
  | None => cur
  end.

(** [updates.key ?? current.key]: the right operand is used when the left
    one is [undefined] (key absent) or [null]. *)
Definition nullish {A} (update : option (option A)) (cur : option A)
  : option A :=
  match update with
  | Some (Some v) => Some v
  | Some None | None => cur
  end.

(** [x !== null] *)
Definition notNull {A} (x : option A) : bool :=
  match x with Some _ => true | None => false end.

(** [updateAuthState], as a function of [currentAuthState]. *)
Definition updateAuthState (updates : AuthUpdates) (cur : AuthState)
  : AuthState :=
  {| google := spread (setGoogle updates) (google cur);
     bizdash := spread (setBizdash updates) (bizdash cur);
     isFullyAuthenticated :=
       notNull (nullish (setGoogle updates) (google cur))
       && notNull (nullish (setBizdash updates) (bizdash cur)) |}.

(** The conjunction of the two tracks of a state being present. *)
Definition bothPresent (st : AuthState) : bool :=
  notNull (google st) && notNull (bizdash st).

(** The argument of [updateAuthState] in [revokeGoogleToken]. *)
Definition revokeGoogle : AuthUpdates :=
  {| setGoogle := Some None; setBizdash := None;
     setIsFullyAuthenticated := None |}.

(** What [chrome.storage.local] holds under the two storage keys. *)
Inductive Stored : Type :=
| StoredGoogle (t : GoogleAuthToken)
| StoredBizDash (b : BizDashAuth).

Definition GOOGLE_TOKEN : string := "gmail_to_crm_google_token".
Definition BIZDASH_AUTH : string := "gmail_to_crm_bizdash_auth".

(** The state the module works on: [currentAuthState], the local storage
    area, and the configuration of the CRM client. *)
Record World := {
  currentAuthState : AuthState;
  localStorage : gmap string Stored;
  apiConfig : Api.Config
}.

Definition withAuthState (f : AuthState -> AuthState) (w : World) : World :=
  {| currentAuthState := f (currentAuthState w);
     localStorage := localStorage w;
     apiConfig := apiConfig w |}.

Section Flows.
Variable fetch : Fetch.
(** [chrome.runtime.lastError] after a write to, or a removal of, a
    storage key: [Some message] when the operation failed. *)
Variable lastError : string -> option string.

(** [saveToStorage] *)
Definition saveToStorage (key : string) (v : Stored) (w : World)
  : result unit * World :=
  match lastError key with
  | Some msg => (Throw (Error msg), w)
  | None =>
      (Ok tt,
       {| currentAuthState := currentAuthState w;
          localStorage := <[key := v]> (localStorage w);
          apiConfig := apiConfig w |})
  end.

(** [removeFromStorage] *)
Definition removeFromStorage (key : string) (w : World)
  : result unit * World :=
  match lastError key with
  | Some msg => (Throw (Error msg), w)
  | None =>
      (Ok tt,
       {| currentAuthState := currentAuthState w;
          localStorage := delete key (localStorage w);
          apiConfig := apiConfig w |})
  end.

Definition probeRequest : RequestInit :=
  {| method := Some "GET";
     headers := {[ "Content-Type" := "application/json" ]};
     body := None |}.

(** The [try] block of [authenticateBizDash]: the request to the health
    endpoint and the check of [verifyResponse.ok]. *)
Definition probe (url : string) : result unit :=
  let* verifyResponse := fetch (url +:+ "/health") probeRequest in
  if negb (ok verifyResponse) then
    Throw (Error ("BizDash not reachable: "
                  +:+ showZ (status verifyResponse)))
  else Ok tt.

Definition cannotConnect (url : string) : exn :=
  Error ("Cannot connect to BizDash at " +:+ url
         +:+ ". Is the server running?").

(** [authenticateBizDash] *)
Definition authenticateBizDash (url : string) (key : option string)
  (w : World) : result BizDashAuth * World :=
  match probe url with
  | Throw _ => (Throw (cannotConnect url), w)
  | Ok _ =>
      let bizdashAuth :=
        {| apiUrl := url;
           apiKey := Api.orNull key;
           tenantId := "default";
           isAuthenticated := true;
           userEmail := Some "connected" |} in
      let w1 :=
        {| currentAuthState := currentAuthState w;
           localStorage := localStorage w;
           apiConfig :=
             Api.configureApi url (Some (default "" (Api.orNull key))) |} in
      match saveToStorage BIZDASH_AUTH (StoredBizDash bizdashAuth) w1 with
      | (Throw e, w2) => (Throw e, w2)
      | (Ok _, w2) =>
          let updates :=
            {| setGoogle := None;
               setBizdash := Some (Some bizdashAuth);
               setIsFullyAuthenticated := None |} in
          (Ok bizdashAuth, withAuthState (updateAuthState updates) w2)
      end
  end.

(** [signOutBizDash] *)
Definition signOutBizDash (w : World) : result unit * World :=
  match removeFromStorage BIZDASH_AUTH w with
  | (Throw e, w1) => (Throw e, w1)
  | (Ok _, w1) =>
      let updates :=
        {| setGoogle := None;
           setBizdash := Some None;
           setIsFullyAuthenticated := None |} in
      (Ok tt, withAuthState (updateAuthState updates) w1)
  end.

End Flows.

End Auth.

(** ** background/service-worker.ts: the settings store *)

Module ServiceWorker.
Import Js.

(** A settings object and the [chrome.storage.sync] area are maps from
    property names to values. *)
Definition DEFAULT_SETTINGS_VALUE : gmap string value :=
  {[ "bizdashApiUrl" := JStr "http://localhost:8000";
     "captureEmailBody" := JBool false;
     "autoMatchContacts" := JBool true;
     "showNotifications" := JBool true ]}.

(** [getSettings]: [result.settings || DEFAULT_SETTINGS_VALUE]; a stored
    settings object is truthy whatever its fields. *)
Definition getSettings (sync : gmap string (gmap string value))
  : gmap string value :=
  default DEFAULT_SETTINGS_VALUE (sync !! "settings").

(** [{ ...current, ...updates }]: the keys of [updates] win. *)
Definition merge (current updates : gmap string value)
  : gmap string value :=
  updates ∪ current.

(** [updateSettings]: the merged object is what the promise resolves to;
    [written] tells whether [chrome.storage.sync.set] stored it (the
    callback does not look at [chrome.runtime.lastError]). *)
Definition updateSettings (updates : gmap string value) (written : bool)
  (sync : gmap string (gmap string value))
  : gmap string value * gmap string (gmap string value) :=
  let current := getSettings sync in
  let updated := merge current updates in
  (updated, if written then <["settings" := updated]> sync else sync).

End ServiceWorker.

(** ** Shapes of address strings

    The predicates below describe the inputs the properties of
    [parseEmailAddress] and [parseEmailAddresses] are stated for. *)

Module Shapes.
Import JsString Regex GmailApi.

Definition space : ascii := " "%char.

(** [loc@dom] *)
Definition addr (loc dom : jsstring) : jsstring := loc ++ atSign :: dom.

(** DQ name DQ, a space, and the address in angle brackets. *)
Definition quotedForm (n e : jsstring) : jsstring :=
  dquote :: n ++ dquote :: space :: lt :: e ++ [gt].

(** A display name: not empty, no white space around it, and no double
    quote in it. *)
Definition wfName (n : jsstring) : bool :=
  truthy n && bool_decide (trim n = n) && forallb (except dquote) n.

(** An address in angle brackets: something on both sides of the @, no
    > in it and no white space around it. *)
Definition wfAddr (loc dom : jsstring) : bool :=
  truthy loc && truthy dom
  && forallb (except gt) (addr loc dom)
  && bool_decide (trim (addr loc dom) = addr loc dom).

(** A bare address: something on both sides of the @, no white space
    and no angle bracket anywhere. *)
Definition wfBare (loc dom : jsstring) : bool :=
  truthy loc && truthy dom
  && forallb (fun a => except gt a && except lt a && negb (isWhiteSpace a))
       (addr loc dom).

Definition hasNo (a : ascii) (s : jsstring) : bool := forallb (except a) s.

Definition allWhiteSpace (w : jsstring) : bool := forallb isWhiteSpace w.

(** The position after [pre] lies outside double quotes: [pre] holds an
    even number of them. *)
Definition outsideQuotes (pre : jsstring) : bool :=
  Nat.even (count_occ ascii_dec pre dquote).

(** Every comma of [raw] lies inside double quotes. *)
Definition commasQuoted (raw : jsstring) : Prop :=
  forall pre post, raw = pre ++ comma :: post -> outsideQuotes pre = false.

(** The same as a check: [inside] tells whether the scan is inside
    quotes. *)
Fixpoint commasInside (inside : bool) (s : jsstring) : bool :=
  match s with
  | [] => true
  | a :: s' =>
      if eqc a dquote then commasInside (negb inside) s'
      else if eqc a comma then inside && commasInside inside s'
      else commasInside inside s'
  end.

(** [x] occurs in [s] as a contiguous piece. *)
Definition infix (x s : jsstring) : Prop :=
  exists u v, s = u ++ x ++ v.

(** [x] has reached the output, or is on its way in [cur]. *)
Definition kept (x : jsstring) (addrs : list jsstring) (cur : jsstring)
  : Prop :=
  (exists seg, In seg addrs /\ infix x seg) \/ infix x cur.

(** DQ Smith, John DQ <j@x.com> *)
Definition quotedSmith : jsstring :=
  dquote :: str "Smith, John" ++ dquote :: str " <j@x.com>".

(** The header of the specification's example: DQ Smith, John DQ
    <j@x.com>, b@y.com *)
Definition exampleHeader : jsstring :=
  dquote :: str "Smith, John" ++ dquote :: str " <j@x.com>, b@y.com".

End Shapes.

(** ** Sample inputs *)

Module Samples.
Import JsString GmailApi Js Http Auth ServiceWorker.

(** A page in which every query finds node 0, every attribute reads
    [val] and every text is Hello. *)
Definition samplePage (val : jsstring) : Document :=
  {| querySelector := fun _ => Js.Ok (Some 0);
     querySelectorIn := fun _ _ => Js.Ok (Some 0);
     closest := fun _ _ => Js.Ok (Some 0);
     getAttribute := fun _ _ => Js.Ok (Some val);
     textContent := fun _ => Js.Ok (Some (str "Hello"));
     title := str "Hello - me@company.com - Gmail" |}.

Definition sampleClock : Clock :=
  {| now := 1700000000000;
     randomText := str "0.25";
     parseDate := fun _ => None |}.

Definition sampleMail (id : jsstring) (val : jsstring) (n : option jsstring)
  : GmailEmail :=
  {| messageId := id; threadId := id; subject := str "Hello";
     from := {| email := val; name := n |};
     to := []; cc := []; bcc := []; date := 1700000000000;
     snippet := str "Hello"; labels := [] |}.

(** A transport that always fails, and a server that answers 503. *)
Definition offline : Fetch := fun _ _ => Throw (TypeError "Failed to fetch").

Definition unavailable : Fetch :=
  fun _ _ => Ok {| status := 503; text := Ok "Service Unavailable";
                   json := Throw (SyntaxError "Unexpected token S") |}.

Definition asIs : string -> result string := Ok.

Definition sampleToken : GoogleAuthToken :=
  {| accessToken := "ya29.a0Af";
     expiresAt := 1700003600000;
     scope := "https://www.googleapis.com/auth/gmail.readonly" |}.

Definition sampleBizDash : BizDashAuth :=
  {| apiUrl := "http://localhost:8000";
     apiKey := None;
     tenantId := "default";
     isAuthenticated := true;
     userEmail := Some "connected" |}.

Definition signedIn : AuthState :=
  {| google := Some sampleToken;
     bizdash := Some sampleBizDash;
     isFullyAuthenticated := true |}.

Definition freshWorld : World :=
  {| currentAuthState := initialAuthState;
     localStorage := ∅;
     apiConfig := Api.initialConfig |}.

(** The payload of the specification's example. *)
Definition hideNotifications : gmap string value :=
  {[ "showNotifications" := JBool false ]}.

Definition storedSettings : gmap string value :=
  {[ "bizdashApiUrl" := JStr "https://crm.example.com";
     "captureEmailBody" := JBool true;
     "autoMatchContacts" := JBool false;
     "showNotifications" := JBool true ]}.

Definition syncWithSettings : gmap string (gmap string value) :=
  {[ "settings" := storedSettings ]}.

End Samples.

(** ** lib/gmail-api.ts: the requests *)

Module GmailClient.
Import JsString GmailApi Js Http.
Local Open Scope js_scope.

Definition GMAIL_API_BASE : string := "https://gmail.googleapis.com/gmail/v1".

(** [isGmailConfigured]: [accessToken !== null], over the module variable
    [accessToken]. *)
Definition isGmailConfigured (accessToken : option string) : bool :=
  match accessToken with Some _ => true | None => false end.

(** [interface GmailApiMessage], as far as the functions read it:
    [payload.headers] is a list of name and value. *)
Record GmailApiMessage := {
  id : jsstring;
  apiThreadId : jsstring;
  labelIds : option (list jsstring);
  apiSnippet : jsstring;
  payloadHeaders : list (jsstring * jsstring)
}.

(** [interface GmailEmail] once more, for the records built from the API:
    [new Date(text)] may be an Invalid Date, which is [None] here. *)
Record GmailEmail := {
  messageId : jsstring;
  threadId : jsstring;
  subject : jsstring;
  from : EmailAddress;
  to : list EmailAddress;
  cc : list EmailAddress;
  bcc : list EmailAddress;
  date : option Z;
  snippet : jsstring;
  labels : list jsstring
}.

(** [new Map(headers.map((h) => [h.name.toLowerCase(), h.value]))]: the
    entries are set one after the other, a later one replacing an earlier
    one with the same key. *)
Definition headerMap (hs : list (jsstring * jsstring))
  : gmap jsstring jsstring :=
  fold_left (fun mp h => <[toLowerCase (fst h) := snd h]> mp) hs ∅.

Section Requests.
Variable fetch : Fetch.
Variable clock : Clock.
(** The module variable [accessToken]. *)
Variable accessToken : option string.
(** The body of a response read at the declared type: the sources cast
    without checking, and the reads of a body of another shape throw. *)
Variable asMessage : value -> result GmailApiMessage.
Variable asThread : value -> result (list GmailApiMessage).

(** [gmailRequest] *)
Definition gmailRequest (endpoint : string) : result value :=
  match Api.orNull accessToken with
  | None => Throw (Error "Gmail API not configured - missing access token")
  | Some token =>
      let url := GMAIL_API_BASE +:+ endpoint in
      let* response :=
        fetch url {| method := None;
                     headers := {[ "Authorization" := "Bearer " +:+ token ]};
                     body := None |} in
      if negb (ok response) then
        let errorText :=
          match text response with
          | Ok t => t
          | Throw _ => "Unknown error"
          end in
        Throw (Error ("Gmail API error " +:+ showZ (status response)
                      +:+ ": " +:+ errorText))
      else json response
  end.

(** [getCurrentUserEmail] *)
Definition getCurrentUserEmail : result value :=
  let* profile := gmailRequest "/users/me/profile" in
  getProp profile "emailAddress".

(** [new Date(headers.get('date') || Date.now())] *)
Definition dateOf (headers : gmap jsstring jsstring) : option Z :=
  match headers !! str "date" with
  | Some d => if truthy d then parseDate clock d else Some (now clock)
  | None => Some (now clock)
  end.

(** The record that [getMessage] builds from the message, and [getThread]
    from each message of the thread, by the same lines of code. *)
Definition emailOfMessage (message : GmailApiMessage) : GmailEmail :=
  let headers := headerMap (payloadHeaders message) in
  let from := parseEmailAddress (orElse (headers !! str "from") []) in
  let to := parseEmailAddresses (orElse (headers !! str "to") []) in
  let cc := parseEmailAddresses (orElse (headers !! str "cc") []) in
  let bcc := parseEmailAddresses (orElse (headers !! str "bcc") []) in
  {| messageId := id message;
     threadId := apiThreadId message;
     subject := orElse (headers !! str "subject") (str "(No Subject)");
     from := from;
     to := to;
     cc := cc;
     bcc := bcc;
     date := dateOf headers;
     snippet := apiSnippet message;
     labels := default [] (labelIds message) |}.

(** [getMessage] *)
Definition getMessage (messageId : string) : result GmailEmail :=
  let* body :=
    gmailRequest ("/users/me/messages/" +:+ messageId +:+ "?format=full") in
  let* message := asMessage body in
  Ok (emailOfMessage message).

(** [getThread], of the later snapshot *)
Definition getThread (threadId : string) : result (list GmailEmail) :=
  let* body :=
    gmailRequest ("/users/me/threads/" +:+ threadId +:+ "?format=full") in
  let* messages := asThread body in
  Ok (map emailOfMessage messages).

End Requests.

End GmailClient.

(** ** lib/api.ts: the calls of the CRM client *)

Module ApiCalls.
Import Js Http Api.
Local Open Scope js_scope.

(** The optional argument of [listCustomers]; the numbers are integers. *)
Record ListParams := {
  search : option string;
  page : option Z;
  pageSize : option Z
}.

(** ToBoolean of a number that may be missing *)
Definition nonZero (n : option Z) : option Z :=
  match n with
  | Some z => if (z =? 0)%Z then None else Some z
  | None => None
  end.

Section Calls.
Variable fetch : Fetch.
Variable encodeURIComponent : string -> result string.
(** [JSON.stringify] of a log request *)
Variable stringify : Content.EmailLogRequest -> string.
(** [URLSearchParams.prototype.toString] of the pairs set so far *)
Variable formEncode : list (string * string) -> string.
Variable cfg : Config.

(** [searchContactByEmail] *)
Definition searchContactByEmail (email : string) : result value :=
  let* encoded := encodeURIComponent email in
  apiRequest fetch cfg ("/api/v1/crm/contacts/by-email?email=" +:+ encoded)
    noOptions.

(** The pairs that [listCustomers] sets, in the order of its three
    tests. *)
Definition searchPairs (params : option ListParams)
  : list (string * string) :=
  match params with
  | None => []
  | Some p =>
      match orNull (search p) with
      | Some s => [("search", s)]
      | None => []
      end
      ++ match nonZero (page p) with
         | Some n => [("page", showZ n)]
         | None => []
         end
      ++ match nonZero (pageSize p) with
         | Some n => [("page_size", showZ n)]
         | None => []
         end
  end.

(** [listCustomers] *)
Definition listCustomers (params : option ListParams) : result value :=
  apiRequest fetch cfg ("/api/v1/crm?" +:+ formEncode (searchPairs params))
    noOptions.

(** [getCustomer] *)
Definition getCustomer (customerId : string) : result value :=
  apiRequest fetch cfg ("/api/v1/crm/" +:+ customerId) noOptions.

Definition logEmailOptions (emailData : Content.EmailLogRequest)
  : RequestInit :=
  {| method := Some "POST"; headers := ∅;
     body := Some (stringify emailData) |}.

(** [logEmail] *)
Definition logEmail (emailData : Content.EmailLogRequest) : result value :=
  apiRequest fetch cfg "/api/v1/crm/emails" (logEmailOptions emailData).

(** [getContactEmails] *)
Definition getContactEmails (contactId : string) : result value :=
  apiRequest fetch cfg ("/api/v1/crm/" +:+ contactId +:+ "/emails")
    noOptions.

End Calls.

End ApiCalls.

(** ** lib/auth.ts: the sign-in flows *)

Module AuthFlows.
Import Js Http Auth.
Local Open Scope js_scope.

(** What becomes of a returned promise: it settles, with a value or with
    an error, or it never does. *)
Inductive outcome (A : Type) : Type :=
| Settled (r : result A)
| Pending.
Arguments Settled {A} r.
Arguments Pending {A}.

(** The state the flows work on: the module state of [lib/auth.ts] and
    the variable [accessToken] of the Gmail client, which
    [configureGmailApi] sets. *)
Record Session := {
  world : World;
  gmailAccessToken : option string
}.

Definition withWorld (w : World) (s : Session) : Session :=
  {| world := w; gmailAccessToken := gmailAccessToken s |}.

(** [configureGmailApi] *)
Definition configureGmailApi (token : string) (s : Session) : Session :=
  {| world := world s; gmailAccessToken := Some token |}.

(** [chrome.identity]: whether the API is there, and for a call of
    [getAuthToken] with the given [interactive] flag the token handed to
    the callback and the message of [chrome.runtime.lastError], if
    set. *)
Record Identity := {
  available : bool;
  getAuthToken : bool -> option string;
  identityError : bool -> option string
}.

(** [getAuthState]: a copy of the current state. *)
Definition getAuthState (w : World) : AuthState := currentAuthState w.

(** [isGoogleTokenValid], at time [now]. *)
Definition isGoogleTokenValid (now : Z) (w : World) : bool :=
  match google (currentAuthState w) with
  | None => false
  | Some token => (now <? expiresAt token)%Z
  end.

(** [isBizDashAuthenticated] *)
Definition isBizDashAuthenticated (w : World) : bool :=
  match bizdash (currentAuthState w) with
  | Some b => isAuthenticated b
  | None => false
  end.

(** The read of a stored value at the type [GoogleAuthToken | null]: the
    sources cast without checking; a value of the other shape is outside
    what the types describe. *)
Definition castGoogle (v : option Stored)
  : option (option GoogleAuthToken) :=
  match v with
  | None => Some None
  | Some (StoredGoogle t) => Some (Some t)
  | Some (StoredBizDash _) => None
  end.

Definition castBizDash (v : option Stored) : option (option BizDashAuth) :=
  match v with
  | None => Some None
  | Some (StoredBizDash b) => Some (Some b)
  | Some (StoredGoogle _) => None
  end.

Definition GMAIL_SCOPES : string :=
  "https://www.googleapis.com/auth/gmail.readonly https://www.googleapis.com/auth/userinfo.email".

Definition googleUpdate (t : option GoogleAuthToken) : AuthUpdates :=
  {| setGoogle := Some t; setBizdash := None;
     setIsFullyAuthenticated := None |}.

Section Flows.
Variable fetch : Fetch.
(** [chrome.runtime.lastError] after a write to, or a removal of, a
    storage key, and after a read of one. *)
Variable lastError : string -> option string.
Variable readError : string -> option string.
Variable identity : Identity.
(** [Date.now()] *)
Variable now : Z.

(** [getFromStorage]: [result[key] ?? null] *)
Definition getFromStorage (key : string) (w : World)
  : result (option Stored) :=
  match readError key with
  | Some msg => Throw (Error msg)
  | None => Ok (localStorage w !! key)
  end.

(** The callback that [authenticateGoogle] and [refreshGoogleToken] pass
    to [getAuthToken], from the token object on: the Gmail client is
    configured, the token is stored, the state is updated and the promise
    is resolved.  A failed write rejects the callback's own promise, and
    the promise that was returned to the caller is never settled. *)
Definition installToken {A} (authToken : GoogleAuthToken)
  (resolved : A) (s : Session) : outcome A * Session :=
  let s1 := configureGmailApi (accessToken authToken) s in
  match saveToStorage lastError GOOGLE_TOKEN (StoredGoogle authToken)
          (world s1) with
  | (Throw _, w2) => (Pending, withWorld w2 s1)
  | (Ok _, w2) =>
      (Settled (Ok resolved),
       withWorld
         (withAuthState (updateAuthState (googleUpdate (Some authToken))) w2)
         s1)
  end.

(** [authenticateGoogle] *)
Definition authenticateGoogle (s : Session)
  : outcome GoogleAuthToken * Session :=
  if negb (available identity) then
    (Settled
       (Throw (Error
          "Chrome Identity API not available - must run as extension")), s)
  else
    match identityError identity true with
    | Some msg => (Settled (Throw (Error msg)), s)
    | None =>
        match Api.orNull (getAuthToken identity true) with
        | None =>
            (Settled (Throw (Error "No token received from Google OAuth")),
             s)
        | Some token =>
            let authToken :=
              {| accessToken := token;
                 expiresAt := now + 3600 * 1000;
                 scope := GMAIL_SCOPES |} in
            installToken authToken authToken s
        end
    end.

(** [currentAuthState.google?.scope || ''] *)
Definition currentScope (w : World) : string :=
  match google (currentAuthState w) with
  | Some t => scope t
  | None => ""
  end.

(** [refreshGoogleToken] *)
Definition refreshGoogleToken (s : Session)
  : outcome (option GoogleAuthToken) * Session :=
  if negb (available identity) then (Settled (Ok None), s)
  else
    match identityError identity false,
          Api.orNull (getAuthToken identity false) with
    | None, Some token =>
        let refreshedToken :=
          {| accessToken := token;
             expiresAt := now + 3600 * 1000;
             scope := currentScope (world s) |} in
        installToken refreshedToken (Some refreshedToken) s
    | _, _ => (Settled (Ok None), s)
    end.

(** The request with which [revokeGoogleToken] tells Google's servers;
    its failure is caught and its response is not looked at. *)
Definition revokeOnServer (token : string) : result unit :=
  try
    (let* _ :=
       fetch ("https://accounts.google.com/o/oauth2/revoke?token=" +:+ token)
         noOptions in
     Ok tt)
    (fun _ => Ok tt).

(** [revokeGoogleToken]; [removeCachedAuthToken] calls back without a
    result. *)
Definition revokeGoogleToken (s : Session) : result unit * Session :=
  let token :=
    option_map accessToken (google (currentAuthState (world s))) in
  let notified :=
    match Api.orNull token with
    | Some t => if available identity then revokeOnServer t else Ok tt
    | None => Ok tt
    end in
  match notified with
  | Throw e => (Throw e, s)
  | Ok _ =>
      match removeFromStorage lastError GOOGLE_TOKEN (world s) with
      | (Throw e, w1) => (Throw e, withWorld w1 s)
      | (Ok _, w1) =>
          (Ok tt,
           withWorld (withAuthState (updateAuthState revokeGoogle) w1) s)
      end
  end.

(** [initializeAuth]: both reads are awaited together, and an error of
    either is caught and leaves everything as it was. *)
Definition initializeAuth (s : Session) : option (AuthState * Session) :=
  let w := world s in
  match getFromStorage GOOGLE_TOKEN w, getFromStorage BIZDASH_AUTH w with
  | Ok g, Ok b =>
      match castGoogle g, castBizDash b with
      | Some googleToken, Some bizdashAuth =>
          let s1 :=
            match googleToken with
            | Some t => configureGmailApi (accessToken t) s
            | None => s
            end in
          let cfg :=
            match bizdashAuth with
            | Some a => Api.configureApi (apiUrl a) (Some "stored-token")
            | None => apiConfig w
            end in
          let updates :=
            {| setGoogle := Some googleToken;
               setBizdash := Some bizdashAuth;
               setIsFullyAuthenticated := None |} in
          let w1 :=
            {| currentAuthState := updateAuthState updates
                                     (currentAuthState w);
               localStorage := localStorage w;
               apiConfig := cfg |} in
          Some (getAuthState w1, withWorld w1 s1)
      | _, _ => None
      end
  | _, _ => Some (getAuthState w, s)
  end.

(** [authenticateFull] *)
Definition authenticateFull (bizdashApiUrl : string) (s : Session)
  : outcome AuthState * Session :=
  match authenticateGoogle s with
  | (Pending, s1) => (Pending, s1)
  | (Settled (Throw e), s1) => (Settled (Throw e), s1)
  | (Settled (Ok _), s1) =>
      match authenticateBizDash fetch lastError bizdashApiUrl None
              (world s1) with
      | (Throw e, w2) => (Settled (Throw e), withWorld w2 s1)
      | (Ok _, w2) => (Settled (Ok (getAuthState w2)), withWorld w2 s1)
      end
  end.

End Flows.

(** The extension's process starting anew: the module variables are back
    at their initial values, the storage area is as it was left. *)
Definition restart (s : Session) : Session :=
  {| world :=
       {| currentAuthState := initialAuthState;
          localStorage := localStorage (world s);
          apiConfig := Api.initialConfig |};
     gmailAccessToken := None |}.

(** Each of the two keys holds a value of its own shape, if any. *)
Definition typedStorage (m : gmap string Stored) : bool :=
  match m !! GOOGLE_TOKEN with
  | Some (StoredBizDash _) => false
  | _ => true
  end
  && match m !! BIZDASH_AUTH with
     | Some (StoredGoogle _) => false
     | _ => true
     end.

End AuthFlows.

(** ** background/service-worker.ts: the message handler *)

Module Coordinator.
Import Js Http Auth AuthFlows ServiceWorker.
Local Open Scope js_scope.

(** [type ExtensionMessage]; [OtherMessage] is a message whose [type] is
    none of the eight, which the [default] branch is for. *)
Inductive ExtensionMessage : Type :=
| LOG_EMAIL (payload : Content.EmailLogRequest)
| SEARCH_CONTACT (email : string)
| GET_AUTH_STATE
| AUTHENTICATE_GOOGLE
| AUTHENTICATE_BIZDASH (apiUrl : string)
| GET_SETTINGS
| UPDATE_SETTINGS (payload : gmap string value)
| EMAIL_SELECTED (payload : GmailApi.GmailEmail)
| OtherMessage (type : string).

(** What [handleMessage] resolves to, by the branch it comes from. *)
Inductive Data : Type :=
| FromApi (v : value)
| TheAuthState (st : AuthState)
| TheToken (t : GoogleAuthToken)
| TheConnection (b : BizDashAuth)
| TheSettings (settings : gmap string value)
| IsStored.

(** [type ExtensionResponse] *)
Inductive ExtensionResponse : Type :=
| Success (data : Data)
| Failure (error : string).

(** What the service worker works on: the state of the auth module and
    of the two clients, the [sync] storage area, and the [currentEmail]
    entry of the [session] storage area. *)
Record Extension := {
  session : Session;
  syncStorage : gmap string (gmap string value);
  currentEmail : option GmailApi.GmailEmail
}.

Definition withSession (s : Session) (ext : Extension) : Extension :=
  {| session := s;
     syncStorage := syncStorage ext;
     currentEmail := currentEmail ext |}.

(** [error.message] *)
Definition messageOf (e : exn) : string :=
  match e with
  | Error m | TypeError m | SyntaxError m | URIError m => m
  end.

(** [error.message || 'Unknown error'] *)
Definition errorText (e : exn) : string :=
  if Api.nonEmpty (messageOf e) then messageOf e else "Unknown error".

Definition settle {A} (wrap : A -> Data) (r : result A) : outcome Data :=
  Settled (let* a := r in Ok (wrap a)).

Section Worker.
Variable fetch : Fetch.
Variable encodeURIComponent : string -> result string.
Variable stringify : Content.EmailLogRequest -> string.
Variable lastError : string -> option string.
Variable identity : Identity.
Variable now : Z.
(** Whether [chrome.storage.sync.set] stores what it is given, and the
    error with which [chrome.storage.session.set] rejects, if it does. *)
Variable written : bool.
Variable sessionError : option exn.

(** [handleMessage] *)
Definition handleMessage (message : ExtensionMessage) (ext : Extension)
  : outcome Data * Extension :=
  let cfg := apiConfig (world (session ext)) in
  match message with
  | LOG_EMAIL payload =>
      (settle FromApi (ApiCalls.logEmail fetch stringify cfg payload), ext)
  | SEARCH_CONTACT email =>
      (settle FromApi
         (ApiCalls.searchContactByEmail fetch encodeURIComponent cfg email),
       ext)
  | GET_AUTH_STATE =>
      (Settled (Ok (TheAuthState (getAuthState (world (session ext))))),
       ext)
  | AUTHENTICATE_GOOGLE =>
      match authenticateGoogle lastError identity now (session ext) with
      | (Pending, s) => (Pending, withSession s ext)
      | (Settled r, s) => (settle TheToken r, withSession s ext)
      end
  | AUTHENTICATE_BIZDASH apiUrl =>
      match authenticateBizDash fetch lastError apiUrl None
              (world (session ext)) with
      | (r, w) =>
          (settle TheConnection r, withSession (withWorld w (session ext)) ext)
      end
  | GET_SETTINGS =>
      (Settled (Ok (TheSettings (getSettings (syncStorage ext)))), ext)
  | UPDATE_SETTINGS payload =>
      match updateSettings payload written (syncStorage ext) with
      | (updated, sync) =>
          (Settled (Ok (TheSettings updated)),
           {| session := session ext;
              syncStorage := sync;
              currentEmail := currentEmail ext |})
      end
  | EMAIL_SELECTED payload =>
      match sessionError with
      | Some e => (Settled (Throw e), ext)
      | None =>
          (Settled (Ok IsStored),
           {| session := session ext;
              syncStorage := syncStorage ext;
              currentEmail := Some payload |})
      end
  | OtherMessage type =>
      (Settled (Throw (Error ("Unknown message type: " +:+ type))), ext)
  end.

(** The listener of [chrome.runtime.onMessage]: what is passed to
    [sendResponse], if it is called at all. *)
Definition onMessage (message : ExtensionMessage) (ext : Extension)
  : option ExtensionResponse * Extension :=
  match handleMessage message ext with
  | (Settled (Ok data), ext') => (Some (Success data), ext')
  | (Settled (Throw error), ext') => (Some (Failure (errorText error)), ext')
  | (Pending, ext') => (None, ext')
  end.

End Worker.

End Coordinator.

(** ** content/gmail-integration.tsx: the menu action *)

Module MenuAction.
Import JsString GmailApi Content Coordinator.

Inductive ToastType : Type := success | error | info.

(** A call of [showToast]. *)
Definition Toast : Type := string * ToastType.

(** What a run of [handleLogToCrm] does: the toasts it shows, the
    requests it sends to the background, and the error with which its
    promise rejects, if any. *)
Record Run := {
  toasts : list Toast;
  sent : list EmailLogRequest;
  rejected : option Js.exn
}.

Definition stop (message : string) : Run :=
  {| toasts := [(message, error)]; sent := []; rejected := None |}.

(** [`Logged "${subject}" to CRM!`] *)
Definition loggedText (subject : jsstring) : string :=
  "Logged " +:+ String dquote (string_of_list_ascii subject)
  +:+ String dquote " to CRM!".

Section Handler.
Variable doc : Document.
Variable clock : Clock.
(** [document.body.contains(row)] *)
Variable contains : Element -> Js.result bool.
(** [chrome.runtime.sendMessage] for a [LOG_EMAIL] message: the response,
    [undefined] when nothing answers, or a rejection. *)
Variable sendMessage : EmailLogRequest -> Js.result (option ExtensionResponse).

(** The toast after the [try] block of [handleLogToCrm] has sent the
    request. *)
Definition verdict (subject : jsstring)
  (response : Js.result (option ExtensionResponse)) : Toast :=
  match response with
  | Js.Ok (Some (Success _)) => (loggedText subject, success)
  | Js.Ok (Some (Failure e)) =>
      (if Api.nonEmpty e then e else "Failed to log email", error)
  | Js.Ok None | Js.Throw _ =>
      ("Error logging email. Is BizDash running?", error)
  end.

(** [handleLogToCrm], for the row that was right-clicked. *)
Definition handleLogToCrm (clickedEmailRow : option Element) : Run :=
  match clickedEmailRow with
  | None => stop "Could not identify the email. Please try again."
  | Some row =>
      match contains row with
      | Js.Throw e => {| toasts := []; sent := []; rejected := Some e |}
      | Js.Ok false => stop "Email row changed. Please right-click again."
      | Js.Ok true =>
          match extractEmailFromRow doc clock row with
          | None => stop "Could not extract email data. Please try again."
          | Some mail =>
              if negb (truthy (email (from mail))) then
                stop "Could not find sender email. Please try again."
              else
                let emailRequest := logRequestOf mail in
                {| toasts :=
                     [("Logging to CRM...", info);
                      verdict (subject mail) (sendMessage emailRequest)];
                   sent := [emailRequest];
                   rejected := None |}
          end
      end
  end.

End Handler.

End MenuAction.

(** ** Further shapes

    Predicates and auxiliary states for the properties of the remaining
    functions. *)

Module MoreShapes.
Import JsString Regex GmailApi Shapes.

(** The state of the splitting loop with [A] already in [addresses]. *)
Definition withEarlier (A : list jsstring) (st : SplitState) : SplitState :=
  {| addresses := A ++ addresses st;
     current := current st;
     inQuotes := inQuotes st |}.

(** A segment that is trimmed and not empty. *)
Definition solid (seg : jsstring) : Prop := seg <> [] /\ trim seg = seg.

(** The value of the last header of [hs] whose name is [k] once in lower
    case. *)
Definition lastValue (k : jsstring) (hs : list (jsstring * jsstring))
  : option jsstring :=
  last (map snd (filter (fun h => toLowerCase (fst h) = k) hs)).

(** No header of [hs] has the name [k], in whatever case. *)
Definition noHeader (k : string) (hs : list (jsstring * jsstring)) : Prop :=
  Forall (fun h => toLowerCase (fst h) <> str k) hs.

(** A message whose headers repeat a name in two cases. *)
Definition sampleMessage : GmailClient.GmailApiMessage :=
  {| GmailClient.id := str "18c2a4f"; GmailClient.apiThreadId := str "18c2a00";
     GmailClient.labelIds := None; GmailClient.apiSnippet := str "Hello";
     GmailClient.payloadHeaders :=
       [ (str "SUBJECT", str "First");
         (str "To", str "a@x.com, Bob <b@y.com>");
         (str "subject", str "Re: Project Update");
         (str "X-Mailer", str "m") ] |}.

(** The error with which the CRM client gives up on a reply: the
    transport's own error, or the status and the body of a response
    outside 200-299. *)
Definition failureOf (reply : Js.result Http.Response) : option Js.exn :=
  match reply with
  | Js.Throw e => Some e
  | Js.Ok r =>
      if Http.ok r then None
      else Some (Js.Error
                   ("BizDash API error " +:+ Js.showZ (Http.status r)
                    +:+ ": "
                    +:+ match Http.text r with
                        | Js.Ok t => t
                        | Js.Throw _ => "Unknown error"
                        end))
  end.

(** The page of one conversation, with the message whose
    data-message-id is [messageAttr] open: every query finds node 0, and
    the attributes that tell the conversation are the same whichever of
    its messages is open. *)
Definition messagePage (messageAttr : jsstring) : Document :=
  {| querySelector := fun _ => Js.Ok (Some 0);
     querySelectorIn := fun _ _ => Js.Ok (Some 0);
     closest := fun _ _ => Js.Ok (Some 0);
     getAttribute := fun _ attr =>
       Js.Ok (if String.eqb attr "data-message-id" then Some messageAttr
              else if String.eqb attr "data-legacy-thread-id"
                   then Some (str "18c2a00f3b")
              else if String.eqb attr "data-thread-perm-id"
                   then Some (str "thread-f:1000")
              else if String.eqb attr "email" then Some (str "ann@x.com")
              else if String.eqb attr "name" then Some (str "Ann")
              else None);
     textContent := fun _ => Js.Ok (Some (str "Quarterly report"));
     title := str "Quarterly report - me@company.com - Gmail" |}.

(** The deduplication key of a record: the [gmailMessageId] of the
    request built from it. *)
Definition dedupKey (mail : GmailEmail) : jsstring :=
  Content.gmailMessageId (Content.logRequestOf mail).

(** The format of the source's comment: a name without quotes, a space,
    and the address in angle brackets. *)
Definition plainForm (n e : jsstring) : jsstring :=
  n ++ space :: lt :: e ++ [gt].

End MoreShapes.

(** ** Further sample inputs *)

Module MoreSamples.
Import Js Http Auth AuthFlows Samples.

(** A server that answers every request with 200 and an empty object. *)
Definition reachable : Fetch :=
  fun _ _ => Ok {| status := 200; text := Ok "{}"; json := Ok (JObj ∅) |}.

Definition noError : string -> option string := fun _ => None.

Definition quotaExceeded : string -> option string :=
  fun _ => Some "QUOTA_BYTES quota exceeded".

(** An identity service that hands out the sample token. *)
Definition sampleIdentity : Identity :=
  {| available := true;
     getAuthToken := fun _ => Some "ya29.a0Af";
     identityError := fun _ => None |}.

Definition freshSession : Session :=
  {| world := freshWorld; gmailAccessToken := None |}.

(** A session whose storage holds the sample token, expired or not, and
    the sample connection. *)
Definition storedSession : Session :=
  {| world :=
       {| currentAuthState := initialAuthState;
          localStorage :=
            {[ GOOGLE_TOKEN := StoredGoogle sampleToken;
               BIZDASH_AUTH := StoredBizDash sampleBizDash ]};
          apiConfig := Api.initialConfig |};
     gmailAccessToken := None |}.

(** A session that is signed in on both tracks. *)
Definition signedInSession : Session :=
  {| world :=
       {| currentAuthState := signedIn;
          localStorage :=
            {[ GOOGLE_TOKEN := StoredGoogle sampleToken;
               BIZDASH_AUTH := StoredBizDash sampleBizDash ]};
          apiConfig := Api.initialConfig |};
     gmailAccessToken := Some "ya29.a0Af" |}.

(** The extension as it starts, and a log request for the sample
    mail. *)
Definition freshExtension : Coordinator.Extension :=
  {| Coordinator.session := freshSession;
     Coordinator.syncStorage := ∅;
     Coordinator.currentEmail := None |}.

Definition sampleRequest : Content.EmailLogRequest :=
  Content.logRequestOf
    (sampleMail (JsString.str "FMfcgzQ") (JsString.str "a@x.com") None).

(** A background that answers every request with a success. *)
Definition accepting
  : Content.EmailLogRequest -> result (option Coordinator.ExtensionResponse) :=
  fun _ => Ok (Some (Coordinator.Success Coordinator.IsStored)).

End MoreSamples.

(** * Properties *)

(** ** Strings *)

Module JsStringFacts.
Import JsString.

Lemma trimStart_all_ws (w : jsstring) :
  forallb isWhiteSpace w = true -> trimStart w = [].
Proof.
  induction w as [|a w IH]; simpl; [done|].
  intros [Ha Hw]%andb_prop. rewrite Ha. auto.
Qed.

Lemma trimStart_app_stop (u : jsstring) (a : ascii) (t : jsstring) :
  isWhiteSpace a = false ->
  trimStart (u ++ a :: t) = trimStart u ++ a :: t.
Proof.
  intros Ha. induction u as [|b u IH]; simpl.
  - by rewrite Ha.
  - destruct (isWhiteSpace b); [exact IH | done].
Qed.

Lemma trimEnd_app_stop (x : jsstring) (b : ascii) (v : jsstring) :
  isWhiteSpace b = false ->
  trimEnd (x ++ b :: v) = x ++ b :: trimEnd v.
Proof.
  intros Hb. unfold trimEnd.
  rewrite rev_app_distr. simpl. rewrite <- app_assoc. simpl.
  rewrite (trimStart_app_stop _ _ _ Hb).
  rewrite rev_app_distr. simpl. rewrite rev_involutive.
  by rewrite <- app_assoc.
Qed.

Lemma trim_all_ws (w : jsstring) :
  forallb isWhiteSpace w = true -> trim w = [].
Proof.
  intros Hw. unfold trim. by rewrite (trimStart_all_ws _ Hw).
Qed.

(** Trimming never reaches into a stretch that begins and ends with
    characters that are not white space. *)
Lemma trim_keeps_core (u : jsstring) (a : ascii) (mid : jsstring)
  (b : ascii) (v : jsstring) :
  isWhiteSpace a = false -> isWhiteSpace b = false ->
  trim (u ++ a :: mid ++ b :: v)
  = trimStart u ++ a :: mid ++ b :: trimEnd v.
Proof.
  intros Ha Hb. unfold trim.
  rewrite (trimStart_app_stop _ _ _ Ha).
  replace (trimStart u ++ a :: mid ++ b :: v)
    with ((trimStart u ++ a :: mid) ++ b :: v)
    by (by rewrite <- app_assoc).
  rewrite (trimEnd_app_stop _ _ _ Hb). by rewrite <- app_assoc.
Qed.

Lemma trimStart_no_ws (s : jsstring) :
  forallb (fun a => negb (isWhiteSpace a)) s = true -> trimStart s = s.
Proof.
  destruct s as [|a s]; simpl; [done|].
  intros [Ha _]%andb_prop. by destruct (isWhiteSpace a).
Qed.

Lemma trim_no_ws (s : jsstring) :
  forallb (fun a => negb (isWhiteSpace a)) s = true -> trim s = s.
Proof.
  intros Hs. unfold trim, trimEnd. rewrite (trimStart_no_ws _ Hs).
  rewrite trimStart_no_ws; [apply rev_involutive|].
  rewrite forallb_forall in *. intros x Hx. apply Hs.
  by apply in_rev.
Qed.

End JsStringFacts.

(** ** The matcher *)

Module RegexFacts.
Import JsString Regex.

(** *** Iteration of a class *)

Lemma starC_stop p k s c :
  match s with [] => True | a :: _ => p a = false end ->
  starC p k s c = k s c.
Proof. destruct s as [|a s]; simpl; [done|]. by intros ->. Qed.

(** Greedy: if the iteration succeeds from [s], it succeeds with the same
    result from any extension of [s] to the left by characters of the
    class. *)
Lemma starC_app_Some p k pre s c r :
  forallb p pre = true ->
  starC p k s c = Some r ->
  starC p k (pre ++ s) c = Some r.
Proof.
  intros Hpre Hs. induction pre as [|a pre IH]; simpl in *; [done|].
  apply andb_prop in Hpre as [-> Hpre]. by rewrite (IH Hpre).
Qed.

Lemma starC_Some_inv p k s c r :
  starC p k s c = Some r ->
  exists s1 s2, s = s1 ++ s2 /\ forallb p s1 = true /\ k s2 c = Some r.
Proof.
  induction s as [|a s IH]; simpl.
  - intros H. by exists [], [].
  - destruct (p a) eqn:Hpa.
    + destruct (starC p k s c) as [r'|] eqn:Hrec.
      * intros [= ->]. destruct (IH eq_refl) as (s1 & s2 & -> & H1 & H2).
        exists (a :: s1), s2. simpl. by rewrite Hpa, H1.
      * intros H. by exists [], (a :: s).
    + intros H. by exists [], (a :: s).
Qed.

Lemma starC_None_inv p k s c :
  starC p k s c = None ->
  forall s1 s2, s = s1 ++ s2 -> forallb p s1 = true -> k s2 c = None.
Proof.
  induction s as [|a s IH]; simpl.
  - intros H s1 s2 Heq _. symmetry in Heq.
    apply app_eq_nil in Heq as [-> ->]. done.
  - intros H s1 s2 Heq H1. destruct s1 as [|b s1]; simpl in *.
    + subst s2. destruct (p a); [|done].
      by destruct (starC p k s c).
    + injection Heq as <- ->. apply andb_prop in H1 as [Hpa H1].
      rewrite Hpa in H. destruct (starC p k (s1 ++ s2) c) eqn:Hrec; [done|].
      by eapply IH.
Qed.

(** When all the ways to succeed agree on the result, and there is one,
    that is the result. *)
Lemma starC_unique p k s c r :
  (exists s1 s2, s = s1 ++ s2 /\ forallb p s1 = true /\ k s2 c = Some r) ->
  (forall s1 s2 r', s = s1 ++ s2 -> forallb p s1 = true ->
                    k s2 c = Some r' -> r' = r) ->
  starC p k s c = Some r.
Proof.
  intros (s1 & s2 & Heq & H1 & H2) Huniq.
  destruct (starC p k s c) as [r'|] eqn:Hres.
  - destruct (starC_Some_inv _ _ _ _ _ Hres) as (t1 & t2 & Ht & Ht1 & Ht2).
    f_equal. by eapply Huniq.
  - by rewrite (starC_None_inv _ _ _ _ Hres s1 s2 Heq H1) in H2.
Qed.

(** *** The matcher calls its continuation on suffixes only *)

Lemma m_Some_suffix inp r :
  forall k s c res,
    m inp r k s c = Some res ->
    exists s' c', s' `suffix_of` s /\ k s' c' = Some res.
Proof.
  induction r as [p|r1 IH1 r2 IH2|r IH|p|p|i r IH| |]; intros k s c res; simpl.
  - destruct s as [|a s]; [done|]. destruct (p a); [|done].
    intros H. exists s, c. split; [|done]. by apply suffix_cons_r.
  - intros H. apply IH1 in H as (s1 & c1 & Hs1 & H).
    apply IH2 in H as (s2 & c2 & Hs2 & H).
    exists s2, c2. split; [|done]. by etrans.
  - destruct (m inp r _ s c) as [res'|] eqn:Hin.
    + intros [= ->]. apply IH in Hin as (s1 & c1 & Hs1 & H).
      destruct (length s1 =? length s); [done|]. by exists s1, c1.
    + intros H. by exists s, c.
  - intros H. apply starC_Some_inv in H as (s1 & s2 & -> & _ & H).
    exists s2, c. split; [|done]. by apply suffix_app_r.
  - destruct s as [|a s]; [done|]. destruct (p a); [|done].
    intros H. apply starC_Some_inv in H as (s1 & s2 & -> & _ & H).
    exists s2, c. split; [|done].
    apply suffix_cons_r. by apply suffix_app_r.
  - intros H. apply IH in H as (s1 & c1 & Hs1 & H). eauto.
  - destruct (length s =? length inp); [|done]. intros H. by exists s, c.
  - destruct s; [|done]. intros H. by exists [], c.
Qed.

(** *** Optional single characters *)

Lemma m_Opt_Chr_take inp p k a s c res :
  p a = true -> k s c = Some res ->
  m inp (Opt (Chr p)) k (a :: s) c = Some res.
Proof.
  intros Hp Hk. simpl. rewrite Hp.
  replace (length s =? S (length s)) with false
    by (symmetry; apply Nat.eqb_neq; lia).
  by rewrite Hk.
Qed.

Lemma m_Opt_Chr_skip inp p k s c :
  match s with [] => True | a :: _ => p a = false end ->
  m inp (Opt (Chr p)) k s c = k s c.
Proof. destruct s as [|a s]; simpl; [done|]. by intros ->. Qed.

(** An optional sub-pattern that cannot succeed is skipped. *)
Lemma m_Opt_skip inp r k s c :
  (forall k', m inp r k' s c = None) ->
  m inp (Opt r) k s c = k s c.
Proof. intros H. simpl. by rewrite H. Qed.

(** *** Anchored patterns match at the start of the input only *)

Lemma m_Bol_late inp r k s c :
  length s <> length inp -> m inp (Seq Bol r) k s c = None.
Proof.
  intros Hlen. simpl.
  destruct (length s =? length inp) eqn:E; [|done].
  apply Nat.eqb_eq in E. lia.
Qed.

Lemma execFrom_Bol_late inp r pre s :
  length s < length inp -> execFrom inp (Seq Bol r) pre s = None.
Proof.
  revert pre. induction s as [|a s IH]; intros pre Hlen;
    cbn [execFrom]; (rewrite m_Bol_late; [|lia]); [done|].
  apply IH. simpl in Hlen. lia.
Qed.

Lemma exec_Bol inp r :
  exec (Seq Bol r) inp
  = match m inp r accept inp noCaptures with
    | Some (c, rest) =>
        Some {| before := []; groups := c; after := rest |}
    | None => None
    end.
Proof.
  unfold exec.
  assert (Hm : m inp (Seq Bol r) accept inp noCaptures
               = m inp r accept inp noCaptures)
    by (simpl; by rewrite Nat.eqb_refl).
  destruct inp as [|a inp]; cbn [execFrom]; rewrite Hm.
  - by destruct (m [] r accept [] noCaptures) as [[c rest]|].
  - destruct (m (a :: inp) r accept (a :: inp) noCaptures) as [[c rest]|];
      [done|].
    apply execFrom_Bol_late. simpl. lia.
Qed.

End RegexFacts.

(** ** Address parsing *)

Module GmailApiFacts.
Import JsString Regex GmailApi Shapes JsStringFacts RegexFacts.

#[local] Arguments only : simpl never.
#[local] Arguments except : simpl never.
#[local] Arguments isWhiteSpace : simpl never.

Lemma only_true a b : only a b = true <-> b = a.
Proof.
  unfold only, eqc. rewrite Ascii.eqb_eq. split; congruence.
Qed.

Lemma except_self a : except a a = false.
Proof. unfold except, eqc. by rewrite Ascii.eqb_refl. Qed.

Lemma except_true a b : except a b = true <-> b <> a.
Proof.
  unfold except, eqc. rewrite negb_true_iff, Ascii.eqb_neq.
  split; congruence.
Qed.

Lemma forallb_except_notin a s :
  forallb (except a) s = true -> ~ In a s.
Proof.
  rewrite forallb_forall. intros H Hin.
  specialize (H _ Hin). by rewrite except_self in H.
Qed.

(** The last character of a list lies in any non-empty tail of it. *)
Lemma last_in_tail {A} (l1 : list A) (z : A) (l2 l3 : list A) :
  l1 ++ [z] = l2 ++ l3 -> l3 <> [] -> In z l3.
Proof.
  intros Heq Hne.
  destruct (exists_last Hne) as (l3' & y & ->).
  rewrite app_assoc in Heq. apply app_inj_tail in Heq as [_ ->].
  apply in_or_app. right. by left.
Qed.

(** *** The end of the pattern: an optional > and the end of input *)

Lemma closing_inv inp s c r :
  m inp closing accept s c = Some r ->
  r = (c, []) /\ (s = [] \/ s = [gt]).
Proof.
  unfold closing. destruct s as [|x [|y s]]; simpl.
  - intros [= <-]. auto.
  - destruct (only gt x) eqn:Hx; simpl; [|done].
    apply only_true in Hx as ->. intros [= <-]. auto.
  - destruct (only gt x); simpl; [destruct (_ =? _)|]; done.
Qed.

(** *** Capture 2: the address *)

Lemma emailGroup_match inp loc dom tail c :
  loc <> [] -> dom <> [] ->
  forallb (except gt) (addr loc dom) = true ->
  tail = [] \/ tail = [gt] ->
  m inp emailAndClosing accept (addr loc dom ++ tail) c
  = Some (setCapture 2 (addr loc dom) c, []).
Proof.
  intros Hloc Hdom Hngt Htail.
  destruct loc as [|a0 loc']; [done|]. destruct dom as [|d0 dom']; [done|].
  set (e := addr (a0 :: loc') (d0 :: dom')) in *. set (s := e ++ tail).
  assert (Hlen : take (length s - length tail) s = e).
  { unfold s. rewrite length_app.
    replace (length e + length tail - length tail) with (length e) by lia.
    apply take_app_length. }
  assert (Hs : s = a0 :: loc' ++ atSign :: d0 :: dom' ++ tail).
  { unfold s, e, addr. simpl. by rewrite <- app_assoc. }
  assert (He : e = a0 :: loc' ++ atSign :: d0 :: dom') by done.
  assert (Hnotin : ~ In gt e) by (by apply forallb_except_notin).
  rewrite He in Hngt. cbn [forallb] in Hngt.
  rewrite forallb_app in Hngt. cbn [forallb] in Hngt.
  rewrite !andb_true_iff in Hngt.
  destruct Hngt as (Ha0 & Hloc' & _ & Hd0 & Hdom').
  clearbody s e.
  unfold emailAndClosing, emailGroup.
  change (m inp (Seq ?a ?b) ?k) with (m inp a (m inp b k)).
  cbn [m].
  set (K := fun (s' : jsstring) (c' : captures) =>
              m inp closing accept s'
                (setCapture 2 (take (length s - length s') s) c')).
  rewrite Hs at 1. rewrite Ha0.
  apply starC_unique.
  - exists loc', (atSign :: d0 :: dom' ++ tail).
    split; [done|]. split; [done|].
    replace (only atSign atSign) with true by (symmetry; by apply only_true).
    rewrite Hd0. apply starC_app_Some; [done|].
    destruct Htail as [-> | ->]; cbn [starC]; rewrite ?except_self;
      unfold K; rewrite Hlen; done.
  - intros s1 s2 r' Heq H1 Hk.
    destruct s2 as [|x s3]; [done|].
    destruct (only atSign x) eqn:Hx; [|done].
    destruct s3 as [|b s4]; [done|].
    destruct (except gt b) eqn:Hb; [|done].
    apply starC_Some_inv in Hk as (s5 & s6 & -> & H5 & Hk).
    unfold K in Hk. apply closing_inv in Hk as [-> Hs6].
    assert (s6 = tail) as ->; [|by rewrite Hlen].
    destruct Htail as [-> | ->], Hs6 as [-> | ->]; try done.
    + exfalso. apply Hnotin. rewrite He, app_nil_r in *.
      right. rewrite Heq. apply in_or_app. right.
      right. right. apply in_or_app. right. by left.
    + exfalso.
      assert (Hin : In gt (b :: s5)).
      { apply (last_in_tail (loc' ++ atSign :: d0 :: dom') gt
                 (s1 ++ [x]) (b :: s5)); [|done].
        rewrite <- !app_assoc. simpl. rewrite app_nil_r in Heq.
        by rewrite <- Heq. }
      destruct Hin as [-> | Hin].
      * by rewrite except_self in Hb.
      * by apply (forallb_except_notin gt s5).
Qed.

(** *** The optional name group *)

Lemma only_except a b : only a b = negb (except a b).
Proof. unfold only, except. by rewrite negb_involutive. Qed.

Lemma afterName_bracketed inp loc dom c :
  loc <> [] -> dom <> [] ->
  forallb (except gt) (addr loc dom) = true ->
  m inp afterName accept (lt :: addr loc dom ++ [gt]) c
  = Some (setCapture 2 (addr loc dom) c, []).
Proof.
  intros Hloc Hdom Hngt. unfold afterName.
  change (m inp (Seq ?a ?b) ?k) with (m inp a (m inp b k)).
  apply m_Opt_Chr_take; [by apply only_true|].
  apply emailGroup_match; auto.
Qed.

(** The name group ends with a white-space character, so it cannot match
    inside a string that has none. *)
Lemma nameGroup_needs_ws inp k s c :
  forallb (fun a => negb (isWhiteSpace a)) s = true ->
  m inp nameGroup k s c = None.
Proof.
  intros Hs. destruct (m inp nameGroup k s c) as [res|] eqn:Hm; [|done].
  exfalso. unfold nameGroup in Hm.
  change (m inp (Seq ?a ?b) ?k) with (m inp a (m inp b k)) in Hm.
  apply (m_Some_suffix _ (Opt _)) in Hm as (s1 & c1 & [k1 ->] & Hm).
  change (m inp (Seq ?a ?b) ?k) with (m inp a (m inp b k)) in Hm.
  apply (m_Some_suffix _ (Group _ _)) in Hm as (s2 & c2 & [k2 ->] & Hm).
  change (m inp (Seq ?a ?b) ?k) with (m inp a (m inp b k)) in Hm.
  apply (m_Some_suffix _ (Opt _)) in Hm as (s3 & c3 & [k3 ->] & Hm).
  destruct s3 as [|a s3]; [done|]. cbn [m] in Hm.
  destruct (isWhiteSpace a) eqn:Ha; [|done].
  rewrite !forallb_app in Hs. cbn [forallb] in Hs.
  rewrite !andb_true_iff in Hs. destruct Hs as (_ & _ & _ & Hs & _).
  by rewrite Ha in Hs.
Qed.

(** On DQ n DQ, a space and [rest], where [n] has no double quote, the
    name group takes the first way through: it captures [n] and hands
    [rest] to the continuation. *)
Lemma nameGroup_quoted inp n rest k c res :
  forallb (except dquote) n = true ->
  k rest (setCapture 1 n c) = Some res ->
  m inp nameGroup k (dquote :: n ++ dquote :: space :: rest) c = Some res.
Proof.
  intros Hndq Hk. unfold nameGroup.
  change (m inp (Seq ?a ?b) ?k) with (m inp a (m inp b k)).
  apply m_Opt_Chr_take; [by apply only_true|].
  cbn [m]. apply starC_app_Some; [done|].
  rewrite starC_stop by apply except_self.
  rewrite length_app.
  replace (length n + length (dquote :: space :: rest)
           - length (dquote :: space :: rest)) with (length n) by lia.
  rewrite take_app_length.
  rewrite (proj2 (only_true dquote dquote) eq_refl).
  replace (length (space :: rest) =? length (dquote :: space :: rest))
    with false by (symmetry; apply Nat.eqb_neq; simpl; lia).
  replace (isWhiteSpace space) with true by done.
  by rewrite Hk.
Qed.

Lemma quoted_match n loc dom :
  hasNo dquote n = true -> truthy loc = true -> truthy dom = true ->
  hasNo gt (addr loc dom) = true ->
  m (quotedForm n (addr loc dom)) (Seq (Opt nameGroup) afterName) accept
    (quotedForm n (addr loc dom)) noCaptures
  = Some (setCapture 2 (addr loc dom) (setCapture 1 n noCaptures), []).
Proof.
  intros Hndq Hloc Hdom Hngt.
  assert (Hloc' : loc <> []) by (by destruct loc).
  assert (Hdom' : dom <> []) by (by destruct dom).
  set (e := addr loc dom) in *.
  set (raw := quotedForm n e).
  change (m raw (Seq ?a ?b) ?k) with (m raw a (m raw b k)).
  cbn [m].
  match goal with
  | |- match ?x with _ => _ end = _ =>
      assert (Hgoal : x = Some (setCapture 2 e (setCapture 1 n noCaptures), []));
      [|by rewrite Hgoal]
  end.
  unfold raw at 3, quotedForm.
  apply nameGroup_quoted; [done|].
  replace (length (lt :: e ++ [gt]) =? length raw) with false.
  { by apply afterName_bracketed. }
  symmetry. apply Nat.eqb_neq. unfold raw, quotedForm.
  simpl. rewrite !length_app. simpl. rewrite !length_app. simpl. lia.
Qed.

Lemma bare_match loc dom :
  wfBare loc dom = true ->
  let raw := addr loc dom in
  m raw (Seq (Opt nameGroup) afterName) accept raw noCaptures
  = Some (setCapture 2 raw noCaptures, []).
Proof.
  unfold wfBare. rewrite !andb_true_iff.
  intros [[Hloc Hdom] Hall].
  set (raw := addr loc dom).
  assert (Hloc' : loc <> []) by (by destruct loc).
  assert (Hdom' : dom <> []) by (by destruct dom).
  assert (Hngt : forallb (except gt) raw = true).
  { rewrite forallb_forall in *. intros x Hx.
    specialize (Hall x Hx). rewrite !andb_true_iff in Hall. tauto. }
  assert (Hnws : forallb (fun a => negb (isWhiteSpace a)) raw = true).
  { rewrite forallb_forall in *. intros x Hx.
    specialize (Hall x Hx). rewrite !andb_true_iff in Hall. tauto. }
  assert (Hhead : match raw with [] => True | a :: _ => only lt a = false end).
  { unfold raw, addr. destruct loc as [|a0 loc]; [done|]. simpl in *.
    rewrite !andb_true_iff in Hall. rewrite only_except.
    destruct Hall as [[[_ ->] _] _]. done. }
  change (m raw (Seq ?a ?b) ?k) with (m raw a (m raw b k)).
  rewrite m_Opt_skip by (intros k'; by apply nameGroup_needs_ws).
  unfold afterName.
  change (m raw (Seq ?a ?b) ?k) with (m raw a (m raw b k)).
  rewrite m_Opt_Chr_skip by done.
  rewrite <- (app_nil_r raw) at 2.
  apply emailGroup_match; auto.
Qed.

(** *** [parseEmailAddress] *)

Lemma exec_addressPattern raw :
  exec addressPattern raw
  = match m raw (Seq (Opt nameGroup) afterName) accept raw noCaptures with
    | Some (c, rest) =>
        Some {| before := []; groups := c; after := rest |}
    | None => None
    end.
Proof. unfold addressPattern. by rewrite exec_Bol. Qed.

(** A match of the address pattern needs an @ in the input. *)
Lemma address_match_has_at raw res :
  m raw (Seq (Opt nameGroup) afterName) accept raw noCaptures = Some res ->
  In atSign raw.
Proof.
  intros Hm.
  change (m raw (Seq ?a ?b) ?k) with (m raw a (m raw b k)) in Hm.
  apply (m_Some_suffix _ (Opt _)) in Hm as (s1 & c1 & [k1 ->] & Hm).
  unfold afterName, emailAndClosing, emailGroup in Hm.
  change (m ?i (Seq ?a ?b) ?k) with (m i a (m i b k)) in Hm.
  apply (m_Some_suffix _ (Opt _)) in Hm as (s2 & c2 & [k2 ->] & Hm).
  cbn [m] in Hm.
  destruct s2 as [|a0 s2]; [done|]. destruct (except gt a0); [|done].
  apply starC_Some_inv in Hm as (s3 & s4 & -> & _ & Hm).
  destruct s4 as [|x s4]; [done|].
  destruct (only atSign x) eqn:Hx; [|done]. apply only_true in Hx as ->.
  apply in_or_app. right. apply in_or_app. right. right.
  apply in_or_app. right. by left.
Qed.

Lemma no_at_no_match raw :
  hasNo atSign raw = true -> exec addressPattern raw = None.
Proof.
  intros Hno. rewrite exec_addressPattern.
  destruct (m raw _ accept raw noCaptures) as [[c rest]|] eqn:Hm; [|done].
  apply address_match_has_at in Hm.
  by apply forallb_except_notin in Hno.
Qed.

Lemma parseEmailAddress_no_match raw :
  exec addressPattern raw = None ->
  parseEmailAddress raw = {| email := toLowerCase (trim raw); name := None |}.
Proof. intros H. unfold parseEmailAddress. by rewrite H. Qed.

(** What becomes of any quoted form: the name and the address are
    trimmed, and a name that is empty once trimmed is dropped. *)
Lemma parseEmailAddress_quoted_any n loc dom :
  hasNo dquote n = true -> truthy loc = true -> truthy dom = true ->
  hasNo gt (addr loc dom) = true ->
  parseEmailAddress (quotedForm n (addr loc dom))
  = {| email := toLowerCase (trim (addr loc dom));
       name := orUndefined (trim n) |}.
Proof.
  intros Hndq Hloc Hdom Hngt. unfold parseEmailAddress.
  by rewrite exec_addressPattern, (quoted_match _ _ _ Hndq Hloc Hdom Hngt).
Qed.

Lemma parseEmailAddress_quoted n loc dom :
  wfName n = true -> wfAddr loc dom = true ->
  parseEmailAddress (quotedForm n (addr loc dom))
  = {| email := toLowerCase (addr loc dom); name := Some n |}.
Proof.
  unfold wfName, wfAddr. rewrite !andb_true_iff.
  intros [[Hn Htn%bool_decide_eq_true] Hndq].
  intros [[[Hloc Hdom] Hngt] Hta%bool_decide_eq_true].
  rewrite parseEmailAddress_quoted_any by done.
  rewrite Htn, Hta. unfold orUndefined. by rewrite Hn.
Qed.

Lemma parseEmailAddress_bare loc dom :
  wfBare loc dom = true ->
  parseEmailAddress (addr loc dom)
  = {| email := toLowerCase (addr loc dom); name := None |}.
Proof.
  intros Hb. unfold parseEmailAddress.
  rewrite exec_addressPattern, (bare_match _ _ Hb).
  cbn [groups]. unfold matchedName, matchedEmail, setCapture, noCaptures.
  cbn [Nat.eqb from_option id]. rewrite trim_no_ws; [done|].
  unfold wfBare in Hb. rewrite !andb_true_iff in Hb.
  destruct Hb as [_ Hall]. rewrite forallb_forall in *.
  intros x Hx. specialize (Hall x Hx).
  rewrite !andb_true_iff in Hall. tauto.
Qed.

(** C2: for a well-formed string of the shape DQ Name DQ, space,
    <email>, [parseEmailAddress] returns the name Name and the email
    lower-cased; for a bare address it returns the lower-cased address
    and no name. *)
Theorem parseEmailAddress_well_formed :
  (forall n loc dom,
      wfName n = true -> wfAddr loc dom = true ->
      parseEmailAddress (quotedForm n (addr loc dom))
      = {| email := toLowerCase (addr loc dom); name := Some n |})
  /\ (forall loc dom,
         wfBare loc dom = true ->
         parseEmailAddress (addr loc dom)
         = {| email := toLowerCase (addr loc dom); name := None |}).
Proof.
  split.
  - apply parseEmailAddress_quoted.
  - apply parseEmailAddress_bare.
Qed.

Lemma parseEmailAddress_well_formed_witness :
  parseEmailAddress
    (quotedForm (str "John Smith") (addr (str "John") (str "Example.COM")))
  = {| email := str "john@example.com"; name := Some (str "John Smith") |}
  /\ parseEmailAddress (addr (str "Me") (str "company.com"))
     = {| email := str "me@company.com"; name := None |}.
Proof.
  split.
  - exact (proj1 parseEmailAddress_well_formed
             (str "John Smith") (str "John") (str "Example.COM")
             eq_refl eq_refl).
  - exact (proj2 parseEmailAddress_well_formed
             (str "Me") (str "company.com") eq_refl).
Defined.

(** *** The splitting loop of [parseEmailAddresses] *)

Lemma splitLoop_app st a b :
  splitLoop st (a ++ b) = splitLoop (splitLoop st a) b.
Proof. unfold splitLoop. apply fold_left_app. Qed.

Lemma splitLoop_cons st a s :
  splitLoop st (a :: s) = splitLoop (splitStep st a) s.
Proof. done. Qed.

Lemma eqc_true a b : eqc a b = true <-> a = b.
Proof. unfold eqc. apply Ascii.eqb_eq. Qed.

Lemma eqc_false a b : eqc a b = false <-> a <> b.
Proof. unfold eqc. apply Ascii.eqb_neq. Qed.

(** A character that is neither a double quote nor a comma is appended
    to [current]. *)
Lemma splitStep_plain st a :
  a <> dquote -> a <> comma ->
  splitStep st a
  = {| addresses := addresses st; current := current st ++ [a];
       inQuotes := inQuotes st |}.
Proof.
  intros Hq Hc. unfold splitStep.
  apply eqc_false in Hq, Hc. by rewrite Hq, Hc.
Qed.

(** Inside quotes every character but the double quote is appended, the
    comma included. *)
Lemma splitLoop_inside st q :
  inQuotes st = true -> hasNo dquote q = true ->
  splitLoop st q
  = {| addresses := addresses st; current := current st ++ q;
       inQuotes := true |}.
Proof.
  revert st. induction q as [|a q IH]; intros st Hin Hq.
  - simpl. rewrite app_nil_r. by destruct st; simpl in *; subst.
  - unfold hasNo in Hq. cbn [forallb] in Hq.
    apply andb_prop in Hq as [Ha Hq]. apply except_true in Ha.
    rewrite splitLoop_cons.
    assert (Hstep : splitStep st a
                    = {| addresses := addresses st;
                         current := current st ++ [a];
                         inQuotes := true |}).
    { unfold splitStep. apply eqc_false in Ha. rewrite Ha, Hin.
      by rewrite andb_false_r. }
    rewrite Hstep, IH; [|done|done]. simpl. by rewrite <- app_assoc.
Qed.

(** A quoted stretch met outside quotes goes to [current] in one piece. *)
Lemma splitLoop_quoted st q :
  inQuotes st = false -> hasNo dquote q = true ->
  splitLoop st (dquote :: q ++ [dquote])
  = {| addresses := addresses st;
       current := current st ++ dquote :: q ++ [dquote];
       inQuotes := false |}.
Proof.
  intros Hout Hq. rewrite splitLoop_cons.
  assert (Hopen : splitStep st dquote
                  = {| addresses := addresses st;
                       current := current st ++ [dquote];
                       inQuotes := true |}).
  { unfold splitStep. rewrite Hout. done. }
  rewrite Hopen, splitLoop_app, (splitLoop_inside _ q); [|done|done].
  simpl. unfold splitStep. simpl. by rewrite <- !app_assoc.
Qed.

(** The loop's [inQuotes] is the parity of the double quotes seen. *)
Lemma inQuotes_splitStep st a :
  inQuotes (splitStep st a)
  = if eqc a dquote then negb (inQuotes st) else inQuotes st.
Proof. unfold splitStep. by destruct (eqc a comma && _). Qed.

Lemma inQuotes_splitLoop st s :
  inQuotes (splitLoop st s) = xorb (inQuotes st) (negb (outsideQuotes s)).
Proof.
  revert st. induction s as [|a s IH]; intros st.
  - simpl. by destruct (inQuotes st).
  - rewrite splitLoop_cons, IH, inQuotes_splitStep.
    unfold outsideQuotes. simpl.
    destruct (ascii_dec a dquote) as [->|Hne].
    + replace (eqc dquote dquote) with true by (symmetry; by apply eqc_true).
      rewrite Nat.even_succ, <- Nat.negb_even.
      by destruct (inQuotes st), (Nat.even _).
    + apply eqc_false in Hne as ->. done.
Qed.

Lemma outside_after st pre :
  inQuotes st = false -> outsideQuotes pre = true ->
  inQuotes (splitLoop st pre) = false.
Proof. intros H1 H2. by rewrite inQuotes_splitLoop, H1, H2. Qed.

(** White space is neither a double quote nor a comma. *)
Lemma splitLoop_ws st w :
  allWhiteSpace w = true ->
  splitLoop st w
  = {| addresses := addresses st; current := current st ++ w;
       inQuotes := inQuotes st |}.
Proof.
  revert st. induction w as [|a w IH]; intros st Hw.
  - simpl. rewrite app_nil_r. by destruct st.
  - unfold allWhiteSpace in Hw. cbn [forallb] in Hw.
    apply andb_prop in Hw as [Ha Hw].
    rewrite splitLoop_cons, splitStep_plain, IH; [|done|..].
    + simpl. by rewrite <- app_assoc.
    + intros ->. done.
    + intros ->. done.
Qed.

Lemma pushCurrent_ws addrs w :
  allWhiteSpace w = true -> pushCurrent addrs w = addrs.
Proof. intros Hw. unfold pushCurrent. by rewrite trim_all_ws. Qed.

(** An unquoted comma closes the current segment. *)
Lemma splitStep_comma st :
  inQuotes st = false ->
  splitStep st comma
  = {| addresses := pushCurrent (addresses st) (current st);
       current := []; inQuotes := false |}.
Proof. intros Hout. unfold splitStep. by rewrite Hout. Qed.

(** A blank segment leaves the loop where it was. *)
Lemma splitLoop_blank_segment st w :
  current st = [] -> inQuotes st = false -> allWhiteSpace w = true ->
  splitLoop st (w ++ [comma]) = st.
Proof.
  intros Hcur Hout Hw.
  rewrite splitLoop_app, (splitLoop_ws _ _ Hw). simpl.
  rewrite splitStep_comma by done. simpl.
  rewrite Hcur, (pushCurrent_ws _ _ Hw).
  destruct st; simpl in *; by subst.
Qed.

Lemma parseEmailAddresses_map raw :
  parseEmailAddresses raw = map parseEmailAddress (splitAddresses raw).
Proof. by destruct raw. Qed.

(** *** Quoted stretches stay in one segment *)

Lemma infix_trim a mid b cur :
  isWhiteSpace a = false -> isWhiteSpace b = false ->
  infix (a :: mid ++ [b]) cur ->
  infix (a :: mid ++ [b]) (trim cur) /\ truthy (trim cur) = true.
Proof.
  intros Ha Hb (u & v & ->).
  replace (u ++ (a :: mid ++ [b]) ++ v) with (u ++ a :: mid ++ b :: v)
    by (simpl; by rewrite <- app_assoc).
  rewrite (trim_keeps_core _ _ _ _ _ Ha Hb). split.
  - exists (trimStart u), (trimEnd v). simpl. by rewrite <- app_assoc.
  - by destruct (trimStart u).
Qed.

Section Kept.
Variables (a : ascii) (mid : jsstring) (b : ascii).
Hypothesis Ha : isWhiteSpace a = false.
Hypothesis Hb : isWhiteSpace b = false.
Let x := a :: mid ++ [b].

Lemma pushCurrent_kept addrs cur :
  kept x addrs cur ->
  exists seg, In seg (pushCurrent addrs cur) /\ infix x seg.
Proof using Ha Hb.
  unfold pushCurrent. intros [(seg & Hin & Hx) | Hcur].
  - exists seg. split; [|done].
    destruct (truthy (trim cur)); [|done]. apply in_or_app. by left.
  - destruct (infix_trim _ _ _ _ Ha Hb Hcur) as [Hx ->].
    exists (trim cur). split; [|done]. apply in_or_app. right. by left.
Qed.

Lemma splitStep_kept st ch :
  kept x (addresses st) (current st) ->
  kept x (addresses (splitStep st ch)) (current (splitStep st ch)).
Proof using Ha Hb.
  intros Hk. unfold splitStep.
  destruct (eqc ch comma && _); simpl.
  - left. by apply pushCurrent_kept.
  - destruct Hk as [Hk | (u & v & ->)]; [by left|]. right.
    exists u, (v ++ [ch]). by rewrite <- !app_assoc.
Qed.

Lemma splitLoop_kept st s :
  kept x (addresses st) (current st) ->
  kept x (addresses (splitLoop st s)) (current (splitLoop st s)).
Proof using Ha Hb.
  revert st. induction s as [|ch s IH]; intros st Hk; [done|].
  rewrite splitLoop_cons. by apply IH, splitStep_kept.
Qed.

End Kept.

Lemma quoted_kept pre q post :
  outsideQuotes pre = true -> hasNo dquote q = true ->
  exists seg,
    In seg (splitAddresses (pre ++ dquote :: q ++ dquote :: post))
    /\ infix (dquote :: q ++ [dquote]) seg.
Proof.
  intros Hpre Hq. unfold splitAddresses.
  replace (pre ++ dquote :: q ++ dquote :: post)
    with (pre ++ (dquote :: q ++ [dquote]) ++ post)
    by (simpl; by rewrite <- app_assoc).
  rewrite !splitLoop_app.
  rewrite (splitLoop_quoted _ q); [|by apply outside_after|done].
  apply (pushCurrent_kept dquote q dquote); [done|done|].
  apply (splitLoop_kept dquote q dquote); [done|done|].
  right. simpl. eexists _, []. by rewrite app_nil_r.
Qed.

(** Without a comma outside quotes the loop never splits. *)
Lemma splitLoop_no_split st raw :
  (forall pre post,
      raw = pre ++ comma :: post -> inQuotes (splitLoop st pre) = true) ->
  addresses (splitLoop st raw) = addresses st
  /\ current (splitLoop st raw) = current st ++ raw.
Proof.
  revert st. induction raw as [|a raw IH]; intros st Hq.
  - simpl. by rewrite app_nil_r.
  - rewrite splitLoop_cons.
    assert (Hstep : addresses (splitStep st a) = addresses st
                    /\ current (splitStep st a) = current st ++ [a]).
    { unfold splitStep. destruct (eqc a comma) eqn:Hc; simpl; [|done].
      apply eqc_true in Hc as ->.
      specialize (Hq [] raw eq_refl). simpl in Hq. by rewrite Hq. }
    destruct Hstep as [Hadd Hcur].
    destruct (IH (splitStep st a)) as [IH1 IH2].
    { intros pre post ->. apply (Hq (a :: pre) post). done. }
    rewrite IH1, IH2, Hadd, Hcur. split; [done|]. by rewrite <- app_assoc.
Qed.

Lemma splitAddresses_commasQuoted raw :
  commasQuoted raw -> splitAddresses raw = pushCurrent [] raw.
Proof.
  intros Hq. unfold splitAddresses.
  destruct (splitLoop_no_split initialSplit raw) as [-> ->]; [|done].
  intros pre post Heq. rewrite inQuotes_splitLoop.
  by rewrite (Hq pre post Heq).
Qed.

(** C1: [parseEmailAddresses] splits only at commas outside double quotes.
    A header all of whose commas lie inside quotes is not split at all; a
    quoted stretch that opens outside quotes, commas included, reaches
    [parseEmailAddress] inside one single segment; and the example header
    yields exactly two addresses. *)
Theorem parseEmailAddresses_quote_aware :
  (forall raw,
      commasQuoted raw ->
      parseEmailAddresses raw = map parseEmailAddress (pushCurrent [] raw)
      /\ length (parseEmailAddresses raw) <= 1)
  /\ (forall pre q post,
         outsideQuotes pre = true -> hasNo dquote q = true ->
         exists seg,
           infix (dquote :: q ++ [dquote]) seg
           /\ In seg (splitAddresses (pre ++ dquote :: q ++ dquote :: post))
           /\ In (parseEmailAddress seg)
                (parseEmailAddresses (pre ++ dquote :: q ++ dquote :: post)))
  /\ parseEmailAddresses exampleHeader
     = [ {| email := str "j@x.com"; name := Some (str "Smith, John") |};
         {| email := str "b@y.com"; name := None |} ].
Proof.
  split; [|split; [|by vm_compute]].
  - intros raw Hq.
    rewrite parseEmailAddresses_map, (splitAddresses_commasQuoted _ Hq).
    split; [done|]. rewrite length_map. unfold pushCurrent.
    destruct (truthy (trim raw)); simpl; lia.
  - intros pre q post Hpre Hq.
    destruct (quoted_kept pre q post Hpre Hq) as (seg & Hin & Hx).
    exists seg. split; [done|]. split; [done|].
    rewrite parseEmailAddresses_map. by apply in_map.
Qed.

Lemma outsideQuotes_snoc k a :
  outsideQuotes (k ++ [a])
  = if eqc a dquote then negb (outsideQuotes k) else outsideQuotes k.
Proof.
  unfold outsideQuotes. rewrite count_occ_app. simpl.
  destruct (ascii_dec a dquote) as [->|Hne].
  - replace (eqc dquote dquote) with true by (symmetry; by apply eqc_true).
    rewrite Nat.add_1_r, Nat.even_succ. by rewrite <- Nat.negb_even.
  - apply eqc_false in Hne as ->. by rewrite Nat.add_0_r.
Qed.

Lemma commasInside_sound s :
  forall k,
    commasInside (negb (outsideQuotes k)) s = true ->
    forall pre post,
      s = pre ++ comma :: post -> outsideQuotes (k ++ pre) = false.
Proof.
  induction s as [|a s IH]; intros k Hs pre post Heq.
  - by destruct pre.
  - cbn [commasInside] in Hs.
    destruct pre as [|b pre]; simpl in Heq; injection Heq as -> ->.
    + rewrite app_nil_r.
      replace (eqc comma dquote) with false in Hs by done.
      replace (eqc comma comma) with true in Hs by done.
      apply andb_prop in Hs as [Hs _]. by apply negb_true_iff in Hs.
    + replace (k ++ b :: pre) with ((k ++ [b]) ++ pre)
        by (by rewrite <- app_assoc).
      apply (IH (k ++ [b])) with (post := post); [|done].
      rewrite outsideQuotes_snoc.
      destruct (eqc b dquote); [done|].
      destruct (eqc b comma); [|done].
      by apply andb_prop in Hs as [_ Hs].
Qed.

Lemma commasInside_commasQuoted raw :
  commasInside false raw = true -> commasQuoted raw.
Proof.
  intros H pre post Heq.
  by apply (commasInside_sound raw [] H pre post).
Qed.

Lemma parseEmailAddresses_quote_aware_witness :
  (parseEmailAddresses quotedSmith
   = map parseEmailAddress (pushCurrent [] quotedSmith)
   /\ length (parseEmailAddresses quotedSmith) <= 1)
  /\ exists seg,
      infix (dquote :: str "Smith, John" ++ [dquote]) seg
      /\ In seg (splitAddresses exampleHeader)
      /\ In (parseEmailAddress seg) (parseEmailAddresses exampleHeader).
Proof.
  split.
  - exact (proj1 parseEmailAddresses_quote_aware quotedSmith
             (commasInside_commasQuoted quotedSmith eq_refl)).
  - exact (proj1 (proj2 parseEmailAddresses_quote_aware)
             [] (str "Smith, John") (str " <j@x.com>, b@y.com")
             eq_refl eq_refl).
Defined.

(** C8: a string that the address pattern does not match, such as any
    string without an @, is returned whole, trimmed and lower-cased, as
    the email, with no name; and the empty header value gives the empty
    list. *)
Theorem parseEmailAddress_fallback :
  (forall raw,
      exec addressPattern raw = None ->
      parseEmailAddress raw
      = {| email := toLowerCase (trim raw); name := None |})
  /\ (forall raw,
         hasNo atSign raw = true ->
         exec addressPattern raw = None
         /\ parseEmailAddress raw
            = {| email := toLowerCase (trim raw); name := None |})
  /\ parseEmailAddresses [] = [].
Proof.
  split; [apply parseEmailAddress_no_match|]. split; [|done].
  intros raw Hno. split; [by apply no_at_no_match|].
  by apply parseEmailAddress_no_match, no_at_no_match.
Qed.

Lemma parseEmailAddress_fallback_witness :
  parseEmailAddress (str "  Undisclosed Recipients ")
  = {| email := str "undisclosed recipients"; name := None |}
  /\ (exec addressPattern (str "no-reply") = None
      /\ parseEmailAddress (str "no-reply")
         = {| email := str "no-reply"; name := None |}).
Proof.
  split.
  - exact (proj1 parseEmailAddress_fallback
             (str "  Undisclosed Recipients ") eq_refl).
  - exact (proj1 (proj2 parseEmailAddress_fallback)
             (str "no-reply") eq_refl).
Defined.

(** *** The formats named in the source's comments *)

Example parse_name_and_brackets :
  parseEmailAddress (str "John Smith <John@Example.com>")
  = {| email := str "john@example.com"; name := Some (str "John Smith") |}.
Proof. reflexivity. Qed.

Example parse_bare_address :
  parseEmailAddress (str "me@company.com")
  = {| email := str "me@company.com"; name := None |}.
Proof. reflexivity. Qed.

Example parse_brackets_only :
  parseEmailAddress (str "<Me@Company.com>")
  = {| email := str "me@company.com"; name := None |}.
Proof. reflexivity. Qed.

Example parse_two_recipients :
  parseEmailAddresses (str "a@x.com, Bob <b@y.com>")
  = [ {| email := str "a@x.com"; name := None |};
      {| email := str "b@y.com"; name := Some (str "Bob") |} ].
Proof. reflexivity. Qed.

Example parse_blank_header :
  parseEmailAddresses (str " , ,") = [].
Proof. reflexivity. Qed.

(** *** Blank segments *)

Lemma splitAddresses_leading w raw :
  allWhiteSpace w = true ->
  splitAddresses (w ++ comma :: raw) = splitAddresses raw.
Proof.
  intros Hw. unfold splitAddresses.
  replace (w ++ comma :: raw) with ((w ++ [comma]) ++ raw)
    by (by rewrite <- app_assoc).
  by rewrite splitLoop_app, splitLoop_blank_segment.
Qed.

Lemma splitAddresses_consecutive w pre post :
  allWhiteSpace w = true -> outsideQuotes pre = true ->
  splitAddresses (pre ++ comma :: w ++ comma :: post)
  = splitAddresses (pre ++ comma :: post).
Proof.
  intros Hw Hpre. unfold splitAddresses.
  replace (pre ++ comma :: w ++ comma :: post)
    with ((pre ++ [comma]) ++ (w ++ [comma]) ++ post)
    by (rewrite <- !app_assoc; simpl; by rewrite <- ?app_assoc).
  replace (pre ++ comma :: post) with ((pre ++ [comma]) ++ post)
    by (by rewrite <- app_assoc).
  assert (Hst : splitLoop initialSplit (pre ++ [comma])
                = {| addresses :=
                       pushCurrent
                         (addresses (splitLoop initialSplit pre))
                         (current (splitLoop initialSplit pre));
                     current := []; inQuotes := false |}).
  { rewrite splitLoop_app. simpl.
    apply splitStep_comma. by apply outside_after. }
  rewrite (splitLoop_app _ (pre ++ [comma]) ((w ++ [comma]) ++ post)).
  rewrite (splitLoop_app _ (w ++ [comma]) post).
  rewrite (splitLoop_app _ (pre ++ [comma]) post).
  by rewrite Hst, splitLoop_blank_segment.
Qed.

Lemma splitAddresses_trailing w raw :
  allWhiteSpace w = true -> outsideQuotes raw = true ->
  splitAddresses (raw ++ comma :: w) = splitAddresses raw.
Proof.
  intros Hw Hraw. unfold splitAddresses.
  replace (raw ++ comma :: w) with ((raw ++ [comma]) ++ w)
    by (by rewrite <- app_assoc).
  rewrite !splitLoop_app. simpl (splitLoop _ [comma]).
  rewrite splitStep_comma by (by apply outside_after).
  rewrite (splitLoop_ws _ _ Hw). simpl.
  by rewrite pushCurrent_ws.
Qed.

(** C10, as amended: a blank segment (nothing, or white space only)
    that is set off by commas outside double quotes is discarded.
    Adding one in front of the header, next to a separating comma, or
    at the end of a header whose quotes are closed does not change the
    result. *)
Theorem parseEmailAddresses_blank_segments :
  forall w, allWhiteSpace w = true ->
    (forall raw,
        parseEmailAddresses (w ++ comma :: raw) = parseEmailAddresses raw)
    /\ (forall pre post,
           outsideQuotes pre = true ->
           parseEmailAddresses (pre ++ comma :: w ++ comma :: post)
           = parseEmailAddresses (pre ++ comma :: post))
    /\ (forall raw,
           outsideQuotes raw = true ->
           parseEmailAddresses (raw ++ comma :: w)
           = parseEmailAddresses raw).
Proof.
  intros w Hw. repeat split; intros; rewrite !parseEmailAddresses_map.
  - by rewrite splitAddresses_leading.
  - by rewrite splitAddresses_consecutive.
  - by rewrite splitAddresses_trailing.
Qed.

Lemma parseEmailAddresses_blank_segments_witness :
  parseEmailAddresses (str "a@x.com,, b@y.com")
  = parseEmailAddresses (str "a@x.com, b@y.com")
  /\ parseEmailAddresses (str "a@x.com, b@y.com, ")
     = parseEmailAddresses (str "a@x.com, b@y.com").
Proof.
  split.
  - exact (proj1 (proj2 (parseEmailAddresses_blank_segments [] eq_refl))
             (str "a@x.com") (str " b@y.com") eq_refl).
  - exact (proj2 (proj2 (parseEmailAddresses_blank_segments
                           (str " ") eq_refl))
             (str "a@x.com, b@y.com") eq_refl).
Defined.

(** An extra comma next to a comma that lies inside double quotes does
    change the result: it becomes part of the display name. *)
Lemma parseEmailAddresses_extra_comma_in_quotes :
  parseEmailAddresses
    (dquote :: str "Smith,, John" ++ dquote :: str " <j@x.com>")
  <> parseEmailAddresses
       (dquote :: str "Smith, John" ++ dquote :: str " <j@x.com>").
Proof. vm_compute. discriminate. Qed.

End GmailApiFacts.

(** ** DOM-based extraction *)

Module ExtractionFacts.
Import JsString Regex GmailApi Content Samples.

(** Peel the outermost bind or case analysis off a hypothesis that says
    an extractor's body returned a record. *)
Ltac peel H :=
  match type of H with
  | Js.bind ?x _ = _ =>
      let v := fresh "v" in
      destruct x as [v|?]; cbn [Js.bind] in H; [|discriminate H]
  | match ?x with Some _ => _ | None => _ end = _ =>
      destruct x; [|try discriminate H]
  end.

Lemma extractEmailFromDOM_ids doc clock mail :
  extractEmailFromDOM doc clock = Some mail ->
  messageId mail = threadId mail.
Proof.
  unfold extractEmailFromDOM.
  destruct (extractEmailFromDOM_body doc clock) as [r|] eqn:Hbody; [|done].
  intros ->. unfold extractEmailFromDOM_body in Hbody.
  repeat peel Hbody.
  by injection Hbody as <-.
Qed.

Lemma extractEmailFromRow_ids doc clock row mail :
  extractEmailFromRow doc clock row = Some mail ->
  messageId mail = threadId mail.
Proof.
  unfold extractEmailFromRow.
  destruct (extractEmailFromRow_body doc clock row) as [r|] eqn:Hbody;
    [|done].
  intros ->. unfold extractEmailFromRow_body in Hbody.
  repeat peel Hbody.
  by injection Hbody as <-.
Qed.

(** In a row the identifier comes from the thread link. *)
Lemma extractEmailFromRow_thread_link doc clock row mail :
  extractEmailFromRow doc clock row = Some mail ->
  exists href, messageId mail = threadIdOf clock href.
Proof.
  unfold extractEmailFromRow.
  destruct (extractEmailFromRow_body doc clock row) as [r|] eqn:Hbody;
    [|done].
  intros ->. unfold extractEmailFromRow_body in Hbody.
  repeat peel Hbody.
  injection Hbody as <-. simpl. eauto.
Qed.

(** In the open message it is the container's data-message-id attribute,
    or the dom- fallback when the attribute is missing or empty. *)
Lemma extractEmailFromDOM_message_attr doc clock mail :
  extractEmailFromDOM doc clock = Some mail ->
  exists container idAttr,
    querySelector doc "[data-message-id]" = Js.Ok (Some container)
    /\ getAttribute doc container "data-message-id" = Js.Ok idAttr
    /\ messageId mail
       = orElse idAttr (str "dom-" ++ showTime (now clock)).
Proof.
  unfold extractEmailFromDOM.
  destruct (extractEmailFromDOM_body doc clock) as [r|] eqn:Hbody; [|done].
  intros ->. unfold extractEmailFromDOM_body in Hbody.
  destruct (querySelector doc "[data-message-id]") as [[container|]|] eqn:Hq;
    cbn [Js.bind] in Hbody; [|done|done].
  destruct (getAttribute doc container "data-message-id") as [idAttr|]
    eqn:Ha; cbn [Js.bind] in Hbody; [|done].
  exists container, idAttr. split; [done|]. split; [done|].
  repeat peel Hbody. by injection Hbody as <-.
Qed.

(** In a row the identifier is computed from the [href] attribute of the
    thread link that the row's first query finds. *)
Lemma extractEmailFromRow_link_href doc clock row mail :
  extractEmailFromRow doc clock row = Some mail ->
  exists threadLink hrefAttr,
    querySelectorIn doc row
      "a[href*=#inbox/], a[href*=#sent/], a[href*=#all/], a[href*=#search/]"
    = Js.Ok threadLink
    /\ attrOf doc threadLink "href" = Js.Ok hrefAttr
    /\ messageId mail = threadIdOf clock (orElse hrefAttr []).
Proof.
  unfold extractEmailFromRow.
  destruct (extractEmailFromRow_body doc clock row) as [r|] eqn:Hbody;
    [|done].
  intros ->. unfold extractEmailFromRow_body in Hbody.
  destruct (querySelectorIn doc row _) as [threadLink|] eqn:Hq;
    cbn [Js.bind] in Hbody; [|done].
  destruct (attrOf doc threadLink "href") as [hrefAttr|] eqn:Ha;
    cbn [Js.bind] in Hbody; [|done].
  exists threadLink, hrefAttr. split; [done|]. split; [done|].
  repeat peel Hbody. by injection Hbody as <-.
Qed.

End ExtractionFacts.

(** ** The CRM client *)

Module ApiFacts.
Import Js Http Api Samples.

Lemma ok_spec (r : Response) :
  ok r = true <-> (200 <= status r <= 299)%Z.
Proof. unfold ok. rewrite andb_true_iff, !Z.leb_le. tauto. Qed.

Section Client.
Variable fetch : Fetch.
Variable encodeURIComponent : string -> result string.
Variable cfg : Config.

Lemma apiRequest_transport_error endpoint options e :
  fetch (apiBaseUrl cfg +:+ endpoint) (requestInit cfg options) = Throw e ->
  apiRequest fetch cfg endpoint options = Throw e.
Proof. intros H. unfold apiRequest. by rewrite H. Qed.

Lemma apiRequest_not_ok endpoint options r :
  fetch (apiBaseUrl cfg +:+ endpoint) (requestInit cfg options) = Ok r ->
  ok r = false ->
  exists msg, apiRequest fetch cfg endpoint options = Throw (Error msg).
Proof.
  intros H Hok. unfold apiRequest. rewrite H. simpl. rewrite Hok. simpl.
  eauto.
Qed.

Lemma apiRequest_Ok_inv endpoint options v :
  apiRequest fetch cfg endpoint options = Ok v ->
  exists r,
    fetch (apiBaseUrl cfg +:+ endpoint) (requestInit cfg options) = Ok r
    /\ ok r = true /\ json r = Ok v.
Proof.
  unfold apiRequest.
  destruct (fetch _ _) as [r|e]; simpl; [|done].
  destruct (ok r) eqn:Hok; simpl; [|done]. intros H. by exists r.
Qed.

(** Whatever function makes the request, the body never throws, and it
    answers [false] when that function throws. *)
Lemma isEmailLoggedVia_never_throws request id e :
  isEmailLoggedVia encodeURIComponent request id <> Throw e.
Proof. unfold isEmailLoggedVia, try. by destruct (bind _ _). Qed.

Lemma isEmailLoggedVia_request_throws request id encodedId e :
  encodeURIComponent id = Ok encodedId ->
  request (checkEndpoint encodedId) noOptions = Throw e ->
  isEmailLoggedVia encodeURIComponent request id = Ok (JBool false).
Proof.
  intros Henc Hreq. unfold isEmailLoggedVia. rewrite Henc. simpl.
  by rewrite Hreq.
Qed.

Lemma isEmailLogged_never_throws id e :
  isEmailLogged fetch encodeURIComponent cfg id <> Throw e.
Proof. apply isEmailLoggedVia_never_throws. Qed.

Lemma isEmailLogged_body_throws id e :
  (let* encodedId := encodeURIComponent id in
   let* res := apiRequest fetch cfg (checkEndpoint encodedId) noOptions in
   getProp res "exists")%js = Throw e ->
  isEmailLogged fetch encodeURIComponent cfg id = Ok (JBool false).
Proof.
  intros H. unfold isEmailLogged, isEmailLoggedVia. by rewrite H.
Qed.

(** C3: [isEmailLogged] never throws; when the request fails, by a
    transport error or by a response outside 200-299, it returns
    [false]; and it returns [true] only when a 2xx response carries a
    body whose [exists] is [true]. *)
Theorem isEmailLogged_contract (id : string) :
  (forall e, isEmailLogged fetch encodeURIComponent cfg id <> Throw e)
  /\ (forall e,
         encodeURIComponent id = Throw e ->
         isEmailLogged fetch encodeURIComponent cfg id = Ok (JBool false))
  /\ (forall encodedId,
         encodeURIComponent id = Ok encodedId ->
         (forall e,
             fetch (checkUrl cfg encodedId) (requestInit cfg noOptions)
             = Throw e ->
             isEmailLogged fetch encodeURIComponent cfg id
             = Ok (JBool false))
         /\ (forall r,
                fetch (checkUrl cfg encodedId) (requestInit cfg noOptions)
                = Ok r ->
                ok r = false ->
                isEmailLogged fetch encodeURIComponent cfg id
                = Ok (JBool false)))
  /\ (isEmailLogged fetch encodeURIComponent cfg id = Ok (JBool true) ->
      exists encodedId r res,
        encodeURIComponent id = Ok encodedId
        /\ fetch (checkUrl cfg encodedId) (requestInit cfg noOptions) = Ok r
        /\ ok r = true
        /\ json r = Ok res
        /\ getProp res "exists" = Ok (JBool true)).
Proof.
  split; [apply isEmailLogged_never_throws|].
  split; [|split].
  - intros e He. apply (isEmailLogged_body_throws id e). by rewrite He.
  - intros encodedId Henc. split.
    + intros e He. apply (isEmailLogged_body_throws id e).
      rewrite Henc. simpl.
      by rewrite (apiRequest_transport_error _ _ _ He).
    + intros r Hr Hok.
      destruct (apiRequest_not_ok _ _ _ Hr Hok) as [msg Hmsg].
      apply (isEmailLogged_body_throws id (Error msg)).
      rewrite Henc. simpl. by rewrite Hmsg.
  - unfold isEmailLogged, isEmailLoggedVia.
    destruct (encodeURIComponent id) as [encodedId|] eqn:Henc;
      simpl; [|done].
    destruct (apiRequest fetch cfg _ noOptions) as [res|] eqn:Hreq;
      simpl; [|done].
    destruct (getProp res "exists") as [v|] eqn:Hprop; simpl; [|done].
    intros [= ->].
    apply apiRequest_Ok_inv in Hreq as (r & Hr & Hok & Hjson).
    by exists encodedId, r, res.
Qed.

(** C7: [healthCheck] never throws; it returns [true] exactly when the
    request to the health endpoint is answered with a status in
    200-299, and [false] for any other status and when the request
    itself fails. *)
Theorem healthCheck_contract :
  exists b,
    healthCheck fetch cfg = Ok b
    /\ (b = true <->
        exists r,
          fetch (apiBaseUrl cfg +:+ "/health") (healthRequest cfg) = Ok r
          /\ (200 <= status r <= 299)%Z).
Proof.
  unfold healthCheck.
  destruct (fetch _ _) as [r|e] eqn:Hfetch; simpl.
  - exists (ok r). split; [done|]. rewrite ok_spec. split.
    + intros H. by exists r.
    + by intros (r' & [= <-] & H).
  - exists false. split; [done|]. split; [done|].
    by intros (r & Hr & _).
Qed.

End Client.

(** The earlier [healthCheck] answers [true] without asking. *)
Lemma healthCheckPlaceholder_true : healthCheckPlaceholder = Ok true.
Proof. done. Qed.

Lemma isEmailLogged_contract_witness :
  isEmailLogged offline asIs initialConfig "18c2a4f" = Ok (JBool false)
  /\ isEmailLogged unavailable asIs initialConfig "18c2a4f"
     = Ok (JBool false).
Proof.
  split.
  - exact (proj1 (proj1 (proj2 (proj2
             (isEmailLogged_contract offline asIs initialConfig "18c2a4f")))
             "18c2a4f" eq_refl) _ eq_refl).
  - exact (proj2 (proj1 (proj2 (proj2
             (isEmailLogged_contract unavailable asIs initialConfig
                "18c2a4f")))
             "18c2a4f" eq_refl) _ eq_refl eq_refl).
Defined.

End ApiFacts.

(** ** Authentication state *)

Module AuthFacts.
Import Js Http Auth Samples.

(** When no key of the update is [null], [updateAuthState] sets the flag
    from the two tracks of the new state. *)
Lemma updateAuthState_flag_without_null updates cur :
  setGoogle updates <> Some None ->
  setBizdash updates <> Some None ->
  isFullyAuthenticated (updateAuthState updates cur)
  = bothPresent (updateAuthState updates cur).
Proof.
  intros Hg Hb. unfold updateAuthState, bothPresent. simpl.
  destruct (setGoogle updates) as [[g|]|], (setBizdash updates) as [[b|]|];
    done.
Qed.

(** With a [null] in the update, the flag is computed from the track's
    previous value. *)
Lemma updateAuthState_flag_with_null cur :
  isFullyAuthenticated
    (updateAuthState
       {| setGoogle := Some None; setBizdash := None;
          setIsFullyAuthenticated := None |} cur)
  = bothPresent cur.
Proof. done. Qed.

(** C4: at the update that [revokeGoogleToken] issues from a fully
    authenticated state, [updateAuthState] clears the google track and
    leaves [isFullyAuthenticated] true: the flag is not the conjunction
    of the two tracks of the resulting state. *)
Theorem updateAuthState_revoke_keeps_flag :
  let st := updateAuthState revokeGoogle signedIn in
  google st = None
  /\ bizdash st = Some sampleBizDash
  /\ isFullyAuthenticated st = true
  /\ isFullyAuthenticated st <> bothPresent st.
Proof. by vm_compute. Qed.

Section Flows.
Variable fetch : Fetch.
Variable lastError : string -> option string.

(** Signing out of the CRM from a fully authenticated state shows the
    same: the track is cleared and the flag stays. *)
Lemma signOutBizDash_keeps_flag w :
  lastError BIZDASH_AUTH = None ->
  currentAuthState w = signedIn ->
  let w' := snd (signOutBizDash lastError w) in
  bizdash (currentAuthState w') = None
  /\ isFullyAuthenticated (currentAuthState w') = true.
Proof.
  intros Hok Hst. unfold signOutBizDash, removeFromStorage.
  rewrite Hok. simpl. by rewrite Hst.
Qed.

Lemma probe_fails url :
  (exists e, fetch (url +:+ "/health") probeRequest = Throw e)
  \/ (exists r, fetch (url +:+ "/health") probeRequest = Ok r
                /\ ok r = false) ->
  exists e, probe fetch url = Throw e.
Proof.
  unfold probe. intros [[e ->] | (r & -> & Hok)]; simpl.
  - eauto.
  - rewrite Hok. simpl. eauto.
Qed.

(** C6: when the request to the health endpoint fails, by a transport
    error or by a response outside 200-299, [authenticateBizDash]
    throws an [Error] whose message is Cannot connect to BizDash at
    <url>. Is the server running?  and changes nothing: the
    authentication state, the storage and the client configuration
    are as before, so a bizdash track that was absent stays absent. *)
Theorem authenticateBizDash_unreachable url key w :
  (exists e, fetch (url +:+ "/health") probeRequest = Throw e)
  \/ (exists r, fetch (url +:+ "/health") probeRequest = Ok r
                /\ ok r = false) ->
  let out := authenticateBizDash fetch lastError url key w in
  fst out
  = Throw (Error ("Cannot connect to BizDash at " +:+ url
                  +:+ ". Is the server running?"))
  /\ snd out = w
  /\ currentAuthState (snd out) = currentAuthState w
  /\ localStorage (snd out) = localStorage w
  /\ (bizdash (currentAuthState w) = None ->
      bizdash (currentAuthState (snd out)) = None
      /\ isFullyAuthenticated (currentAuthState (snd out))
         = isFullyAuthenticated (currentAuthState w)).
Proof.
  intros Hfail. destruct (probe_fails url Hfail) as [e He].
  unfold authenticateBizDash. rewrite He. simpl. repeat split; done.
Qed.

End Flows.

Lemma authenticateBizDash_unreachable_witness :
  let out :=
    authenticateBizDash offline (fun _ => None)
      "http://localhost:8000" None freshWorld in
  fst out
  = Throw (Error
      "Cannot connect to BizDash at http://localhost:8000. Is the server running?")
  /\ snd out = freshWorld
  /\ currentAuthState (snd out) = currentAuthState freshWorld
  /\ localStorage (snd out) = localStorage freshWorld
  /\ (bizdash (currentAuthState freshWorld) = None ->
      bizdash (currentAuthState (snd out)) = None
      /\ isFullyAuthenticated (currentAuthState (snd out))
         = isFullyAuthenticated (currentAuthState freshWorld)).
Proof.
  exact (authenticateBizDash_unreachable offline (fun _ => None)
           "http://localhost:8000" None freshWorld
           (or_introl (ex_intro _ (TypeError "Failed to fetch") eq_refl))).
Defined.

End AuthFacts.

(** ** Settings *)

Module ServiceWorkerFacts.
Import Js ServiceWorker Samples.

(** A key that the update does not mention keeps its value. *)
Lemma merge_absent (current updates : gmap string value) (k : string) :
  updates !! k = None -> merge current updates !! k = current !! k.
Proof. intros H. unfold merge. by apply lookup_union_r. Qed.

(** A key that the update mentions takes the update's value. *)
Lemma merge_present (current updates : gmap string value) (k : string) v :
  updates !! k = Some v -> merge current updates !! k = Some v.
Proof. intros H. unfold merge. by apply lookup_union_Some_l. Qed.

Lemma getSettings_after updates written
  (sync : gmap string (gmap string value)) :
  getSettings (snd (updateSettings updates written sync))
  = if written then merge (getSettings sync) updates else getSettings sync.
Proof.
  unfold updateSettings. destruct written; simpl; [|done].
  unfold getSettings at 1. by rewrite lookup_insert_eq.
Qed.

(** C5: [updateSettings] keeps every field that the payload does not
    mention, in the object it returns and in the settings that are
    stored afterwards; with the payload {showNotifications: false} the
    fields bizdashApiUrl, captureEmailBody and autoMatchContacts keep
    their previous values, and showNotifications is false in the object
    returned. *)
Theorem updateSettings_preserves_other_fields
  (updates : gmap string value) (written : bool)
  (sync : gmap string (gmap string value)) :
  let current := getSettings sync in
  let out := updateSettings updates written sync in
  (forall k : string,
      updates !! k = None ->
      fst out !! k = current !! k
      /\ getSettings (snd out) !! k = current !! k)
  /\ (updates = hideNotifications ->
      fst out !! "showNotifications" = Some (JBool false)
      /\ Forall (fun k : string =>
                   fst out !! k = current !! k
                   /\ getSettings (snd out) !! k = current !! k)
           ["bizdashApiUrl"; "captureEmailBody"; "autoMatchContacts"]).
Proof.
  intros current out.
  assert (Hkeep : forall k : string,
             updates !! k = None ->
             fst out !! k = current !! k
             /\ getSettings (snd out) !! k = current !! k).
  { intros k Hk. unfold out. rewrite getSettings_after. split.
    - by apply merge_absent.
    - destruct written; [by apply merge_absent|done]. }
  split; [exact Hkeep|].
  intros ->. split.
  - by apply merge_present.
  - repeat constructor; by apply Hkeep.
Qed.

Lemma updateSettings_preserves_other_fields_witness :
  let out := updateSettings hideNotifications true syncWithSettings in
  (fst out !! "bizdashApiUrl" = storedSettings !! "bizdashApiUrl"
   /\ getSettings (snd out) !! "bizdashApiUrl"
      = storedSettings !! "bizdashApiUrl")
  /\ fst out !! "showNotifications" = Some (JBool false)
  /\ Forall (fun k : string =>
               fst out !! k = storedSettings !! k
               /\ getSettings (snd out) !! k = storedSettings !! k)
       ["bizdashApiUrl"; "captureEmailBody"; "autoMatchContacts"].
Proof.
  split.
  - exact (proj1 (updateSettings_preserves_other_fields
                    hideNotifications true syncWithSettings)
             "bizdashApiUrl" eq_refl).
  - exact (proj2 (updateSettings_preserves_other_fields
                    hideNotifications true syncWithSettings) eq_refl).
Defined.

End ServiceWorkerFacts.

(** ** Normal form of parsed addresses *)

Module ParsedFormFacts.
Import JsString Regex GmailApi Shapes MoreShapes.
Import JsStringFacts RegexFacts GmailApiFacts.

Lemma lowerChar_idem a : lowerChar (lowerChar a) = lowerChar a.
Proof. destruct a as [[] [] [] [] [] [] [] []]; reflexivity. Qed.

Lemma isWhiteSpace_lowerChar a : isWhiteSpace (lowerChar a) = isWhiteSpace a.
Proof. destruct a as [[] [] [] [] [] [] [] []]; reflexivity. Qed.

Lemma toLowerCase_idem s : toLowerCase (toLowerCase s) = toLowerCase s.
Proof.
  unfold toLowerCase. rewrite map_map. apply map_ext. apply lowerChar_idem.
Qed.

Lemma trimStart_toLowerCase s :
  trimStart (toLowerCase s) = toLowerCase (trimStart s).
Proof.
  induction s as [|a s IH]; [done|]. simpl.
  rewrite isWhiteSpace_lowerChar. by destruct (isWhiteSpace a).
Qed.

Lemma toLowerCase_rev s : toLowerCase (rev s) = rev (toLowerCase s).
Proof. unfold toLowerCase. apply map_rev. Qed.

Lemma trim_toLowerCase s : trim (toLowerCase s) = toLowerCase (trim s).
Proof.
  unfold trim, trimEnd.
  by rewrite trimStart_toLowerCase, <- toLowerCase_rev,
    trimStart_toLowerCase, toLowerCase_rev.
Qed.

(** [trimStart] removes a prefix of white space and stops at a character
    that is not white space. *)
Lemma trimStart_split s :
  exists w, s = w ++ trimStart s /\ forallb isWhiteSpace w = true.
Proof.
  induction s as [|a s (w & Hs & Hw)]; [by exists []|]. simpl.
  destruct (isWhiteSpace a) eqn:Ha.
  - exists (a :: w). simpl. rewrite Ha, Hw. split; [|done]. by rewrite <- Hs.
  - by exists [].
Qed.

Lemma trimStart_head s :
  match trimStart s with [] => True | a :: _ => isWhiteSpace a = false end.
Proof.
  induction s as [|a s IH]; [done|]. simpl.
  destruct (isWhiteSpace a) eqn:Ha; [done|]. by simpl.
Qed.

Lemma trimStart_fixed s :
  match s with [] => True | a :: _ => isWhiteSpace a = false end ->
  trimStart s = s.
Proof. destruct s as [|a s]; [done|]. simpl. by intros ->. Qed.

Lemma trimStart_idem s : trimStart (trimStart s) = trimStart s.
Proof. apply trimStart_fixed, trimStart_head. Qed.

Lemma trimEnd_idem s : trimEnd (trimEnd s) = trimEnd s.
Proof.
  unfold trimEnd. by rewrite rev_involutive, trimStart_idem.
Qed.

(** [trimEnd] keeps the first character unless it removes everything. *)
Lemma trimEnd_head s :
  match s with [] => True | a :: _ => isWhiteSpace a = false end ->
  match trimEnd s with [] => True | a :: _ => isWhiteSpace a = false end.
Proof.
  destruct s as [|a s]; [done|]. intros Ha. unfold trimEnd.
  destruct (trimStart_split (rev (a :: s))) as (w & Hs & Hw).
  apply (f_equal (@rev ascii)) in Hs.
  rewrite rev_involutive, rev_app_distr in Hs.
  destruct (rev (trimStart (rev (a :: s)))) as [|b t]; [done|].
  simpl in Hs. by injection Hs as <- _.
Qed.

Lemma trim_idem s : trim (trim s) = trim s.
Proof.
  unfold trim at 1. rewrite trimStart_fixed.
  - apply trimEnd_idem.
  - unfold trim. apply trimEnd_head, trimStart_head.
Qed.

Lemma orUndefined_Some s n : orUndefined s = Some n -> n = s /\ s <> [].
Proof. unfold orUndefined. destruct s; [done|]. by intros [= <-]. Qed.

Lemma matchedEmail_normal g :
  toLowerCase (matchedEmail g) = matchedEmail g
  /\ trim (matchedEmail g) = matchedEmail g.
Proof.
  unfold matchedEmail. split; [apply toLowerCase_idem|].
  by rewrite trim_toLowerCase, trim_idem.
Qed.

(** Whatever the input, the email that [parseEmailAddress] returns is in
    lower case and has no white space around it, and a name, when there is
    one, is not empty and has no white space around it. *)
Theorem parseEmailAddress_normal_form raw :
  let r := parseEmailAddress raw in
  toLowerCase (email r) = email r
  /\ trim (email r) = email r
  /\ (forall n, name r = Some n -> n <> [] /\ trim n = n).
Proof.
  unfold parseEmailAddress.
  destruct (exec addressPattern raw) as [mr|]; simpl.
  - destruct (matchedEmail_normal (groups mr)) as [H1 H2].
    split; [done|]. split; [done|].
    unfold matchedName. destruct (groups mr 1) as [x|]; [|done].
    intros n [-> Hne]%orUndefined_Some. split; [done|]. apply trim_idem.
  - split; [apply toLowerCase_idem|].
    split; [by rewrite trim_toLowerCase, trim_idem|done].
Qed.

(** *** Segments *)

Lemma pushCurrent_app A addrs cur :
  pushCurrent (A ++ addrs) cur = A ++ pushCurrent addrs cur.
Proof.
  unfold pushCurrent. destruct (truthy (trim cur)); [|done].
  by rewrite <- app_assoc.
Qed.

Lemma splitStep_withEarlier A st a :
  splitStep (withEarlier A st) a = withEarlier A (splitStep st a).
Proof.
  unfold splitStep, withEarlier. simpl.
  destruct (eqc a comma && _); simpl; [|done].
  by rewrite pushCurrent_app.
Qed.

Lemma splitLoop_withEarlier A st s :
  splitLoop (withEarlier A st) s = withEarlier A (splitLoop st s).
Proof.
  revert st. induction s as [|a s IH]; intros st; [done|].
  by rewrite !splitLoop_cons, splitStep_withEarlier, IH.
Qed.

Lemma splitAddresses_comma a b :
  outsideQuotes a = true ->
  splitAddresses (a ++ comma :: b) = splitAddresses a ++ splitAddresses b.
Proof.
  intros Ha. unfold splitAddresses at 1.
  replace (a ++ comma :: b) with ((a ++ [comma]) ++ b)
    by (by rewrite <- app_assoc).
  rewrite (splitLoop_app _ (a ++ [comma]) b), (splitLoop_app _ a [comma]).
  simpl (splitLoop _ [comma]).
  rewrite splitStep_comma by (by apply outside_after).
  replace {| addresses := pushCurrent (addresses (splitLoop initialSplit a))
                            (current (splitLoop initialSplit a));
             current := []; inQuotes := false |}
    with (withEarlier (splitAddresses a) initialSplit)
    by (unfold withEarlier, splitAddresses; simpl; by rewrite app_nil_r).
  rewrite splitLoop_withEarlier. unfold withEarlier. simpl.
  by rewrite pushCurrent_app.
Qed.

(** A comma outside double quotes separates two headers: the addresses of
    the whole are those of the part before it followed by those of the
    part after it. *)
Theorem parseEmailAddresses_comma a b :
  outsideQuotes a = true ->
  parseEmailAddresses (a ++ comma :: b)
  = parseEmailAddresses a ++ parseEmailAddresses b.
Proof.
  intros Ha. rewrite !parseEmailAddresses_map, splitAddresses_comma by done.
  apply map_app.
Qed.

Lemma parseEmailAddresses_comma_witness :
  parseEmailAddresses (quotedSmith ++ comma :: str " b@y.com")
  = parseEmailAddresses quotedSmith ++ parseEmailAddresses (str " b@y.com").
Proof.
  exact (parseEmailAddresses_comma quotedSmith (str " b@y.com") eq_refl).
Defined.

Lemma pushCurrent_solid addrs cur :
  Forall solid addrs -> Forall solid (pushCurrent addrs cur).
Proof.
  intros H. unfold pushCurrent. destruct (truthy (trim cur)) eqn:Ht; [|done].
  apply Forall_app. split; [done|]. constructor; [|done].
  split; [by destruct (trim cur)|apply trim_idem].
Qed.

Lemma splitLoop_solid st s :
  Forall solid (addresses st) -> Forall solid (addresses (splitLoop st s)).
Proof.
  revert st. induction s as [|a s IH]; intros st H; [done|].
  rewrite splitLoop_cons. apply IH. unfold splitStep.
  destruct (eqc a comma && _); simpl; [|done]. by apply pushCurrent_solid.
Qed.

Lemma pushCurrent_length addrs cur :
  length (pushCurrent addrs cur) <= S (length addrs).
Proof.
  unfold pushCurrent. destruct (truthy (trim cur)); [|lia].
  rewrite length_app. simpl. lia.
Qed.

Lemma splitLoop_length st s :
  length (addresses (splitLoop st s))
  <= length (addresses st) + count_occ ascii_dec s comma.
Proof.
  revert st. induction s as [|a s IH]; intros st; [simpl; lia|].
  rewrite splitLoop_cons. etrans; [apply IH|]. simpl.
  unfold splitStep. destruct (ascii_dec a comma) as [->|Hne].
  - destruct (eqc comma comma && _); simpl; [|lia].
    pose proof (pushCurrent_length (addresses st) (current st)). lia.
  - apply eqc_false in Hne as ->. simpl. lia.
Qed.

(** [parseEmailAddresses] parses segments that are trimmed and not empty,
    and there is at most one more of them than the header has commas. *)
Theorem parseEmailAddresses_segments raw :
  parseEmailAddresses raw = map parseEmailAddress (splitAddresses raw)
  /\ Forall (fun seg => seg <> [] /\ trim seg = seg) (splitAddresses raw)
  /\ length (parseEmailAddresses raw) <= S (count_occ ascii_dec raw comma).
Proof.
  split; [apply parseEmailAddresses_map|]. split.
  - unfold splitAddresses. apply pushCurrent_solid, splitLoop_solid.
    constructor.
  - rewrite parseEmailAddresses_map, length_map. unfold splitAddresses.
    etrans; [apply pushCurrent_length|].
    pose proof (splitLoop_length initialSplit raw). simpl in *. lia.
Qed.

(** *** The format without quotes *)

#[local] Arguments only : simpl never.
#[local] Arguments except : simpl never.
#[local] Arguments isWhiteSpace : simpl never.

(** Greedy iteration: when every longer run fails, the result is that of
    the continuation right after [pre]. *)
Lemma starC_first p k pre s c r :
  forallb p pre = true ->
  k s c = Some r ->
  (forall s1 s2, s = s1 ++ s2 -> s1 <> [] -> forallb p s1 = true ->
                 k s2 c = None) ->
  starC p k (pre ++ s) c = Some r.
Proof.
  intros Hpre Hk Hlonger. apply starC_app_Some; [done|].
  destruct (starC p k s c) as [r'|] eqn:Hres.
  - apply starC_Some_inv in Hres as (s1 & s2 & -> & H1 & H2).
    destruct s1 as [|a s1]; [by rewrite <- Hk, <- H2|].
    by rewrite (Hlonger (a :: s1) s2 eq_refl) in H2.
  - by rewrite (starC_None_inv _ _ _ _ Hres [] s eq_refl eq_refl) in Hk.
Qed.

(** What follows capture 1 in the name group needs a white-space
    character. *)
Lemma nameEnd_needs_ws inp k s c :
  forallb (fun a => negb (isWhiteSpace a)) s = true ->
  m inp (Seq (Opt (Chr (only dquote))) (Chr isWhiteSpace)) k s c = None.
Proof.
  intros Hs.
  destruct (m inp _ k s c) as [res|] eqn:Hm; [|done]. exfalso.
  change (m inp (Seq ?a ?b) ?k) with (m inp a (m inp b k)) in Hm.
  apply (m_Some_suffix _ (Opt _)) in Hm as (s1 & c1 & [k1 ->] & Hm).
  destruct s1 as [|a s1]; [done|]. cbn [m] in Hm.
  destruct (isWhiteSpace a) eqn:Ha; [|done].
  rewrite forallb_app in Hs. cbn [forallb] in Hs.
  rewrite !andb_true_iff in Hs. destruct Hs as (_ & Hs & _).
  by rewrite Ha in Hs.
Qed.

Lemma forallb_suffix {A} (p : A -> bool) (s1 s2 : list A) :
  forallb p (s1 ++ s2) = true -> forallb p s2 = true.
Proof. rewrite forallb_app. by intros [_ ?]%andb_prop. Qed.

Lemma nameGroup_plain inp n rest k c res :
  hasNo dquote n = true ->
  forallb (fun a => negb (isWhiteSpace a)) rest = true ->
  k rest (setCapture 1 n c) = Some res ->
  m inp nameGroup k (n ++ space :: rest) c = Some res.
Proof.
  intros Hn Hrest Hk. unfold nameGroup.
  change (m inp (Seq ?a ?b) ?k) with (m inp a (m inp b k)).
  rewrite m_Opt_Chr_skip.
  2:{ destruct n as [|a n]; simpl.
      - by rewrite only_except.
      - unfold hasNo in Hn. cbn [forallb] in Hn.
        apply andb_prop in Hn as [Ha _]. by rewrite only_except, Ha. }
  cbn [m].
  set (K := fun (s' : jsstring) (c' : captures) =>
              m inp (Seq (Opt (Chr (only dquote))) (Chr isWhiteSpace)) k s'
                (setCapture 1
                   (take (length (n ++ space :: rest) - length s')
                      (n ++ space :: rest)) c')).
  change (starC (except dquote) K (n ++ space :: rest) c = Some res).
  apply starC_first; [done| |].
  - unfold K. rewrite length_app.
    replace (length n + length (space :: rest) - length (space :: rest))
      with (length n) by lia.
    rewrite take_app_length.
    change (m inp (Seq ?a ?b) ?k) with (m inp a (m inp b k)).
    rewrite m_Opt_Chr_skip by done.
    cbn [m]. by replace (isWhiteSpace space) with true by done.
  - intros s1 s2 Heq Hne _. unfold K. apply nameEnd_needs_ws.
    destruct s1 as [|a s1]; [done|]. simpl in Heq. injection Heq as _ ->.
    by apply forallb_suffix in Hrest.
Qed.

Lemma plain_match n loc dom :
  hasNo dquote n = true -> wfBare loc dom = true ->
  m (plainForm n (addr loc dom)) (Seq (Opt nameGroup) afterName) accept
    (plainForm n (addr loc dom)) noCaptures
  = Some (setCapture 2 (addr loc dom) (setCapture 1 n noCaptures), []).
Proof.
  intros Hn. unfold wfBare. rewrite !andb_true_iff.
  intros [[Hloc Hdom] Hall].
  assert (Hloc' : loc <> []) by (by destruct loc).
  assert (Hdom' : dom <> []) by (by destruct dom).
  set (e := addr loc dom) in *.
  assert (Hngt : forallb (except gt) e = true).
  { rewrite forallb_forall in *. intros x Hx.
    specialize (Hall x Hx). rewrite !andb_true_iff in Hall. tauto. }
  assert (Hnws : forallb (fun a => negb (isWhiteSpace a)) (lt :: e ++ [gt])
                 = true).
  { cbn [forallb]. rewrite forallb_app. cbn [forallb].
    rewrite !andb_true_iff. split; [done|]. split; [|done].
    rewrite forallb_forall in *. intros x Hx.
    specialize (Hall x Hx). rewrite !andb_true_iff in Hall. tauto. }
  set (raw := plainForm n e).
  change (m raw (Seq ?a ?b) ?k) with (m raw a (m raw b k)).
  cbn [m].
  match goal with
  | |- match ?x with _ => _ end = _ =>
      assert (Hgoal : x = Some (setCapture 2 e (setCapture 1 n noCaptures), []));
      [|by rewrite Hgoal]
  end.
  unfold raw at 3, plainForm.
  apply nameGroup_plain; [done|done|].
  replace (length (lt :: e ++ [gt]) =? length raw) with false.
  { by apply afterName_bracketed. }
  symmetry. apply Nat.eqb_neq. unfold raw, plainForm.
  rewrite length_app. simpl. lia.
Qed.

(** The format that the comment of [parseEmailAddress] names first, a
    name without quotes followed by the address in angle brackets: the
    name is returned as it stands, inner spaces included, and the address
    in lower case. *)
Theorem parseEmailAddress_plain_form n loc dom :
  wfName n = true -> wfBare loc dom = true ->
  parseEmailAddress (plainForm n (addr loc dom))
  = {| email := toLowerCase (addr loc dom); name := Some n |}.
Proof.
  intros Hn Hb. unfold parseEmailAddress.
  assert (Hn' := Hn). unfold wfName in Hn'. rewrite !andb_true_iff in Hn'.
  destruct Hn' as [[Hne Htn%bool_decide_eq_true] Hndq].
  rewrite exec_addressPattern, (plain_match _ _ _ Hndq Hb).
  cbn [groups]. unfold matchedName, matchedEmail, setCapture, noCaptures.
  cbn [Nat.eqb from_option id]. rewrite Htn.
  unfold orUndefined. rewrite Hne. f_equal. f_equal.
  apply trim_no_ws.
  unfold wfBare in Hb. rewrite !andb_true_iff in Hb.
  destruct Hb as [_ Hall]. rewrite forallb_forall in *.
  intros x Hx. specialize (Hall x Hx).
  rewrite !andb_true_iff in Hall. tauto.
Qed.

Lemma parseEmailAddress_plain_form_witness :
  parseEmailAddress (str "John Smith <John@Example.com>")
  = {| email := str "john@example.com"; name := Some (str "John Smith") |}.
Proof.
  exact (parseEmailAddress_plain_form
           (str "John Smith") (str "John") (str "Example.com")
           eq_refl eq_refl).
Defined.

End ParsedFormFacts.

(** ** More on DOM-based extraction *)

Module ExtractionMoreFacts.
Import JsString Regex GmailApi Content Shapes MoreShapes Samples.
Import JsStringFacts RegexFacts GmailApiFacts ExtractionFacts.

#[local] Arguments only : simpl never.
#[local] Arguments except : simpl never.

(** *** The thread link *)

Lemma execFrom_skip inp r pre a s :
  m inp r accept (a :: s) noCaptures = None ->
  execFrom inp r pre (a :: s) = execFrom inp r (pre ++ [a]) s.
Proof. intros H. cbn [execFrom]. by rewrite H. Qed.

Lemma threadIdPattern_needs_hash inp a s :
  a <> "#"%char -> m inp threadIdPattern accept (a :: s) noCaptures = None.
Proof.
  intros Ha. unfold threadIdPattern. cbn [m].
  destruct (only "#" a) eqn:Hx; [|done]. by apply only_true in Hx.
Qed.

Lemma threadIdPattern_at_hash inp label id rest :
  label <> [] -> hasNo "/"%char label = true ->
  id <> [] -> forallb isIdChar id = true ->
  match rest with [] => True | a :: _ => isIdChar a = false end ->
  m inp threadIdPattern accept
    ("#"%char :: label ++ "/"%char :: id ++ rest) noCaptures
  = Some (setCapture 1 id noCaptures, rest).
Proof.
  intros Hl Hls Hi His Hrest.
  destruct label as [|l0 label]; [done|]. destruct id as [|i0 id]; [done|].
  unfold hasNo in Hls. cbn [forallb] in *.
  apply andb_prop in Hls as [Hl0 Hls]. apply andb_prop in His as [Hi0 His].
  unfold threadIdPattern.
  change (m inp (Seq ?a ?b) ?k) with (m inp a (m inp b k)).
  cbn [m]. rewrite (proj2 (only_true "#" "#") eq_refl).
  cbn [app]. rewrite Hl0.
  apply starC_app_Some; [done|].
  rewrite starC_stop by apply except_self.
  rewrite (proj2 (only_true "/" "/") eq_refl). cbn [app]. rewrite Hi0.
  apply starC_app_Some; [done|].
  rewrite starC_stop by done.
  assert (Htake : take (length (i0 :: id ++ rest) - length rest)
                    (i0 :: id ++ rest) = i0 :: id).
  { replace (length (i0 :: id ++ rest) - length rest)
      with (length (i0 :: id)) by (simpl; rewrite length_app; lia).
    exact (take_app_length (i0 :: id) rest). }
  by rewrite Htake.
Qed.

Lemma exec_threadIdPattern pre label id rest :
  hasNo "#"%char pre = true ->
  label <> [] -> hasNo "/"%char label = true ->
  id <> [] -> forallb isIdChar id = true ->
  match rest with [] => True | a :: _ => isIdChar a = false end ->
  exec threadIdPattern (pre ++ "#"%char :: label ++ "/"%char :: id ++ rest)
  = Some {| before := pre; groups := setCapture 1 id noCaptures;
            after := rest |}.
Proof.
  intros Hpre Hl Hls Hi His Hrest. unfold exec.
  set (inp := pre ++ _).
  assert (Hgen : forall done todo,
             hasNo "#"%char todo = true ->
             execFrom inp threadIdPattern done
               (todo ++ "#"%char :: label ++ "/"%char :: id ++ rest)
             = Some {| before := done ++ todo;
                       groups := setCapture 1 id noCaptures;
                       after := rest |}).
  { intros done todo. revert done.
    induction todo as [|a todo IH]; intros done Htodo.
    - cbn [app execFrom]. rewrite threadIdPattern_at_hash by done.
      by rewrite app_nil_r.
    - unfold hasNo in Htodo. cbn [forallb] in Htodo.
      apply andb_prop in Htodo as [Ha Htodo]. apply except_true in Ha.
      cbn [app]. rewrite execFrom_skip
        by (by apply threadIdPattern_needs_hash).
      rewrite IH by done. by rewrite <- app_assoc. }
  exact (Hgen [] pre Hpre).
Qed.

(** [extractEmailFromRow] takes as identifier the first path component
    after the first # and its label: the longest run of letters, digits,
    _ and - that follows the first / after that #.  For a link under
    #search/ this is the first component after the label, whatever comes
    later in the link. *)
Theorem threadIdOf_first_component clock pre label id rest :
  hasNo "#"%char pre = true ->
  label <> [] -> hasNo "/"%char label = true ->
  id <> [] -> forallb isIdChar id = true ->
  match rest with [] => True | a :: _ => isIdChar a = false end ->
  threadIdOf clock (pre ++ "#"%char :: label ++ "/"%char :: id ++ rest) = id.
Proof.
  intros Hpre Hl Hls Hi His Hrest. unfold threadIdOf.
  rewrite exec_threadIdPattern by done. simpl.
  by destruct id.
Qed.

Lemma threadIdOf_first_component_witness :
  threadIdOf sampleClock
    (str "https://mail.google.com/mail/u/0/#inbox/FMfcgzQXJszv") 
  = str "FMfcgzQXJszv"
  /\ threadIdOf sampleClock (str "#search/invoice/FMfcgzQXJszv")
     = str "invoice".
Proof.
  split.
  - exact (threadIdOf_first_component sampleClock
             (str "https://mail.google.com/mail/u/0/") (str "inbox")
             (str "FMfcgzQXJszv") []
             eq_refl ltac:(discriminate) eq_refl ltac:(discriminate)
             eq_refl I).
  - exact (threadIdOf_first_component sampleClock
             [] (str "search") (str "invoice") (str "/FMfcgzQXJszv")
             eq_refl ltac:(discriminate) eq_refl ltac:(discriminate)
             eq_refl eq_refl).
Defined.

(** *** What every extracted record has *)

Lemma orElse_nonempty a b : b <> [] -> orElse a b <> [].
Proof.
  intros Hb. unfold orElse. destruct a as [[|x s]|]; simpl; done.
Qed.

Lemma orElse_take_length (t : option jsstring) n :
  length (orElse (option_map (take n) t) []) <= n.
Proof.
  unfold orElse. destruct t as [s|]; simpl; [|lia].
  destruct (truthy (take n s)); simpl; [|lia].
  rewrite length_take. lia.
Qed.

Lemma extractEmailFromDOM_fields doc clock mail :
  extractEmailFromDOM doc clock = Some mail ->
  to mail = [] /\ cc mail = [] /\ bcc mail = [] /\ labels mail = []
  /\ date mail = now clock
  /\ exists bodyText,
      snippet mail = orElse (option_map (take 200) bodyText) [].
Proof.
  unfold extractEmailFromDOM.
  destruct (extractEmailFromDOM_body doc clock) as [r|] eqn:Hbody; [|done].
  intros ->. unfold extractEmailFromDOM_body in Hbody.
  repeat peel Hbody.
  injection Hbody as <-. simpl. eauto 10.
Qed.

Lemma extractEmailFromRow_fields doc clock row mail :
  extractEmailFromRow doc clock row = Some mail ->
  to mail = [] /\ cc mail = [] /\ bcc mail = [] /\ labels mail = [].
Proof.
  unfold extractEmailFromRow.
  destruct (extractEmailFromRow_body doc clock row) as [r|] eqn:Hbody;
    [|done].
  intros ->. unfold extractEmailFromRow_body in Hbody.
  repeat peel Hbody.
  by injection Hbody as <-.
Qed.

(** A record that [extractEmailFromDOM] returns has a message identifier
    that is not empty, a snippet of at most 200 code units, and no
    recipients: the request built from it has empty [toEmails] and
    [ccEmails]. *)
Theorem extractEmailFromDOM_record doc clock mail :
  extractEmailFromDOM doc clock = Some mail ->
  messageId mail <> []
  /\ length (snippet mail) <= 200
  /\ toEmails (logRequestOf mail) = []
  /\ ccEmails (logRequestOf mail) = []
  /\ bcc mail = [].
Proof.
  intros H.
  destruct (extractEmailFromDOM_message_attr _ _ _ H)
    as (container & idAttr & _ & _ & Hid).
  destruct (extractEmailFromDOM_fields _ _ _ H)
    as (Hto & Hcc & Hbcc & _ & _ & bodyText & Hsn).
  split; [|split; [|split; [|split]]].
  - rewrite Hid. by apply orElse_nonempty.
  - rewrite Hsn. apply orElse_take_length.
  - simpl. by rewrite Hto.
  - simpl. by rewrite Hcc.
  - done.
Qed.

Lemma extractEmailFromDOM_record_witness :
  let mail := sampleMail (str "18c2a4f") (str "18c2a4f")
                (Some (str "18c2a4f")) in
  messageId mail <> []
  /\ length (snippet mail) <= 200
  /\ toEmails (logRequestOf mail) = []
  /\ ccEmails (logRequestOf mail) = []
  /\ bcc mail = [].
Proof.
  exact (extractEmailFromDOM_record
           (samplePage (str "18c2a4f")) sampleClock _ eq_refl).
Defined.

(** A record that [extractEmailFromRow] returns has an identifier that is
    not empty, even when the row has no thread link, and no recipients. *)
Theorem extractEmailFromRow_record doc clock row mail :
  extractEmailFromRow doc clock row = Some mail ->
  messageId mail <> []
  /\ gmailMessageId (logRequestOf mail) <> []
  /\ toEmails (logRequestOf mail) = []
  /\ ccEmails (logRequestOf mail) = [].
Proof.
  intros H.
  destruct (extractEmailFromRow_thread_link _ _ _ _ H) as (href & Hid).
  destruct (extractEmailFromRow_fields _ _ _ _ H) as (Hto & Hcc & _).
  assert (Hne : messageId mail <> []).
  { rewrite Hid. unfold threadIdOf. by apply orElse_nonempty. }
  split; [done|]. split; [done|]. simpl. by rewrite Hto, Hcc.
Qed.

Lemma extractEmailFromRow_record_witness :
  let mail := sampleMail (str "FMfcgzQ") (str "#inbox/FMfcgzQ")
                (Some (str "#inbox/FMfcgzQ")) in
  messageId mail <> []
  /\ gmailMessageId (logRequestOf mail) <> []
  /\ toEmails (logRequestOf mail) = []
  /\ ccEmails (logRequestOf mail) = [].
Proof.
  exact (extractEmailFromRow_record
           (samplePage (str "#inbox/FMfcgzQ")) sampleClock 0 _ eq_refl).
Defined.

End ExtractionMoreFacts.

(** ** The Gmail requests *)

Module GmailClientFacts.
Import JsString GmailApi Js Http Shapes MoreShapes Samples.
Import GmailClient.

Lemma headerMap_snoc hs h :
  headerMap (hs ++ [h]) = <[toLowerCase (fst h) := snd h]> (headerMap hs).
Proof. unfold headerMap. by rewrite fold_left_app. Qed.

(** Looking a name up in the map gives the value of the last header with
    that name, the case of the header's name left aside. *)
Lemma headerMap_lookup hs k : headerMap hs !! k = lastValue k hs.
Proof.
  induction hs as [|h hs IH] using rev_ind; [done|].
  rewrite headerMap_snoc. unfold lastValue in *.
  rewrite filter_app, map_app, last_app, lookup_insert.
  rewrite filter_cons, filter_nil.
  destruct (decide (toLowerCase h.1 = k)) as [Heq|Hne]; simpl.
  - rewrite ?decide_True by done. done.
  - rewrite ?decide_False by done. done.
Qed.

Lemma lastValue_None k hs :
  Forall (fun h => toLowerCase (fst h) <> k) hs -> lastValue k hs = None.
Proof.
  intros H. unfold lastValue.
  replace (filter (fun h => toLowerCase (fst h) = k) hs) with
    (@nil (jsstring * jsstring)); [done|].
  symmetry. induction H as [|h hs Hh _ IH]; [done|].
  by rewrite filter_cons, decide_False.
Qed.

Lemma lastValue_last k hs1 n v hs2 :
  toLowerCase n = k ->
  Forall (fun h => toLowerCase (fst h) <> k) hs2 ->
  lastValue k (hs1 ++ (n, v) :: hs2) = Some v.
Proof.
  intros Hn H2. unfold lastValue.
  rewrite filter_app, filter_cons, decide_True by done.
  rewrite map_app, last_app.
  pose proof (lastValue_None _ _ H2) as Hnone. unfold lastValue in Hnone.
  rewrite map_cons, last_cons, Hnone. done.
Qed.

Section Requests.
Variable fetch : Fetch.
Variable clock : Clock.
Variable asMessage : value -> result GmailApiMessage.
Variable asThread : value -> result (list GmailApiMessage).

(** [getMessage] finds a header whatever the case of its name, and of
    several headers with one name it takes the last: the subject is the
    value of the last Subject header when that value is not empty, and
    the recipients and the sender are parsed from the last To, Cc, Bcc
    and From headers. *)
Theorem emailOfMessage_last_header (message : GmailApiMessage)
  hs1 n v hs2 :
  payloadHeaders message = hs1 ++ (n, v) :: hs2 ->
  Forall (fun h => toLowerCase (fst h) <> toLowerCase n) hs2 ->
  v <> [] ->
  let r := emailOfMessage clock message in
  (toLowerCase n = str "subject" -> subject r = v)
  /\ (toLowerCase n = str "from" -> from r = parseEmailAddress v)
  /\ (toLowerCase n = str "to" -> to r = parseEmailAddresses v)
  /\ (toLowerCase n = str "cc" -> cc r = parseEmailAddresses v)
  /\ (toLowerCase n = str "bcc" -> bcc r = parseEmailAddresses v).
Proof.
  intros Hhs H2 Hv r.
  assert (Hget : headerMap (payloadHeaders message) !! toLowerCase n
                 = Some v).
  { rewrite headerMap_lookup, Hhs. by apply lastValue_last. }
  assert (Hor : forall b, orElse (Some v) b = v) by (by destruct v).
  unfold r, emailOfMessage. simpl.
  repeat split; intros Hk; rewrite <- Hk, Hget; by rewrite Hor.
Qed.

(** A message without the headers gets the defaults: the placeholder
    subject, no recipients, a sender with an empty address, and the
    current time as its date. *)
Theorem emailOfMessage_defaults (message : GmailApiMessage) :
  let hs := payloadHeaders message in
  let r := emailOfMessage clock message in
  (noHeader "subject" hs -> subject r = str "(No Subject)")
  /\ (noHeader "from" hs -> from r = {| email := []; name := None |})
  /\ (noHeader "to" hs -> to r = [])
  /\ (noHeader "cc" hs -> cc r = [])
  /\ (noHeader "bcc" hs -> bcc r = [])
  /\ (noHeader "date" hs -> date r = Some (now clock)).
Proof.
  intros hs r. subst hs r. unfold emailOfMessage, dateOf, noHeader.
  cbn [subject from to cc bcc date].
  repeat split; intros Hno;
    by rewrite headerMap_lookup, (lastValue_None _ _ Hno).
Qed.

(** Without a token, or with an empty one, no request is attempted: the
    three functions throw the same error whatever [fetch] would do.  For
    the empty token this is so although [isGmailConfigured] answers
    true. *)
Theorem gmail_requests_need_token (accessToken : option string)
  (messageId threadId : string) :
  Api.orNull accessToken = None ->
  let notConfigured :=
    Error "Gmail API not configured - missing access token" in
  getMessage fetch clock accessToken asMessage messageId
  = Throw notConfigured
  /\ getThread fetch clock accessToken asThread threadId
     = Throw notConfigured
  /\ getCurrentUserEmail fetch accessToken = Throw notConfigured
  /\ (isGmailConfigured accessToken = true <-> accessToken = Some "").
Proof.
  intros Htok. unfold getMessage, getThread, getCurrentUserEmail,
    gmailRequest. rewrite Htok. repeat split; try done.
  - destruct accessToken as [[|c t]|]; try done.
  - by intros ->.
Qed.

End Requests.

Lemma emailOfMessage_last_header_witness :
  subject (emailOfMessage sampleClock sampleMessage)
  = str "Re: Project Update"
  /\ to (emailOfMessage sampleClock sampleMessage)
     = parseEmailAddresses (str "a@x.com, Bob <b@y.com>").
Proof.
  split.
  - refine (proj1 (emailOfMessage_last_header sampleClock sampleMessage
                     [ (str "SUBJECT", str "First");
                       (str "To", str "a@x.com, Bob <b@y.com>") ]
                     (str "subject") (str "Re: Project Update")
                     [ (str "X-Mailer", str "m") ] eq_refl _ _) eq_refl).
    + repeat constructor. by vm_compute.
    + discriminate.
  - refine (proj1 (proj2 (proj2
              (emailOfMessage_last_header sampleClock sampleMessage
                 [ (str "SUBJECT", str "First") ]
                 (str "To") (str "a@x.com, Bob <b@y.com>")
                 [ (str "subject", str "Re: Project Update");
                   (str "X-Mailer", str "m") ] eq_refl _ _))) eq_refl).
    + repeat constructor; by vm_compute.
    + discriminate.
Defined.

Lemma emailOfMessage_defaults_witness :
  from (emailOfMessage sampleClock sampleMessage)
  = {| email := []; name := None |}
  /\ cc (emailOfMessage sampleClock sampleMessage) = []
  /\ date (emailOfMessage sampleClock sampleMessage)
     = Some (now sampleClock).
Proof.
  pose proof (emailOfMessage_defaults sampleClock sampleMessage)
    as (_ & Hfrom & _ & Hcc & _ & Hdate).
  split; [|split].
  - apply Hfrom. repeat constructor; by vm_compute.
  - apply Hcc. repeat constructor; by vm_compute.
  - apply Hdate. repeat constructor; by vm_compute.
Defined.

Lemma gmail_requests_need_token_witness :
  getMessage offline sampleClock (Some "") (fun _ => Ok sampleMessage)
    "18c2a4f"
  = Throw (Error "Gmail API not configured - missing access token")
  /\ isGmailConfigured (Some "") = true.
Proof.
  split; [|done].
  exact (proj1 (gmail_requests_need_token offline sampleClock
                  (fun _ => Ok sampleMessage) (fun _ => Ok [])
                  (Some "") "18c2a4f" "18c2a00" eq_refl)).
Defined.

End GmailClientFacts.

(** ** The calls of the CRM client *)

Module ApiCallsFacts.
Import Js Http Api ApiCalls MoreShapes Samples.

Lemma showZ_inj (a b : Z) : showZ a = showZ b -> a = b.
Proof.
  unfold showZ. intros H.
  assert (Hnil : forall z, Z.to_int z <> Decimal.Pos Decimal.Nil
                           /\ Z.to_int z <> Decimal.Neg Decimal.Nil).
  { intros [|p|p]; simpl; split; try discriminate;
      intros Heq; injection Heq as Heq;
      exact (DecimalPos.Unsigned.to_uint_nonnil p Heq). }
  assert (Hint : Z.to_int a = Z.to_int b).
  { destruct (Hnil a) as [Ha1 Ha2], (Hnil b) as [Hb1 Hb2].
    pose proof (DecimalString.NilZero.isi _ Ha1 Ha2) as Ea.
    pose proof (DecimalString.NilZero.isi _ Hb1 Hb2) as Eb.
    rewrite H in Ea. rewrite Ea in Eb. by injection Eb. }
  rewrite <- (DecimalZ.of_to a), <- (DecimalZ.of_to b). by rewrite Hint.
Qed.

Lemma showZ_zero (z : Z) : showZ z = "0" -> z = 0%Z.
Proof. intros H. by apply showZ_inj. Qed.

Section Calls.
Variable fetch : Fetch.
Variable encodeURIComponent : string -> result string.
Variable stringify : Content.EmailLogRequest -> string.
Variable formEncode : list (string * string) -> string.
Variable cfg : Config.

(** In the header object that [apiRequest] sends, the caller's headers
    win over the two that the client adds: every header of the caller is
    sent as given, a Content-Type is always present (JSON unless the
    caller names another), and, the caller not naming one, an
    Authorization header is sent exactly when a non-empty token is
    configured. *)
Theorem requestInit_headers (options : RequestInit) :
  let sent := headers (requestInit cfg options) in
  headers options ⊆ sent
  /\ sent !! "Content-Type"
     = Some (default "application/json" (headers options !! "Content-Type"))
  /\ (headers options !! "Authorization" = None ->
      sent !! "Authorization"
      = option_map (fun t => "Bearer " +:+ t) (orNull (authToken cfg)))
  /\ (forall k, k <> "Content-Type" -> k <> "Authorization" ->
      sent !! k = headers options !! k).
Proof.
  intros sent. subst sent. unfold requestInit, authorization.
  cbn [headers].
  assert (Hct : forall (t : string),
             ({[ "Authorization" := t ]} : gmap string string)
               !! "Content-Type" = None)
    by (intros t; by rewrite lookup_singleton_ne).
  split; [|split; [|split]].
  - rewrite <- (assoc_L (∪)). apply map_union_subseteq_l.
  - rewrite !lookup_union, lookup_singleton_eq.
    destruct (headers options !! "Content-Type") as [c|];
      destruct (orNull (authToken cfg)) as [t|];
      rewrite ?Hct, ?lookup_empty; reflexivity.
  - intros Hnone. rewrite !lookup_union, Hnone.
    rewrite (lookup_singleton_ne "Content-Type" "Authorization") by done.
    destruct (orNull (authToken cfg)) as [t|];
      rewrite ?lookup_singleton_eq, ?lookup_empty; reflexivity.
  - intros k Hct' Hauth. rewrite !lookup_union.
    rewrite (lookup_singleton_ne "Content-Type" k) by done.
    destruct (orNull (authToken cfg)) as [t|].
    + rewrite lookup_singleton_ne by done.
      by destruct (headers options !! k).
    + rewrite lookup_empty. by destruct (headers options !! k).
Qed.

(** The query of [listCustomers] never carries an empty search text, a
    page 0 or a page size 0: a parameter that is missing, empty or zero is
    left out, so such a call asks for the same URL as a call without the
    parameter. *)
Theorem listCustomers_skips_falsy (params : option ListParams) :
  let pairs := searchPairs params in
  (forall v, In ("search", v) pairs -> v <> "")
  /\ (forall v, In ("page", v) pairs -> v <> "0")
  /\ (forall v, In ("page_size", v) pairs -> v <> "0")
  /\ (forall k v, In (k, v) pairs ->
      k = "search" \/ k = "page" \/ k = "page_size")
  /\ (forall p, params = Some p ->
      orNull (search p) = None -> nonZero (page p) = None ->
      nonZero (pageSize p) = None ->
      listCustomers fetch formEncode cfg params
      = listCustomers fetch formEncode cfg None).
Proof.
  intros pairs. subst pairs.
  assert (Hnz : forall n z, nonZero n = Some z -> showZ z <> "0").
  { intros [n|] z; simpl; [|discriminate].
    destruct (n =? 0)%Z eqn:E; [discriminate|].
    intros [= <-] H0. apply showZ_zero in H0. subst n. discriminate. }
  assert (Hne : forall o s, orNull o = Some s -> s <> "").
  { intros [o|] s; simpl; [|discriminate].
    destruct o; simpl; [discriminate|]. by intros [= <-]. }
  assert (Hin : forall k v, In (k, v) (searchPairs params) ->
             exists p, params = Some p /\
               ((k = "search" /\ orNull (search p) = Some v)
                \/ (k = "page" /\
                    exists n, nonZero (page p) = Some n /\ v = showZ n)
                \/ (k = "page_size" /\
                    exists n, nonZero (pageSize p) = Some n
                              /\ v = showZ n))).
  { intros k v. destruct params as [p|]; simpl; [|intros []].
    intros H. exists p. split; [done|].
    apply in_app_or in H as [H|H]; [|apply in_app_or in H as [H|H]].
    - destruct (orNull (search p)); [|destruct H].
      destruct H as [[= <- <-]|[]]. by left.
    - destruct (nonZero (page p)) as [n|]; [|destruct H].
      destruct H as [[= <- <-]|[]]. right; left. split; [done|by exists n].
    - destruct (nonZero (pageSize p)) as [n|]; [|destruct H].
      destruct H as [[= <- <-]|[]]. right; right.
      split; [done|by exists n]. }
  split; [|split; [|split; [|split]]].
  - intros v H. destruct (Hin _ _ H) as (p & _ & [[_ Hs]|[[Hk _]|[Hk _]]]);
      [by eapply Hne|discriminate|discriminate].
  - intros v H.
    destruct (Hin _ _ H) as (p & _ & [[Hk _]|[[_ (n & Hn & ->)]|[Hk _]]]);
      [discriminate|by eapply Hnz|discriminate].
  - intros v H.
    destruct (Hin _ _ H) as (p & _ & [[Hk _]|[[Hk _]|[_ (n & Hn & ->)]]]);
      [discriminate|discriminate|by eapply Hnz].
  - intros k v H.
    destruct (Hin _ _ H) as (p & _ & [[Hk _]|[[Hk _]|[Hk _]]]);
      [by left|by right; left|by right; right].
  - intros p -> Hs Hp Hsz. unfold listCustomers, searchPairs.
    by rewrite Hs, Hp, Hsz.
Qed.

(** A reply that the client gives up on, whatever the request, makes
    each of the five calls throw the same error: the transport's own, or
    the one that carries the status and the body of the response.  None
    of them turns it into a value, as [isEmailLogged] does. *)
Theorem client_calls_fail_alike (reply : result Response) (e : exn)
  (email customerId contactId : string)
  (params : option ListParams) (emailData : Content.EmailLogRequest) :
  (forall url init, fetch url init = reply) ->
  failureOf reply = Some e ->
  (forall encoded, encodeURIComponent email = Ok encoded ->
   searchContactByEmail fetch encodeURIComponent cfg email = Throw e)
  /\ listCustomers fetch formEncode cfg params = Throw e
  /\ getCustomer fetch cfg customerId = Throw e
  /\ logEmail fetch stringify cfg emailData = Throw e
  /\ getContactEmails fetch cfg contactId = Throw e
  /\ isEmailLogged fetch encodeURIComponent cfg email = Ok (JBool false).
Proof.
  intros Hfetch Hfail.
  assert (Hreq : forall endpoint options,
             apiRequest fetch cfg endpoint options = Throw e).
  { intros endpoint options. unfold apiRequest. rewrite Hfetch.
    destruct reply as [r|e0]; simpl in *.
    - destruct (ok r); [discriminate|]. simpl. by injection Hfail as ->.
    - by injection Hfail as ->. }
  unfold searchContactByEmail, listCustomers, getCustomer, logEmail,
    getContactEmails, isEmailLogged, isEmailLoggedVia.
  repeat split; try apply Hreq.
  - intros encoded ->. simpl. apply Hreq.
  - destruct (encodeURIComponent email) as [encoded|e0]; simpl; [|done].
    by rewrite Hreq.
Qed.

End Calls.

Lemma requestInit_headers_witness :
  headers (requestInit (configureApi "https://crm.example" (Some "k1"))
             noOptions) !! "Authorization"
  = Some "Bearer k1".
Proof.
  exact (proj1 (proj2 (proj2
           (requestInit_headers
              (configureApi "https://crm.example" (Some "k1")) noOptions)))
           eq_refl).
Defined.

Lemma listCustomers_skips_falsy_witness :
  listCustomers offline (fun _ => "") initialConfig
    (Some {| search := Some ""; page := Some 0%Z; pageSize := None |})
  = listCustomers offline (fun _ => "") initialConfig None.
Proof.
  exact (proj2 (proj2 (proj2 (proj2
           (listCustomers_skips_falsy offline (fun _ => "") initialConfig
              (Some {| search := Some ""; page := Some 0%Z;
                       pageSize := None |}))))) _ eq_refl eq_refl eq_refl
           eq_refl).
Defined.

Lemma client_calls_fail_alike_witness :
  getCustomer unavailable initialConfig "42"
  = Throw (Error "BizDash API error 503: Service Unavailable").
Proof.
  exact (proj1 (proj2 (proj2
           (client_calls_fail_alike unavailable asIs (fun _ => "")
              (fun _ => "") initialConfig (unavailable "" noOptions)
              (Error "BizDash API error 503: Service Unavailable")
              "a@x.com" "42" "42" None
              (Content.logRequestOf
                 (sampleMail (JsString.str "t1") (JsString.str "a@x.com")
                    None))
              (fun _ _ => eq_refl) eq_refl)))).
Defined.

End ApiCallsFacts.

(** ** The sign-in flows *)

Module AuthFlowsFacts.
Import Js Http Auth AuthFlows Samples MoreSamples.

Lemma saveToStorage_cases lastError key v w :
  (exists msg, lastError key = Some msg
               /\ saveToStorage lastError key v w = (Throw (Error msg), w))
  \/ (lastError key = None
      /\ saveToStorage lastError key v w
         = (Ok tt,
            {| currentAuthState := currentAuthState w;
               localStorage := <[key := v]> (localStorage w);
               apiConfig := apiConfig w |})).
Proof.
  unfold saveToStorage. destruct (lastError key) as [msg|].
  - left. by exists msg.
  - by right.
Qed.

Lemma typedStorage_insert_google m t :
  typedStorage m = true ->
  typedStorage (<[GOOGLE_TOKEN := StoredGoogle t]> m) = true.
Proof.
  unfold typedStorage. rewrite lookup_insert_eq.
  rewrite lookup_insert_ne by done. simpl.
  intros H. apply andb_true_iff in H as [_ H]. done.
Qed.

Lemma typedStorage_insert_bizdash m b :
  typedStorage m = true ->
  typedStorage (<[BIZDASH_AUTH := StoredBizDash b]> m) = true.
Proof.
  unfold typedStorage. rewrite lookup_insert_eq.
  rewrite lookup_insert_ne by done.
  intros H. apply andb_true_iff in H as [H _]. by rewrite H.
Qed.

Lemma typedStorage_delete m key :
  typedStorage m = true -> typedStorage (delete key m) = true.
Proof.
  unfold typedStorage. intros H. apply andb_true_iff in H as [H1 H2].
  apply andb_true_iff. split.
  - destruct (decide (key = GOOGLE_TOKEN)) as [->|Hne].
    + by rewrite lookup_delete_eq.
    + by rewrite lookup_delete_ne.
  - destruct (decide (key = BIZDASH_AUTH)) as [->|Hne].
    + by rewrite lookup_delete_eq.
    + by rewrite lookup_delete_ne.
Qed.

Lemma typedStorage_casts m :
  typedStorage m = true ->
  exists g b, castGoogle (m !! GOOGLE_TOKEN) = Some g
              /\ castBizDash (m !! BIZDASH_AUTH) = Some b
              /\ (forall t, g = Some t <->
                            m !! GOOGLE_TOKEN = Some (StoredGoogle t))
              /\ (forall a, b = Some a <->
                            m !! BIZDASH_AUTH = Some (StoredBizDash a)).
Proof.
  unfold typedStorage. intros H. apply andb_true_iff in H as [H1 H2].
  destruct (m !! GOOGLE_TOKEN) as [[t|a]|]; [| discriminate |];
    (destruct (m !! BIZDASH_AUTH) as [[t'|a']|]; [discriminate | |]);
    simpl; eexists _, _; (split; [reflexivity|]);
    (split; [reflexivity|]); split; intros x; split; congruence.
Qed.

Section Flows.
Variable fetch : Fetch.
Variable lastError : string -> option string.
Variable readError : string -> option string.
Variable identity : Identity.
Variable now : Z.

Lemma authenticateGoogle_pending (s : Session) :
  fst (authenticateGoogle lastError identity now s) = Pending <->
  available identity = true
  /\ identityError identity true = None
  /\ Api.orNull (getAuthToken identity true) <> None
  /\ lastError GOOGLE_TOKEN <> None.
Proof.
  unfold authenticateGoogle.
  destruct (available identity); simpl.
  2:{ split; [discriminate|intros (H & _); discriminate]. }
  destruct (identityError identity true) as [msg|]; simpl.
  { split; [discriminate|intros (_ & H & _); discriminate]. }
  destruct (Api.orNull (getAuthToken identity true)) as [tok|]; simpl.
  2:{ split; [discriminate|intros (_ & _ & H & _); done]. }
  unfold installToken, saveToStorage. simpl.
  destruct (lastError GOOGLE_TOKEN) as [msg|]; simpl.
  - done.
  - split; [discriminate|intros (_ & _ & _ & H); done].
Qed.

Lemma authenticateGoogle_Ok_state (s s' : Session)
  (token : GoogleAuthToken) :
  authenticateGoogle lastError identity now s = (Settled (Ok token), s') ->
  google (currentAuthState (world s')) = Some token
  /\ getAuthToken identity true = Some (accessToken token).
Proof.
  unfold authenticateGoogle.
  destruct (available identity); simpl; [|discriminate].
  destruct (identityError identity true) as [msg|]; [discriminate|].
  destruct (getAuthToken identity true) as [tok|] eqn:Etok; simpl;
    [|discriminate].
  destruct (Api.nonEmpty tok) eqn:Ene; [|discriminate].
  unfold installToken, saveToStorage. simpl.
  destruct (lastError GOOGLE_TOKEN) as [msg|]; [discriminate|].
  by intros [= <- <-].
Qed.

(** A rejection of [authenticateGoogle], or of [authenticateBizDash],
    leaves the state and the storage as they were. *)
Lemma authenticateGoogle_Throw_state (s : Session) (e : exn) :
  fst (authenticateGoogle lastError identity now s) = Settled (Throw e) ->
  snd (authenticateGoogle lastError identity now s) = s.
Proof.
  unfold authenticateGoogle.
  destruct (available identity); simpl; [|done].
  destruct (identityError identity true) as [msg|]; [done|].
  destruct (Api.orNull (getAuthToken identity true)) as [tok|]; [|done].
  unfold installToken, saveToStorage. simpl.
  destruct (lastError GOOGLE_TOKEN) as [msg|]; discriminate.
Qed.

Lemma authenticateBizDash_Throw_state (url : string) (key : option string)
  (w : World) (e : exn) :
  fst (authenticateBizDash fetch lastError url key w) = Throw e ->
  currentAuthState (snd (authenticateBizDash fetch lastError url key w))
  = currentAuthState w
  /\ localStorage (snd (authenticateBizDash fetch lastError url key w))
     = localStorage w.
Proof.
  unfold authenticateBizDash.
  destruct (probe fetch url); [|done].
  unfold saveToStorage. simpl.
  destruct (lastError BIZDASH_AUTH) as [msg|]; [done|discriminate].
Qed.

(** The promise of [authenticateGoogle] never settles exactly when a
    token was obtained and the write to storage failed; the Gmail client
    is then already configured with the token, while the state and the
    storage are as before.  When the promise rejects, nothing has
    changed at all. *)
Theorem authenticateGoogle_unsettled (s : Session) :
  let run := authenticateGoogle lastError identity now s in
  (fst run = Pending <->
   available identity = true
   /\ identityError identity true = None
   /\ Api.orNull (getAuthToken identity true) <> None
   /\ lastError GOOGLE_TOKEN <> None)
  /\ (fst run = Pending ->
      world (snd run) = world s
      /\ gmailAccessToken (snd run) = getAuthToken identity true)
  /\ (forall e, fst run = Settled (Throw e) -> snd run = s).
Proof.
  intros run. subst run.
  split; [apply authenticateGoogle_pending|].
  split; [|apply authenticateGoogle_Throw_state].
  unfold authenticateGoogle.
  destruct (available identity); simpl; [|discriminate].
  destruct (identityError identity true) as [msg|]; [discriminate|].
  destruct (getAuthToken identity true) as [tok|] eqn:Etok; simpl;
    [|discriminate].
  destruct (Api.nonEmpty tok) eqn:Ene; [|discriminate].
  unfold installToken, saveToStorage. simpl.
  destruct (lastError GOOGLE_TOKEN) as [msg|]; simpl; [|discriminate].
  intros _. by destruct s as [[? ? ?] ?].
Qed.

(** When [authenticateGoogle] resolves, the token it resolves to is the
    one in the state, in storage and in the Gmail client; it is not
    empty, and [isGoogleTokenValid] holds from then on exactly until one
    hour after the call. *)
Theorem authenticateGoogle_resolved (s s' : Session)
  (token : GoogleAuthToken) :
  authenticateGoogle lastError identity now s = (Settled (Ok token), s') ->
  google (currentAuthState (world s')) = Some token
  /\ localStorage (world s') !! GOOGLE_TOKEN = Some (StoredGoogle token)
  /\ gmailAccessToken s' = Some (accessToken token)
  /\ getAuthToken identity true = Some (accessToken token)
  /\ accessToken token <> ""
  /\ bizdash (currentAuthState (world s'))
     = bizdash (currentAuthState (world s))
  /\ (forall t, isGoogleTokenValid t (world s')
                = (t <? now + 3600000)%Z).
Proof.
  unfold authenticateGoogle.
  destruct (available identity); simpl; [|discriminate].
  destruct (identityError identity true) as [msg|]; [discriminate|].
  destruct (getAuthToken identity true) as [tok|] eqn:Etok; simpl;
    [|discriminate].
  destruct (Api.nonEmpty tok) eqn:Ene; [|discriminate].
  unfold installToken, saveToStorage. simpl.
  destruct (lastError GOOGLE_TOKEN) as [msg|]; [discriminate|].
  intros [= <- <-]. simpl. rewrite lookup_insert_eq.
  repeat split. intros ->. discriminate.
Qed.

(** [refreshGoogleToken] never rejects.  It resolves to null without any
    change when no token can be had silently; a token it resolves to
    carries the scope of the token it replaces, or an empty scope when
    there was none. *)
Theorem refreshGoogleToken_outcomes (s : Session) :
  let run := refreshGoogleToken lastError identity now s in
  (forall e, fst run <> Settled (Throw e))
  /\ (fst run = Settled (Ok None) -> snd run = s)
  /\ (forall t, fst run = Settled (Ok (Some t)) ->
      scope t = currentScope (world s)
      /\ expiresAt t = (now + 3600000)%Z
      /\ google (currentAuthState (world (snd run))) = Some t
      /\ gmailAccessToken (snd run) = Some (accessToken t)).
Proof.
  intros run. subst run. unfold refreshGoogleToken.
  destruct (available identity); simpl.
  2:{ repeat split; try done. }
  destruct (identityError identity false) as [msg|];
    [repeat split; done|].
  destruct (Api.orNull (getAuthToken identity false)) as [tok|];
    [|repeat split; done].
  unfold installToken, saveToStorage. simpl.
  destruct (lastError GOOGLE_TOKEN) as [msg|]; simpl.
  - repeat split; done.
  - split; [done|]. split; [done|].
    intros t [= <-]. simpl. done.
Qed.

(** Revoking the Google token does not depend on the network: whatever
    the request to Google's servers comes to, the outcome is the same.
    It removes the token from the state and from storage, and it leaves
    the Gmail client configured with the token it had. *)
Theorem revokeGoogleToken_offline (fetch' : Fetch) (s : Session) :
  let run := revokeGoogleToken fetch lastError identity s in
  run = revokeGoogleToken fetch' lastError identity s
  /\ gmailAccessToken (snd run) = gmailAccessToken s
  /\ (fst run = Ok tt ->
      google (currentAuthState (world (snd run))) = None
      /\ localStorage (world (snd run)) !! GOOGLE_TOKEN = None)
  /\ (forall e, fst run = Throw e ->
      lastError GOOGLE_TOKEN <> None /\ snd run = s).
Proof.
  intros run. subst run.
  assert (Hnote : forall f t, revokeOnServer f t = Ok tt).
  { intros f t. unfold revokeOnServer. by destruct (f _ _). }
  assert (Hstep : forall f,
             match Api.orNull
                     (option_map accessToken
                        (google (currentAuthState (world s)))) with
             | Some t => if available identity then revokeOnServer f t
                         else Ok tt
             | None => Ok tt
             end = Ok tt).
  { intros f. destruct (Api.orNull _); [|done].
    destruct (available identity); [apply Hnote|done]. }
  unfold revokeGoogleToken. rewrite !Hstep.
  unfold removeFromStorage.
  destruct (lastError GOOGLE_TOKEN) as [msg|]; simpl.
  - repeat split; try done. by destruct s.
  - repeat split; try done. by rewrite lookup_delete_eq.
Qed.

(** On a module that was just loaded, [initializeAuth] brings back what
    the storage holds: each track is the stored value of its key, the
    flag says whether both are there, the Gmail client gets the stored
    token, and the CRM client gets the stored URL, always with the
    literal token stored-token.  The expiry time of the token is not
    looked at. *)
Theorem initializeAuth_restores (s : Session) :
  typedStorage (localStorage (world s)) = true ->
  readError GOOGLE_TOKEN = None ->
  readError BIZDASH_AUTH = None ->
  exists st s',
    initializeAuth readError (restart s) = Some (st, s')
    /\ st = currentAuthState (world s')
    /\ localStorage (world s') = localStorage (world s)
    /\ castGoogle (localStorage (world s) !! GOOGLE_TOKEN)
       = Some (google st)
    /\ castBizDash (localStorage (world s) !! BIZDASH_AUTH)
       = Some (bizdash st)
    /\ isFullyAuthenticated st = bothPresent st
    /\ gmailAccessToken s' = option_map accessToken (google st)
    /\ apiConfig (world s')
       = match bizdash st with
         | Some a => {| Api.apiBaseUrl := apiUrl a;
                        Api.authToken := Some "stored-token" |}
         | None => Api.initialConfig
         end.
Proof.
  intros Htyped Hg Hb.
  destruct (typedStorage_casts _ Htyped) as (g & b & Hcg & Hcb & _ & _).
  unfold initializeAuth, getFromStorage. rewrite Hg, Hb.
  cbn [restart world localStorage]. rewrite Hcg, Hcb.
  eexists _, _. split; [reflexivity|].
  cbn. repeat split; try done; by destruct g, b.
Qed.

(** A read of storage that fails makes [initializeAuth] return the
    current state and change nothing; it never throws. *)
Theorem initializeAuth_read_failure (s : Session) (key : string) :
  key = GOOGLE_TOKEN \/ key = BIZDASH_AUTH ->
  readError key <> None ->
  initializeAuth readError s = Some (currentAuthState (world s), s).
Proof.
  intros Hkey Herr. unfold initializeAuth, getFromStorage.
  destruct Hkey as [-> | ->].
  - by destruct (readError GOOGLE_TOKEN).
  - destruct (readError GOOGLE_TOKEN); [done|].
    by destruct (readError BIZDASH_AUTH).
Qed.

(** A connection to BizDash survives a restart, its API key does not
    reach the client again: after [authenticateBizDash] has succeeded and
    the process has started anew, [initializeAuth] restores the very
    record that was returned, with the key in it, while the CRM client,
    which had the key as its token, now sends stored-token. *)
Theorem authenticateBizDash_restart (url : string) (key : option string)
  (w w' : World) (b : BizDashAuth) (g : option string) :
  typedStorage (localStorage w) = true ->
  readError GOOGLE_TOKEN = None ->
  readError BIZDASH_AUTH = None ->
  authenticateBizDash fetch lastError url key w = (Ok b, w') ->
  Api.authToken (apiConfig w') = Api.orNull key
  /\ apiKey b = Api.orNull key
  /\ exists st s',
       initializeAuth readError
         (restart {| world := w'; gmailAccessToken := g |})
       = Some (st, s')
       /\ bizdash st = Some b
       /\ apiConfig (world s')
          = {| Api.apiBaseUrl := url;
               Api.authToken := Some "stored-token" |}.
Proof.
  intros Htyped Hg Hb. unfold authenticateBizDash.
  destruct (probe fetch url); [|discriminate].
  unfold saveToStorage. simpl.
  destruct (lastError BIZDASH_AUTH) as [msg|]; [discriminate|].
  intros [= <- <-]. simpl.
  split; [by destruct key as [[|c k]|]|]. split; [done|].
  pose proof (typedStorage_insert_bizdash _
    {| apiUrl := url; apiKey := Api.orNull key; tenantId := "default";
       isAuthenticated := true; userEmail := Some "connected" |} Htyped)
    as Htyped'.
  unfold typedStorage in Htyped'. apply andb_true_iff in Htyped' as [H1 _].
  unfold initializeAuth, getFromStorage. rewrite Hg, Hb.
  cbn [restart world localStorage withAuthState].
  rewrite lookup_insert_eq. cbn [castBizDash].
  destruct (<[BIZDASH_AUTH:=_]> (localStorage w) !! GOOGLE_TOKEN)
    as [[t0|a0]|]; [|discriminate|]; cbn; eexists _, _; done.
Qed.

(** When the health check has passed and the write to storage fails,
    [authenticateBizDash] throws the storage error; the state and the
    storage are as before, but the CRM client is already configured for
    the new URL and key. *)
Theorem authenticateBizDash_write_failure (url : string)
  (key : option string) (w : World) (msg : string) :
  probe fetch url = Ok tt ->
  lastError BIZDASH_AUTH = Some msg ->
  exists w',
    authenticateBizDash fetch lastError url key w = (Throw (Error msg), w')
    /\ currentAuthState w' = currentAuthState w
    /\ localStorage w' = localStorage w
    /\ apiConfig w'
       = {| Api.apiBaseUrl := url; Api.authToken := Api.orNull key |}.
Proof.
  intros Hprobe Herr. unfold authenticateBizDash, saveToStorage.
  rewrite Hprobe. simpl. rewrite Herr.
  eexists. split; [reflexivity|]. simpl. repeat split.
  unfold Api.configureApi. f_equal. by destruct key as [[|c k]|].
Qed.

(** Signing out of BizDash lasts: after a successful [signOutBizDash] the
    key is gone from storage, and a restart followed by [initializeAuth]
    comes up without a BizDash connection and not fully authenticated.
    When the removal fails, nothing has changed. *)
Theorem signOutBizDash_lasts (w w' : World) (r : result unit)
  (g : option string) :
  typedStorage (localStorage w) = true ->
  readError GOOGLE_TOKEN = None ->
  readError BIZDASH_AUTH = None ->
  signOutBizDash lastError w = (r, w') ->
  match r with
  | Throw _ => w' = w
  | Ok _ =>
      localStorage w' !! BIZDASH_AUTH = None
      /\ bizdash (currentAuthState w') = None
      /\ exists st s',
           initializeAuth readError
             (restart {| world := w'; gmailAccessToken := g |})
           = Some (st, s')
           /\ bizdash st = None
           /\ isFullyAuthenticated st = false
  end.
Proof.
  intros Htyped Hg Hb. unfold signOutBizDash, removeFromStorage.
  destruct (lastError BIZDASH_AUTH) as [msg|].
  - intros [= <- <-]. done.
  - intros [= <- <-]. simpl. rewrite lookup_delete_eq.
    split; [done|]. split; [done|].
    pose proof (typedStorage_delete _ BIZDASH_AUTH Htyped) as Htyped'.
    unfold typedStorage in Htyped'.
    apply andb_true_iff in Htyped' as [H1 _].
    unfold initializeAuth, getFromStorage. rewrite Hg, Hb.
    cbn [restart world localStorage withAuthState].
    rewrite lookup_delete_eq. cbn [castBizDash].
    destruct (delete BIZDASH_AUTH (localStorage w) !! GOOGLE_TOKEN)
      as [[t0|a0]|]; [|discriminate|]; cbn; eexists _, _;
      (split; [reflexivity|]); split; try done;
      by rewrite andb_false_r.
Qed.

(** A state that [authenticateFull] resolves to is fully authenticated:
    both tracks are present, the BizDash track is the one for the given
    URL, and the state is the current one. *)
Theorem authenticateFull_resolved (url : string) (s s' : Session)
  (st : AuthState) :
  authenticateFull fetch lastError identity now url s
  = (Settled (Ok st), s') ->
  isFullyAuthenticated st = true
  /\ bothPresent st = true
  /\ option_map apiUrl (bizdash st) = Some url
  /\ option_map accessToken (google st) = getAuthToken identity true
  /\ st = currentAuthState (world s').
Proof.
  unfold authenticateFull.
  destruct (authenticateGoogle lastError identity now s) as [[[t|e]|] s1]
    eqn:Egoogle; [|discriminate|discriminate].
  pose proof (authenticateGoogle_Ok_state _ _ _ Egoogle)
    as (Hgoogle & Htok).
  unfold authenticateBizDash.
  destruct (probe fetch url); [|discriminate].
  unfold saveToStorage. simpl.
  destruct (lastError BIZDASH_AUTH) as [msg|]; [discriminate|].
  intros [= <- <-]. simpl. rewrite Hgoogle. simpl.
  unfold bothPresent, updateAuthState. simpl. rewrite Hgoogle, Htok.
  done.
Qed.

(** The flows write only values of the key's own shape, so a storage
    that holds such values keeps holding them through every flow. *)
Theorem flows_keep_storage_typed (s : Session) (url : string)
  (key : option string) :
  typedStorage (localStorage (world s)) = true ->
  typedStorage
    (localStorage (world (snd (authenticateGoogle lastError identity now s))))
  = true
  /\ typedStorage
       (localStorage
          (world (snd (refreshGoogleToken lastError identity now s))))
     = true
  /\ typedStorage
       (localStorage
          (world (snd (revokeGoogleToken fetch lastError identity s))))
     = true
  /\ typedStorage
       (localStorage
          (snd (authenticateBizDash fetch lastError url key (world s))))
     = true
  /\ typedStorage (localStorage (snd (signOutBizDash lastError (world s))))
     = true
  /\ typedStorage
       (localStorage
          (world (snd (authenticateFull fetch lastError identity now url
                         s))))
     = true.
Proof.
  intros Htyped.
  assert (Hinstall : forall A t (r : A) s0,
             typedStorage (localStorage (world s0)) = true ->
             typedStorage
               (localStorage (world (snd (installToken lastError t r s0))))
             = true).
  { intros A t r s0 H0. unfold installToken, saveToStorage. simpl.
    destruct (lastError GOOGLE_TOKEN); simpl; [done|].
    by apply typedStorage_insert_google. }
  assert (Hgoogle : forall s0,
             typedStorage (localStorage (world s0)) = true ->
             typedStorage
               (localStorage
                  (world (snd (authenticateGoogle lastError identity now
                                 s0)))) = true).
  { intros s0 H0. unfold authenticateGoogle.
    destruct (available identity); simpl; [|done].
    destruct (identityError identity true); [done|].
    destruct (Api.orNull (getAuthToken identity true)); [|done].
    by apply Hinstall. }
  assert (Hbiz : forall w0,
             typedStorage (localStorage w0) = true ->
             typedStorage
               (localStorage
                  (snd (authenticateBizDash fetch lastError url None w0)))
             = true
             /\ typedStorage
               (localStorage
                  (snd (authenticateBizDash fetch lastError url key w0)))
             = true).
  { intros w0 H0. unfold authenticateBizDash.
    destruct (probe fetch url); [|done].
    unfold saveToStorage. simpl.
    destruct (lastError BIZDASH_AUTH); simpl; [done|].
    split; by apply typedStorage_insert_bizdash. }
  split; [by apply Hgoogle|]. split.
  { unfold refreshGoogleToken.
    destruct (available identity); simpl; [|done].
    destruct (identityError identity false); [done|].
    destruct (Api.orNull (getAuthToken identity false)); [|done].
    by apply Hinstall. }
  split.
  { unfold revokeGoogleToken.
    match goal with
    | |- context [match ?n with Ok _ => _ | Throw _ => _ end] =>
        destruct n; [|done]
    end.
    unfold removeFromStorage.
    destruct (lastError GOOGLE_TOKEN); simpl; [done|].
    by apply typedStorage_delete. }
  split; [by apply Hbiz|]. split.
  { unfold signOutBizDash, removeFromStorage.
    destruct (lastError BIZDASH_AUTH); simpl; [done|].
    by apply typedStorage_delete. }
  unfold authenticateFull. specialize (Hgoogle s Htyped).
  destruct (authenticateGoogle lastError identity now s) as [[[t|e]|] s1];
    simpl in Hgoogle |- *; try done.
  destruct (Hbiz (world s1) Hgoogle) as [Hnone _].
  destruct (authenticateBizDash fetch lastError url None (world s1))
    as [[b|e] w2]; simpl in Hnone |- *; done.
Qed.

End Flows.

Lemma authenticateGoogle_unsettled_witness :
  fst (authenticateGoogle quotaExceeded sampleIdentity 1700000000000
         freshSession) = Pending
  /\ gmailAccessToken
       (snd (authenticateGoogle quotaExceeded sampleIdentity 1700000000000
               freshSession)) = Some "ya29.a0Af".
Proof.
  pose proof (authenticateGoogle_unsettled quotaExceeded sampleIdentity
                1700000000000 freshSession) as H.
  cbv zeta in H. destruct H as (Hiff & Hstate & _).
  assert (Hp : fst (authenticateGoogle quotaExceeded sampleIdentity
                      1700000000000 freshSession) = Pending).
  { apply Hiff. repeat split; discriminate. }
  split; [exact Hp | exact (proj2 (Hstate Hp))].
Defined.

Lemma refreshGoogleToken_outcomes_witness :
  exists t,
    fst (refreshGoogleToken noError sampleIdentity 1700000000000
           signedInSession) = Settled (Ok (Some t))
    /\ scope t = scope sampleToken
    /\ expiresAt t = 1700003600000%Z.
Proof.
  pose proof (refreshGoogleToken_outcomes noError sampleIdentity
                1700000000000 signedInSession) as H.
  cbv zeta in H. destruct H as (_ & _ & Hsome).
  eexists. split; [reflexivity|].
  destruct (Hsome _ eq_refl) as (Hscope & Hexp & _).
  split; [exact Hscope | exact Hexp].
Defined.

Lemma revokeGoogleToken_offline_witness :
  revokeGoogleToken offline noError sampleIdentity signedInSession
  = revokeGoogleToken reachable noError sampleIdentity signedInSession
  /\ gmailAccessToken
       (snd (revokeGoogleToken offline noError sampleIdentity
               signedInSession)) = Some "ya29.a0Af"
  /\ google
       (currentAuthState
          (world (snd (revokeGoogleToken offline noError sampleIdentity
                         signedInSession)))) = None.
Proof.
  pose proof (revokeGoogleToken_offline offline noError sampleIdentity
                reachable signedInSession) as H.
  cbv zeta in H. destruct H as (Hsame & Htoken & Hok & _).
  split; [exact Hsame|]. split; [exact Htoken|].
  exact (proj1 (Hok eq_refl)).
Defined.

Lemma authenticateGoogle_resolved_witness :
  isGoogleTokenValid 1700003599999
    (world (snd (authenticateGoogle noError sampleIdentity 1700000000000
                   freshSession))) = true
  /\ isGoogleTokenValid 1700003600000
       (world (snd (authenticateGoogle noError sampleIdentity 1700000000000
                      freshSession))) = false.
Proof.
  pose proof (authenticateGoogle_resolved noError sampleIdentity
                1700000000000 freshSession _ _ eq_refl)
    as (_ & _ & _ & _ & _ & _ & Hvalid).
  split; rewrite Hvalid; reflexivity.
Defined.

Lemma initializeAuth_restores_witness :
  exists st s',
    initializeAuth noError (restart storedSession) = Some (st, s')
    /\ isFullyAuthenticated st = true
    /\ isGoogleTokenValid 1800000000000 (world s') = false.
Proof.
  destruct (initializeAuth_restores noError storedSession eq_refl eq_refl
              eq_refl) as (st & s' & Hrun & _).
  exists st, s'. split; [exact Hrun|].
  vm_compute in Hrun. injection Hrun as <- <-. split; reflexivity.
Defined.

Lemma initializeAuth_read_failure_witness :
  initializeAuth quotaExceeded storedSession
  = Some (initialAuthState, storedSession).
Proof.
  apply (initializeAuth_read_failure quotaExceeded storedSession
           BIZDASH_AUTH).
  - by right.
  - discriminate.
Defined.

Lemma authenticateBizDash_restart_witness :
  Api.authToken
    (apiConfig (snd (authenticateBizDash reachable noError
                       "https://crm.example" (Some "k1") freshWorld)))
  = Some "k1"
  /\ exists st s',
       initializeAuth noError
         (restart
            {| world := snd (authenticateBizDash reachable noError
                               "https://crm.example" (Some "k1")
                               freshWorld);
               gmailAccessToken := None |})
       = Some (st, s')
       /\ option_map apiKey (bizdash st) = Some (Some "k1")
       /\ Api.authToken (apiConfig (world s')) = Some "stored-token".
Proof.
  destruct (authenticateBizDash_restart reachable noError noError
              "https://crm.example" (Some "k1") freshWorld _ _ None
              eq_refl eq_refl eq_refl eq_refl)
    as (Htok & _ & st & s' & Hrun & Hbiz & Hcfg).
  split; [exact Htok|].
  exists st, s'. split; [exact Hrun|].
  rewrite Hbiz, Hcfg. split; reflexivity.
Defined.

Lemma authenticateBizDash_write_failure_witness :
  exists w',
    authenticateBizDash reachable quotaExceeded "https://crm.example"
      (Some "k1") freshWorld
    = (Throw (Error "QUOTA_BYTES quota exceeded"), w')
    /\ currentAuthState w' = initialAuthState
    /\ Api.apiBaseUrl (apiConfig w') = "https://crm.example".
Proof.
  destruct (authenticateBizDash_write_failure reachable quotaExceeded
              "https://crm.example" (Some "k1") freshWorld
              "QUOTA_BYTES quota exceeded" eq_refl eq_refl)
    as (w' & Hrun & Hst & _ & Hcfg).
  exists w'. split; [exact Hrun|]. split; [exact Hst|].
  by rewrite Hcfg.
Defined.

Lemma signOutBizDash_lasts_witness :
  localStorage (snd (signOutBizDash noError (world storedSession)))
    !! BIZDASH_AUTH = None.
Proof.
  exact (proj1 (signOutBizDash_lasts noError noError
                  (world storedSession) _ (Ok tt) None
                  eq_refl eq_refl eq_refl eq_refl)).
Defined.

Lemma authenticateFull_resolved_witness :
  exists st s',
    authenticateFull reachable noError sampleIdentity 1700000000000
      "https://crm.example" freshSession = (Settled (Ok st), s')
    /\ isFullyAuthenticated st = true.
Proof.
  eexists _, _. split; [reflexivity|].
  exact (proj1 (authenticateFull_resolved reachable noError sampleIdentity
                  1700000000000 "https://crm.example" freshSession _ _
                  eq_refl)).
Defined.

Lemma flows_keep_storage_typed_witness :
  typedStorage
    (localStorage
       (world (snd (authenticateGoogle noError sampleIdentity
                      1700000000000 storedSession)))) = true.
Proof.
  exact (proj1 (flows_keep_storage_typed reachable noError sampleIdentity
                  1700000000000 storedSession "https://crm.example" None
                  eq_refl)).
Defined.

End AuthFlowsFacts.

(** ** The message handler *)

Module CoordinatorFacts.
Import Js Http Auth AuthFlows ServiceWorker Coordinator.
Import Samples MoreSamples.

Lemma errorText_nonempty (e : exn) : errorText e <> "".
Proof.
  unfold errorText. destruct (Api.nonEmpty (messageOf e)) eqn:E.
  - intros H. rewrite H in E. discriminate.
  - discriminate.
Qed.

Section Worker.
Variable fetch : Fetch.
Variable encodeURIComponent : string -> result string.
Variable stringify : Content.EmailLogRequest -> string.
Variable lastError : string -> option string.
Variable identity : Identity.
Variable now : Z.
Variable written : bool.
Variable sessionError : option exn.

Local Abbreviation onMessage :=
  (onMessage fetch encodeURIComponent stringify lastError identity now
     written sessionError).

(** Every message is answered, with one exception: the request to sign
    in with Google goes without a response exactly when a token was
    obtained and could not be written to storage. *)
Theorem onMessage_unanswered (message : ExtensionMessage)
  (ext : Extension) :
  fst (onMessage message ext) = None <->
  message = AUTHENTICATE_GOOGLE
  /\ available identity = true
  /\ identityError identity true = None
  /\ Api.orNull (getAuthToken identity true) <> None
  /\ lastError GOOGLE_TOKEN <> None.
Proof.
  pose proof (AuthFlowsFacts.authenticateGoogle_pending lastError identity now
                (session ext)) as Hpending.
  unfold Coordinator.onMessage, handleMessage, settle.
  destruct message; simpl;
    try (split; [|intros (H & _); discriminate]).
  - by destruct (ApiCalls.logEmail _ _ _ _).
  - by destruct (ApiCalls.searchContactByEmail _ _ _ _).
  - discriminate.
  - destruct (authenticateGoogle lastError identity now (session ext))
      as [[[t|e]|] s1]; simpl in *.
    + split; [discriminate|]. intros (_ & H). by apply Hpending in H.
    + split; [discriminate|]. intros (_ & H). by apply Hpending in H.
    + split; [|done]. intros _. split; [done|]. by apply Hpending.
  - by destruct (authenticateBizDash _ _ _ _ _) as [[b|e] w].
  - discriminate.
  - discriminate.
  - by destruct sessionError.
  - discriminate.
Qed.

(** A failure response always carries a text: the message of the error,
    or Unknown error when the error has none.  A message of an unknown
    type is answered with a failure that names the type, and changes
    nothing. *)
Theorem onMessage_failure_text (message : ExtensionMessage)
  (ext : Extension) :
  (forall text, fst (onMessage message ext) = Some (Failure text) ->
   text <> "")
  /\ (forall type, message = OtherMessage type ->
      onMessage message ext
      = (Some (Failure ("Unknown message type: " +:+ type)), ext)).
Proof.
  split.
  - unfold Coordinator.onMessage.
    destruct (handleMessage _ _ _ _ _ _ _ _ _ _) as [[[d|e]|] ext'];
      simpl; try discriminate.
    intros text [= <-]. apply errorText_nonempty.
  - by intros type ->.
Qed.

(** A response of the CRM server outside 200-299 to the request that
    logs an email reaches the sender of [LOG_EMAIL] as a failure whose
    text carries the status and the body of that response. *)
Theorem onMessage_log_rejected (payload : Content.EmailLogRequest)
  (ext : Extension) (r : Response) :
  let cfg := apiConfig (world (session ext)) in
  fetch (Api.apiBaseUrl cfg +:+ "/api/v1/crm/emails")
    {| method := Some "POST";
       headers := Api.authorization cfg
                  ∪ {[ "Content-Type" := "application/json" ]};
       body := Some (stringify payload) |}
  = Ok r ->
  ok r = false ->
  onMessage (LOG_EMAIL payload) ext
  = (Some (Failure ("BizDash API error " +:+ showZ (status r) +:+ ": "
                    +:+ match text r with
                        | Ok t => t
                        | Throw _ => "Unknown error"
                        end)), ext).
Proof.
  intros cfg Hfetch Hok.
  unfold Coordinator.onMessage, handleMessage, settle, ApiCalls.logEmail,
    Api.apiRequest, Api.requestInit, ApiCalls.logEmailOptions.
  cbn [method headers body]. fold cfg.
  rewrite (left_id_L ∅ (∪)). rewrite Hfetch. cbn [bind]. rewrite Hok.
  reflexivity.
Qed.

(** A message that is answered with a failure has changed neither the
    authentication state nor any of the three storage areas nor the
    token of the Gmail client. *)
Theorem onMessage_failure_keeps_state (message : ExtensionMessage)
  (ext : Extension) (text : string) :
  fst (onMessage message ext) = Some (Failure text) ->
  let ext' := snd (onMessage message ext) in
  currentAuthState (world (session ext'))
  = currentAuthState (world (session ext))
  /\ localStorage (world (session ext'))
     = localStorage (world (session ext))
  /\ gmailAccessToken (session ext') = gmailAccessToken (session ext)
  /\ syncStorage ext' = syncStorage ext
  /\ currentEmail ext' = currentEmail ext.
Proof.
  unfold Coordinator.onMessage, handleMessage, settle.
  destruct message as [p|em| | |url| |p|p|ty]; simpl.
  - by destruct (ApiCalls.logEmail _ _ _ _).
  - by destruct (ApiCalls.searchContactByEmail _ _ _ _).
  - discriminate.
  - pose proof (AuthFlowsFacts.authenticateGoogle_Throw_state lastError identity now
                  (session ext)) as Hsame.
    destruct (authenticateGoogle lastError identity now (session ext))
      as [[[t|e]|] s1]; simpl in *; try discriminate.
    intros _. by rewrite (Hsame e eq_refl).
  - pose proof (AuthFlowsFacts.authenticateBizDash_Throw_state fetch lastError url
                  None (world (session ext))) as Hsame.
    destruct (authenticateBizDash fetch lastError url None
                (world (session ext))) as [[b|e] w]; simpl in *;
      try discriminate.
    intros _. destruct (Hsame e eq_refl) as [-> ->]. done.
  - discriminate.
  - discriminate.
  - by destruct sessionError.
  - done.
Qed.

End Worker.

Lemma onMessage_unanswered_witness :
  fst (onMessage reachable asIs (fun _ => "{}") quotaExceeded
         sampleIdentity 1700000000000 true None AUTHENTICATE_GOOGLE
         freshExtension) = None.
Proof.
  apply (onMessage_unanswered reachable asIs (fun _ => "{}") quotaExceeded
           sampleIdentity 1700000000000 true None).
  repeat split; discriminate.
Defined.

Lemma onMessage_failure_text_witness :
  onMessage reachable asIs (fun _ => "{}") noError sampleIdentity
    1700000000000 true None (OtherMessage "TRIGGER_LOG_EMAIL")
    freshExtension
  = (Some (Failure "Unknown message type: TRIGGER_LOG_EMAIL"),
     freshExtension).
Proof.
  exact (proj2 (onMessage_failure_text reachable asIs (fun _ => "{}")
                  noError sampleIdentity 1700000000000 true None
                  (OtherMessage "TRIGGER_LOG_EMAIL") freshExtension)
           "TRIGGER_LOG_EMAIL" eq_refl).
Defined.

Lemma onMessage_log_rejected_witness :
  onMessage unavailable asIs (fun _ => "{}") noError sampleIdentity
    1700000000000 true None (LOG_EMAIL sampleRequest) freshExtension
  = (Some (Failure "BizDash API error 503: Service Unavailable"),
     freshExtension).
Proof.
  exact (onMessage_log_rejected unavailable asIs (fun _ => "{}") noError
           sampleIdentity 1700000000000 true None sampleRequest
           freshExtension _ eq_refl eq_refl).
Defined.

Lemma onMessage_failure_keeps_state_witness :
  localStorage
    (world (session
       (snd (onMessage offline asIs (fun _ => "{}") noError sampleIdentity
               1700000000000 true None
               (AUTHENTICATE_BIZDASH "https://crm.example")
               freshExtension))))
  = ∅.
Proof.
  exact (proj1 (proj2
           (onMessage_failure_keeps_state offline asIs (fun _ => "{}")
              noError sampleIdentity 1700000000000 true None
              (AUTHENTICATE_BIZDASH "https://crm.example") freshExtension
              _ eq_refl))).
Defined.

End CoordinatorFacts.

(** ** The menu action *)

Module MenuActionFacts.
Import JsString GmailApi Content Coordinator MenuAction.
Import Samples MoreSamples.

Section Handler.
Variable doc : Document.
Variable clock : Clock.
Variable contains : Element -> Js.result bool.
Variable sendMessage : EmailLogRequest -> Js.result (option ExtensionResponse).

Local Abbreviation handleLogToCrm :=
  (handleLogToCrm doc clock contains sendMessage).

(** [handleLogToCrm] sends at most one request, and only for a row that
    is still in the page and gave a sender address: a request that is
    sent has a sender address and an identifier that are not empty, the
    same identifier for message and thread, and no recipients. *)
Theorem handleLogToCrm_sent (clickedEmailRow : option Element)
  (request : EmailLogRequest) :
  In request (sent (handleLogToCrm clickedEmailRow)) ->
  sent (handleLogToCrm clickedEmailRow) = [request]
  /\ fromEmail request <> []
  /\ gmailMessageId request <> []
  /\ gmailThreadId request = gmailMessageId request
  /\ toEmails request = []
  /\ ccEmails request = []
  /\ exists row mail,
       clickedEmailRow = Some row
       /\ contains row = Js.Ok true
       /\ extractEmailFromRow doc clock row = Some mail
       /\ request = logRequestOf mail.
Proof.
  unfold MenuAction.handleLogToCrm.
  destruct clickedEmailRow as [row|]; [|intros []].
  destruct (contains row) as [[|]|e] eqn:Hin; try (intros []).
  destruct (extractEmailFromRow doc clock row) as [mail|] eqn:Hmail;
    [|intros []].
  destruct (truthy (email (from mail))) eqn:Hfrom; simpl; [|intros []].
  intros [<-|[]].
  pose proof (ExtractionFacts.extractEmailFromRow_ids _ _ _ _ Hmail)
    as Hids.
  destruct (ExtractionFacts.extractEmailFromRow_thread_link _ _ _ _ Hmail)
    as (href & Hid).
  destruct (ExtractionMoreFacts.extractEmailFromRow_fields _ _ _ _ Hmail)
    as (Hto & Hcc & _).
  split; [done|]. split.
  { simpl. intros H. rewrite H in Hfrom. discriminate. }
  split.
  { simpl. rewrite Hid. unfold threadIdOf.
    by apply ExtractionMoreFacts.orElse_nonempty. }
  split; [simpl; congruence|].
  split; [by simpl; rewrite Hto|]. split; [by simpl; rewrite Hcc|].
  by exists row, mail.
Qed.

(** A run of [handleLogToCrm] that does not reject ends with exactly one
    verdict: its last toast is a success or an error, never the progress
    note; it is a success exactly when a request was sent and the
    background answered it with a success; and when nothing was sent,
    the error is the only toast. *)
Theorem handleLogToCrm_verdict (clickedEmailRow : option Element) :
  let run := handleLogToCrm clickedEmailRow in
  match rejected run with
  | Some _ => toasts run = [] /\ sent run = []
  | None =>
      exists message type,
        last (toasts run) = Some (message, type)
        /\ type <> info
        /\ message <> ""
        /\ (type = success <->
            exists request data,
              sent run = [request]
              /\ sendMessage request = Js.Ok (Some (Success data)))
        /\ (sent run = [] -> toasts run = [(message, error)])
  end.
Proof.
  intros run. subst run. unfold MenuAction.handleLogToCrm.
  assert (Hstop : forall m, m <> "" ->
            exists message type,
              last (toasts (stop m)) = Some (message, type)
              /\ type <> info
              /\ message <> ""
              /\ (type = success <->
                  exists request data,
                    sent (stop m) = [request]
                    /\ sendMessage request = Js.Ok (Some (Success data)))
              /\ (sent (stop m) = [] ->
                  toasts (stop m) = [(message, error)])).
  { intros m Hm. exists m, error. simpl.
    split; [done|]. split; [done|]. split; [done|]. split; [|done].
    split; [discriminate|]. intros (request & data & H & _).
    discriminate. }
  destruct clickedEmailRow as [row|]; [|by apply Hstop].
  destruct (contains row) as [[|]|e]; [| by apply Hstop | done].
  destruct (extractEmailFromRow doc clock row) as [mail|];
    [|by apply Hstop].
  destruct (truthy (email (from mail))); simpl; [|by apply Hstop].
  unfold verdict.
  destruct (sendMessage (logRequestOf mail)) as [[[d|e]|]|e] eqn:Hsend.
  - exists (loggedText (subject mail)), success. simpl.
    split; [done|]. split; [done|]. split; [done|]. split; [|done].
    split; [|done]. intros _. by exists (logRequestOf mail), d.
  - exists (if Api.nonEmpty e then e else "Failed to log email"), error.
    simpl. split; [done|]. split; [done|].
    split; [by destruct e|]. split; [|done].
    split; [discriminate|]. intros (request & data & [= <-] & H).
    rewrite Hsend in H. discriminate.
  - exists "Error logging email. Is BizDash running?", error. simpl.
    split; [done|]. split; [done|]. split; [done|]. split; [|done].
    split; [discriminate|]. intros (request & data & [= <-] & H).
    rewrite Hsend in H. discriminate.
  - exists "Error logging email. Is BizDash running?", error. simpl.
    split; [done|]. split; [done|]. split; [done|]. split; [|done].
    split; [discriminate|]. intros (request & data & [= <-] & H).
    rewrite Hsend in H. discriminate.
Qed.

End Handler.

Lemma handleLogToCrm_verdict_witness :
  exists message,
    last (toasts (handleLogToCrm (samplePage (str "#inbox/FMfcgzQ"))
                    sampleClock (fun _ => Js.Ok true) accepting (Some 0)))
    = Some (message, success).
Proof.
  pose proof (handleLogToCrm_verdict (samplePage (str "#inbox/FMfcgzQ"))
                sampleClock (fun _ => Js.Ok true) accepting (Some 0)) as H.
  cbv zeta in H.
  change (rejected
            (handleLogToCrm (samplePage (str "#inbox/FMfcgzQ")) sampleClock
               (fun _ => Js.Ok true) accepting (Some 0)))
    with (@None Js.exn) in H.
  destruct H as (message & type & Hlast & _ & _ & Hiff & _).
  exists message.
  assert (Htype : type = success).
  { apply Hiff. eexists _, IsStored. split; reflexivity. }
  by rewrite Htype in Hlast.
Defined.

Lemma handleLogToCrm_sent_witness :
  let request :=
    logRequestOf
      (sampleMail (str "FMfcgzQ") (str "#inbox/FMfcgzQ")
         (Some (str "#inbox/FMfcgzQ"))) in
  fromEmail request <> [] /\ gmailMessageId request <> [].
Proof.
  pose proof (handleLogToCrm_sent (samplePage (str "#inbox/FMfcgzQ"))
                sampleClock (fun _ => Js.Ok true) accepting (Some 0)
                _ (or_introl eq_refl)) as (_ & Hfrom & Hid & _).
  split; [exact Hfrom | exact Hid].
Defined.

End MenuActionFacts.

(** ** The identifiers of DOM-extracted records *)

Module DedupKeyFacts.
Import JsString Regex GmailApi Content Shapes MoreShapes Samples.

(** C9: a record produced by [extractEmailFromDOM] or by
    [extractEmailFromRow] has its [messageId] equal to its [threadId], so
    the request built from it carries one value as [gmailMessageId] and
    as [gmailThreadId].  What that value identifies differs.  For
    [extractEmailFromDOM] it is the data-message-id attribute of the
    open message (or the dom- fallback): the key is an identifier of the
    message, and it is the thread field that holds a message identifier.
    For [extractEmailFromRow] it is computed from the [href] of the row's
    thread link (or is the row- fallback): for a link that ends in a #,
    a label, a slash and an identifier, both fields hold that identifier,
    which is the one of the thread the link leads to. *)
Theorem dom_extraction_one_identifier :
  (forall doc clock mail,
      extractEmailFromDOM doc clock = Some mail ->
      messageId mail = threadId mail
      /\ gmailMessageId (logRequestOf mail)
         = gmailThreadId (logRequestOf mail)
      /\ exists container idAttr,
          querySelector doc "[data-message-id]" = Js.Ok (Some container)
          /\ getAttribute doc container "data-message-id" = Js.Ok idAttr
          /\ gmailMessageId (logRequestOf mail)
             = orElse idAttr (str "dom-" ++ showTime (now clock)))
  /\ (forall doc clock row mail,
         extractEmailFromRow doc clock row = Some mail ->
         messageId mail = threadId mail
         /\ gmailMessageId (logRequestOf mail)
            = gmailThreadId (logRequestOf mail)
         /\ (exists threadLink hrefAttr,
               querySelectorIn doc row
                 "a[href*=#inbox/], a[href*=#sent/], a[href*=#all/], a[href*=#search/]"
               = Js.Ok threadLink
               /\ attrOf doc threadLink "href" = Js.Ok hrefAttr
               /\ gmailMessageId (logRequestOf mail)
                  = threadIdOf clock (orElse hrefAttr []))
         /\ (forall threadLink pre label id,
               querySelectorIn doc row
                 "a[href*=#inbox/], a[href*=#sent/], a[href*=#all/], a[href*=#search/]"
               = Js.Ok threadLink ->
               attrOf doc threadLink "href"
               = Js.Ok (Some (pre ++ "#"%char :: label ++ "/"%char :: id)) ->
               hasNo "#"%char pre = true ->
               label <> [] -> hasNo "/"%char label = true ->
               id <> [] -> forallb isIdChar id = true ->
               gmailMessageId (logRequestOf mail) = id
               /\ gmailThreadId (logRequestOf mail) = id)).
Proof.
  split.
  - intros doc clock mail H.
    pose proof (ExtractionFacts.extractEmailFromDOM_ids _ _ _ H) as Hids.
    split; [done|]. split; [done|].
    destruct (ExtractionFacts.extractEmailFromDOM_message_attr _ _ _ H)
      as (container & idAttr & Hq & Ha & Hid).
    by exists container, idAttr.
  - intros doc clock row mail H.
    pose proof (ExtractionFacts.extractEmailFromRow_ids _ _ _ _ H) as Hids.
    destruct (ExtractionFacts.extractEmailFromRow_link_href _ _ _ _ H)
      as (threadLink & hrefAttr & Hq & Ha & Hid).
    split; [done|]. split; [done|]. split.
    + by exists threadLink, hrefAttr.
    + intros threadLink' pre label id Hq' Ha' Hpre Hl Hls Hi His.
      rewrite Hq in Hq'. injection Hq' as <-.
      rewrite Ha in Ha'. injection Ha' as ->.
      assert (Hkey : messageId mail = id).
      { rewrite Hid. unfold threadIdOf.
        replace (orElse (Some (pre ++ "#"%char :: label ++ "/"%char :: id))
                   [])
          with (pre ++ "#"%char :: label ++ "/"%char :: id ++ [])
          by (rewrite app_nil_r; by destruct pre).
        rewrite ExtractionMoreFacts.exec_threadIdPattern by done.
        simpl. by destruct id. }
      simpl. by rewrite <- Hids, Hkey.
Qed.

Lemma dom_extraction_one_identifier_witness :
  (let mail := sampleMail (str "18c2a4f") (str "18c2a4f")
                 (Some (str "18c2a4f")) in
   messageId mail = threadId mail
   /\ gmailMessageId (logRequestOf mail) = gmailThreadId (logRequestOf mail)
   /\ exists container idAttr,
       querySelector (samplePage (str "18c2a4f")) "[data-message-id]"
       = Js.Ok (Some container)
       /\ getAttribute (samplePage (str "18c2a4f")) container
            "data-message-id" = Js.Ok idAttr
       /\ gmailMessageId (logRequestOf mail)
          = orElse idAttr (str "dom-" ++ showTime (now sampleClock)))
  /\ (let mail := sampleMail (str "FMfcgzQ") (str "#inbox/FMfcgzQ")
                    (Some (str "#inbox/FMfcgzQ")) in
      gmailMessageId (logRequestOf mail) = str "FMfcgzQ"
      /\ gmailThreadId (logRequestOf mail) = str "FMfcgzQ").
Proof.
  split.
  - exact (proj1 dom_extraction_one_identifier
             (samplePage (str "18c2a4f")) sampleClock _ eq_refl).
  - exact (proj2 (proj2 (proj2
             (proj2 dom_extraction_one_identifier
                (samplePage (str "#inbox/FMfcgzQ")) sampleClock 0 _
                eq_refl)))
             (Some 0) [] (str "inbox") (str "FMfcgzQ")
             eq_refl eq_refl eq_refl ltac:(discriminate) eq_refl
             ltac:(discriminate) eq_refl).
Defined.

(** Two messages of one conversation, opened one after the other, get
    different keys from [extractEmailFromDOM]: each key is the message's
    own data-message-id, while everything on the page that tells the
    conversation is the same.  So the key of [extractEmailFromDOM] is an
    identifier of the message, not of the thread. *)
Lemma extractEmailFromDOM_key_per_message :
  getAttribute (messagePage (str "msg-f:1001")) 0 "data-legacy-thread-id"
  = getAttribute (messagePage (str "msg-f:1002")) 0 "data-legacy-thread-id"
  /\ option_map dedupKey
       (extractEmailFromDOM (messagePage (str "msg-f:1001")) sampleClock)
     = Some (str "msg-f:1001")
  /\ option_map dedupKey
       (extractEmailFromDOM (messagePage (str "msg-f:1002")) sampleClock)
     = Some (str "msg-f:1002")
  /\ option_map dedupKey
       (extractEmailFromDOM (messagePage (str "msg-f:1001")) sampleClock)
     <> option_map dedupKey
          (extractEmailFromDOM (messagePage (str "msg-f:1002")) sampleClock).
Proof.
  split; [reflexivity|]. split; [reflexivity|]. split; [reflexivity|].
  vm_compute. discriminate.
Qed.

End DedupKeyFacts.
